(** * f2: batch renaming — conflict detection, ordering, numbering, undo

    A shallow embedding of [internal/status/status.go] (package [f2]) and
    the properties its specification states about it.

    Go strings are byte strings and are modelled by [string] (a list of
    [ascii], one per byte).  A Go [int] is a 64-bit signed integer and is
    modelled by [Z], with the wrap-around of [+] written out.  Slices are
    lists, updated by index with stdpp's list insert; Go maps are [gmap]s. *)

From Stdlib Require Import ZArith Ascii String DecimalString.
From stdpp Require Import gmap strings list fin_maps sorting.

Local Open Scope Z_scope.

(** ** The Go standard library, as far as the program uses it *)

(** *** Package [strings] *)

(** [strings.Contains(s, substr)]. *)
Fixpoint strings_Contains (s substr : string) : bool :=
  String.prefix substr s ||
  match s with
  | EmptyString => false
  | String _ r => strings_Contains r substr
  end.

(** [strings.Join(elems, sep)]. *)
Fixpoint strings_Join (elems : list string) (sep : string) : string :=
  match elems with
  | [] => ""
  | [e] => e
  | e :: r => e +:+ sep +:+ strings_Join r sep
  end.

(** [s[n:]]: the string without its first [n] bytes. *)
Fixpoint string_drop (n : nat) (s : string) : string :=
  match n, s with
  | O, _ => s
  | S n', String _ r => string_drop n' r
  | S _, EmptyString => EmptyString
  end.

(** A compiled pattern is represented by the test it makes at one position:
    given the text from that position on, the length of the leftmost-first
    match that starts there, if there is one.  Every pattern of this program
    matches at least one byte. *)
Definition matcher := string → option nat.

(** The scan shared by [ReplaceAll]-like functions: from left to right, each
    match found is replaced by [repl matched] and the scan goes on after it.
    [skip] counts the bytes of the current match still to be passed over. *)
Fixpoint replace_scan (m : matcher) (repl : string → string)
    (skip : nat) (s : string) : string :=
  match s with
  | EmptyString => EmptyString
  | String c r =>
      match skip with
      | S k => replace_scan m repl k r
      | O =>
          match m s with
          | Some (S k) => repl (substring 0 (S k) s) +:+ replace_scan m repl k r
          | _ => String c (replace_scan m repl 0 r)
          end
      end
  end.

(** The matches themselves, in order, each with what the test says of it (its
    submatches): [FindAllStringSubmatch(s, -1)]. *)
Fixpoint find_scan {X} (m : string → option (nat * X)) (skip : nat) (s : string)
    : list (string * X) :=
  match s with
  | EmptyString => []
  | String c r =>
      match skip with
      | S k => find_scan m k r
      | O =>
          match m s with
          | Some (S k, x) => (substring 0 (S k) s, x) :: find_scan m k r
          | _ => find_scan m 0 r
          end
      end
  end.

(** The test made by a literal text. *)
Definition literal_matcher (lit : string) : matcher :=
  λ s, if String.prefix lit s then Some (String.length lit) else None.

(** *** Package [path/filepath] (Unix: the separator is ["/"], no volume) *)

(** The elements between separators: ["a//b"] gives ["a"; ""; "b"]. *)
Fixpoint path_elements (path : string) : list string :=
  match path with
  | EmptyString => [EmptyString]
  | String c r =>
      if Ascii.eqb c "/" then EmptyString :: path_elements r
      else match path_elements r with
           | [] => [String c EmptyString]
           | e :: es => String c e :: es
           end
  end.

(** One element processed by [Clean]; [out] holds the elements kept so far,
    the last one first.  An empty element and ["."] are dropped; [".."]
    removes the element before it when there is one to remove, is kept when
    the path is not rooted and is dropped at the root. *)
Definition clean_element (rooted : bool) (out : list string) (e : string)
    : list string :=
  if String.eqb e "" then out
  else if String.eqb e "." then out
  else if String.eqb e ".." then
    match out with
    | top :: rest => if String.eqb top ".." then e :: out else rest
    | [] => if rooted then [] else [e]
    end
  else e :: out.

(** [filepath.Clean(path)]: the shortest path equivalent to [path] by purely
    lexical processing. *)
Definition filepath_Clean (path : string) : string :=
  if String.eqb path "" then "."
  else
    let rooted := String.prefix "/" path in
    let out := foldl (clean_element rooted) [] (path_elements path) in
    let body := strings_Join (reverse out) "/" in
    if rooted then "/" +:+ body
    else if String.eqb body "" then "." else body.

(** [filepath.Join(a, b)]: empty elements before the first non-empty one are
    ignored, the rest is joined with the separator and cleaned; the join of
    empty elements only is the empty string. *)
Definition filepath_Join (a b : string) : string :=
  if negb (String.eqb a "") then filepath_Clean (a +:+ "/" +:+ b)
  else if negb (String.eqb b "") then filepath_Clean b
  else "".

(** The text up to and including the last separator, and the text after it. *)
Fixpoint split_last_sep (path : string) : string * string :=
  match path with
  | EmptyString => (EmptyString, EmptyString)
  | String c r =>
      let '(d, f) := split_last_sep r in
      if Ascii.eqb c "/" then
        if strings_Contains r "/" then (String c d, f) else ("/", r)
      else if strings_Contains r "/" then (String c d, f)
      else (EmptyString, String c r)
  end.

(** [filepath.Dir(path)]: all but the last element, cleaned. *)
Definition filepath_Dir (path : string) : string :=
  filepath_Clean (fst (split_last_sep path)).

(** [path] without its trailing separators. *)
Fixpoint strip_trailing_sep (path : string) : string :=
  match path with
  | EmptyString => EmptyString
  | String c r =>
      match strip_trailing_sep r with
      | EmptyString => if Ascii.eqb c "/" then EmptyString else String c EmptyString
      | r' => String c r'
      end
  end.

(** [filepath.Base(path)]: the last element of [path]. *)
Definition filepath_Base (path : string) : string :=
  if String.eqb path "" then "."
  else
    let p := strip_trailing_sep path in
    let b := snd (split_last_sep p) in
    if String.eqb b "" then "/" else b.

(** [filepath.Ext(path)]: the suffix beginning at the final dot of the last
    element of [path]; empty if there is no dot. *)
Fixpoint filepath_Ext (path : string) : string :=
  match path with
  | EmptyString => EmptyString
  | String c r =>
      if strings_Contains r "/" then filepath_Ext r
      else if Ascii.eqb c "/" then filepath_Ext r
      else match filepath_Ext r with
           | EmptyString => if Ascii.eqb c "." then path else EmptyString
           | e => e
           end
  end.

(** *** Packages [strconv] and [fmt] *)

(** A Go [int] holds 64 bits; [+] wraps around. *)
Definition int_wrap (z : Z) : Z := (z + 2 ^ 63) mod 2 ^ 64 - 2 ^ 63.
Definition int_add (a b : Z) : Z := int_wrap (a + b).

(** The decimal digits of a natural number. *)
Definition decimal (u : Z) : string := NilEmpty.string_of_uint (N.to_uint (Z.to_N u)).

(** [strconv.Itoa(n)]. *)
Definition strconv_Itoa (n : Z) : string :=
  if n <? 0 then "-" +:+ decimal (- n) else decimal n.

Definition is_digit (c : ascii) : bool :=
  (48 <=? nat_of_ascii c)%nat && (nat_of_ascii c <=? 57)%nat.
Definition digit_value (c : ascii) : Z := Z.of_nat (nat_of_ascii c) - 48.

(** [n] copies of [c]. *)
Fixpoint string_repeat (c : ascii) (n : nat) : string :=
  match n with
  | O => EmptyString
  | S k => String c (string_repeat c k)
  end.

(** [s] with copies of [c] in front of it up to length [width]. *)
Definition pad_left (c : ascii) (width : Z) (s : string) : string :=
  string_repeat c (Z.to_nat (width - Z.of_nat (String.length s))) +:+ s.

(** The flags of a verb: [fmt] reads every leading ["0"] as the zero flag. *)
Fixpoint fmt_zero_flag (s : string) : bool * string :=
  match s with
  | String c r => if Ascii.eqb c "0" then (true, snd (fmt_zero_flag r)) else (false, s)
  | EmptyString => (false, s)
  end.

(** [fmt]'s [parsenum]: the width, whether one was read, and the rest of the
    format; [None] when the number read so far exceeds 1e6 before a further
    digit (then [fmt] gives up on the verb). *)
Fixpoint fmt_parsenum (num : Z) (isnum : bool) (s : string) : option (Z * bool * string) :=
  match s with
  | String c r =>
      if is_digit c then
        if 1000000 <? num then None
        else fmt_parsenum (num * 10 + digit_value c) true r
      else Some (num, isnum, s)
  | EmptyString => Some (num, isnum, s)
  end.

(** [fmt]'s integer formatting for the verb [d]: with the zero flag and a
    width, the digits are padded with zeros up to the width, one less when a
    sign is written; any width left is filled with spaces on the left. *)
Definition fmt_integer (zero widPresent : bool) (wid : Z) (n : Z) : string :=
  let negative := n <? 0 in
  let prec := if zero && widPresent then (if negative then wid - 1 else wid) else 0 in
  let digits := pad_left "0" prec (decimal (Z.abs n)) in
  let signed := if negative then "-" +:+ digits else digits in
  if widPresent then pad_left " " wid signed else signed.

(** [fmt.Sprintf(format, n)] for one [int] and a format of the shape of a
    counter token: a percent sign, digits, [d].  (The program passes no other
    format; for one the model gives the format back.) *)
Definition fmt_Sprintf (format : string) (n : Z) : string :=
  match format with
  | String "%" r =>
      let '(zero, r1) := fmt_zero_flag r in
      match fmt_parsenum 0 false r1 with
      | None => "%!(NOVERB)%!(EXTRA int=" +:+ strconv_Itoa n +:+ ")"
      | Some (wid, widPresent, "d") => fmt_integer zero widPresent wid n
      | Some _ => format
      end
  | _ => format
  end.

(** *** Packages [unicode/utf8] and [regexp] *)

Definition byte_in (lo hi : nat) (s : string) (i : nat) : bool :=
  match String.get i s with
  | Some c => (lo <=? nat_of_ascii c)%nat && (nat_of_ascii c <=? hi)%nat
  | None => false
  end.

(** The width of the first character of a non-empty [s] as
    [utf8.DecodeRuneInString] reads it; a byte that starts no valid encoding
    is a character of width 1. *)
Definition utf8_width (s : string) : nat :=
  let cont := byte_in 128 191 s in
  (if byte_in 0 127 s 0 then 1
   else if byte_in 194 223 s 0 then (if cont 1 then 2 else 1)
   else if byte_in 224 224 s 0 then (if byte_in 160 191 s 1 && cont 2 then 3 else 1)
   else if byte_in 237 237 s 0 then (if byte_in 128 159 s 1 && cont 2 then 3 else 1)
   else if byte_in 225 239 s 0 then (if cont 1 && cont 2 then 3 else 1)
   else if byte_in 240 240 s 0 then (if byte_in 144 191 s 1 && cont 2 && cont 3 then 4 else 1)
   else if byte_in 241 243 s 0 then (if cont 1 && cont 2 && cont 3 then 4 else 1)
   else if byte_in 244 244 s 0 then (if byte_in 128 143 s 1 && cont 2 && cont 3 then 4 else 1)
   else 1)%nat.

(** [new] before every UTF-8 sequence of [s] and at its end; [skip] counts
    the bytes of the current sequence still to be passed over. *)
Fixpoint insert_around (new : string) (skip : nat) (s : string) : string :=
  match s with
  | EmptyString => new
  | String c r =>
      match skip with
      | S k => String c (insert_around new k r)
      | O => new +:+ String c (insert_around new (utf8_width s - 1) r)
      end
  end.

(** [strings.ReplaceAll(s, old, new)]: every occurrence of [old], from left
    to right and without overlap, gives way to [new]; an empty [old] matches
    at the beginning of the text and after each UTF-8 sequence. *)
Definition strings_ReplaceAll (s old new : string) : string :=
  if String.eqb old "" then insert_around new 0 s
  else replace_scan (literal_matcher old) (λ _, new) 0 s.

(** [re.Find(s)]: the leftmost match. *)
Fixpoint regexp_Find (m : matcher) (s : string) : option string :=
  match m s with
  | Some k => Some (substring 0 k s)
  | None =>
      match s with
      | EmptyString => None
      | String _ r => regexp_Find m r
      end
  end.

(** [re.Match(s)] and [re.MatchString(s)]. *)
Definition regexp_Match (m : matcher) (s : string) : bool :=
  bool_decide (is_Some (regexp_Find m s)).

(** The pattern [indexRegex], ["%([0-9]?)+d"]: a percent sign, any number of
    digits, [d]. *)
Fixpoint digits_then_d (s : string) : option nat :=
  match s with
  | String c r =>
      if Ascii.eqb c "d" then Some 1%nat
      else if is_digit c then S <$> digits_then_d r
      else None
  | EmptyString => None
  end.

Definition indexRegex : matcher :=
  λ s, match s with
       | String "%" r => S <$> digits_then_d r
       | _ => None
       end.

(** A pattern compiled from a template token such as ["{{exif.iso}}"]: in it
    only the dot is special, and stands for any character but a newline. *)
Fixpoint token_pattern (pat : string) (s : string) : option nat :=
  match pat with
  | EmptyString => Some O
  | String p pat' =>
      if Ascii.eqb p "." then
        match s with
        | EmptyString => None
        | String c _ =>
            if Ascii.eqb c "010" then None
            else
              let w := utf8_width s in
              Nat.add w <$> token_pattern pat' (string_drop w s)
        end
      else
        match s with
        | String c r => if Ascii.eqb c p then S <$> token_pattern pat' r else None
        | EmptyString => None
        end
  end.

(** *** Package [sort] *)

(** The inner loop of [insertionSort]: the element [x] at index [j] is swapped
    with its left neighbour while [less(j, j-1)] holds.  [before] lists the
    elements at the indices below [j], the nearest one first; so does the
    result, for the indices up to [j]. *)
Fixpoint insert_left {A} (less : A → A → bool) (x : A) (before : list A) : list A :=
  match before with
  | [] => [x]
  | y :: r => if less x y then y :: insert_left less x r else x :: before
  end.

(** [insertionSort(data, 0, len(data))]. *)
Definition insertionSort {A} (less : A → A → bool) (data : list A) : list A :=
  reverse (foldl (λ before x, insert_left less x before) [] data).

(** [sort.SliceStable(data, less)] sorts blocks of 20 elements with
    [insertionSort] and then merges the blocks.  A slice of at most 20 elements
    is one block: one [insertionSort] over the whole slice, whatever [less]
    is.  The merge of several blocks is not modelled: for a longer slice the
    result is [None]. *)
Definition sort_SliceStable {A} (less : A → A → bool) (data : list A) : option (list A) :=
  if (length data <=? 20)%nat then Some (insertionSort less data) else None.

(** When [less] is a strict weak ordering the outcome of [sort.SliceStable]
    does not depend on the algorithm: it is the stable sorting of the slice,
    which [insertionSort] computes at every length. *)
Definition sort_SliceStable_ordered {A} (less : A → A → bool) (data : list A) : list A :=
  insertionSort less data.

(** ** The data of the program *)

(** [type conflict int], with its three constants. *)
Inductive conflict := emptyFilename | fileExists | overwritingNewPath.

Definition conflict_to_nat (c : conflict) : nat :=
  match c with emptyFilename => 0 | fileExists => 1 | overwritingNewPath => 2 end%nat.

Definition conflict_of_nat (n : nat) : option conflict :=
  match n with
  | 0 => Some emptyFilename
  | 1 => Some fileExists
  | 2 => Some overwritingNewPath
  | _ => None
  end%nat.

#[global] Instance conflict_eq_dec : EqDecision conflict.
Proof. solve_decision. Defined.

#[global] Instance conflict_countable : Countable conflict.
Proof.
  apply (inj_countable conflict_to_nat conflict_of_nat); by intros [].
Defined.

(** [type Conflict struct]. *)
Record Conflict := mkConflict { source : list string; target : string }.

(** [type Change struct]. *)
Record Change := mkChange {
  BaseDir : string;
  Source : string;
  Target : string;
  IsDir : bool;
}.

#[global] Instance Change_eq_dec : EqDecision Change.
Proof. solve_decision. Defined.

#[global] Instance Conflict_eq_dec : EqDecision Conflict.
Proof. solve_decision. Defined.

Definition set_Target (t : string) (ch : Change) : Change :=
  {| BaseDir := BaseDir ch; Source := Source ch; Target := t; IsDir := IsDir ch |}.

(** A compiled [*regexp.Regexp] of the user's search pattern, by the two
    methods the program calls on it. *)
Record Regexp := {
  MatchString : string → bool;
  ReplaceAllString : string → string → string;
}.

(** The element type of the map [m] of [DetectConflicts]: a source path and
    the index of its match. *)
Abbreviation indexed_source := (string * nat)%type (only parsing).

(** An [error] is its message; [None] is [nil]. *)
Definition error : Type := string.

(** [type Operation struct]. *)
Record Operation := {
  paths : list Change;
  matches : list Change;
  conflicts : gmap conflict (list Conflict);
  findString : string;
  replaceString : string;
  startNumber : Z;
  exec : bool;
  fixConflicts : bool;
  includeHidden : bool;
  includeDir : bool;
  onlyDir : bool;
  ignoreCase : bool;
  ignoreExt : bool;
  searchRegex : Regexp;
  directories : list string;
  recursive : bool;
  undoFile : string;
  outputFile : string;
  workingDir : string;
  stringMode : bool;
}.

Definition set_matches (ms : list Change) (op : Operation) : Operation :=
  {| paths := paths op; matches := ms; conflicts := conflicts op;
     findString := findString op; replaceString := replaceString op;
     startNumber := startNumber op; exec := exec op;
     fixConflicts := fixConflicts op; includeHidden := includeHidden op;
     includeDir := includeDir op; onlyDir := onlyDir op;
     ignoreCase := ignoreCase op; ignoreExt := ignoreExt op;
     searchRegex := searchRegex op; directories := directories op;
     recursive := recursive op; undoFile := undoFile op;
     outputFile := outputFile op; workingDir := workingDir op;
     stringMode := stringMode op |}.

Definition set_conflicts (cs : gmap conflict (list Conflict)) (op : Operation) : Operation :=
  {| paths := paths op; matches := matches op; conflicts := cs;
     findString := findString op; replaceString := replaceString op;
     startNumber := startNumber op; exec := exec op;
     fixConflicts := fixConflicts op; includeHidden := includeHidden op;
     includeDir := includeDir op; onlyDir := onlyDir op;
     ignoreCase := ignoreCase op; ignoreExt := ignoreExt op;
     searchRegex := searchRegex op; directories := directories op;
     recursive := recursive op; undoFile := undoFile op;
     outputFile := outputFile op; workingDir := workingDir op;
     stringMode := stringMode op |}.

(** [type mapFile struct]: the undo record. *)
Record mapFile := { Date : string; Operations : list Change }.

(** [type Exif struct]. *)
Record Exif := {
  ISOSpeedRatings : list Z;
  Make : string;
  Model : string;
  ExposureTime : list string;
  FocalLength : list string;
  FNumber : list string;
  ImageWidth : list Z;
  ImageLength : list Z;
  LensModel : string;
}.

(** [&Exif{}]: every field at its zero value. *)
Definition Exif_zero : Exif :=
  {| ISOSpeedRatings := []; Make := ""; Model := ""; ExposureTime := [];
     FocalLength := []; FNumber := []; ImageWidth := []; ImageLength := [];
     LensModel := "" |}.

(** ** What the program takes from outside this file *)

(** The three answers of [os.Stat(path)] the program tells apart: no error,
    an error that is [os.ErrNotExist], any other error. *)
Inductive stat_result := stat_ok | stat_not_exist | stat_other_error.

#[global] Instance stat_result_eq_dec : EqDecision stat_result.
Proof. solve_decision. Defined.

(** A file opened by [os.Open] for [exif.Decode]: the metadata decoded into
    an [Exif] value ([Exif_zero] where decoding fails, fields that are absent
    at their zero value) and the error of [Close]. *)
Record opened_file := { decoded : Exif; close_error : option error }.

(** What [times.Stat] gives for a file. *)
Record Timespec (Time : Type) := {
  ModTime : Time;
  AccessTime : Time;
  HasBirthTime : bool;
  BirthTime : Time;
  HasChangeTime : bool;
  ChangeTime : Time;
}.
Arguments ModTime {Time}.
Arguments AccessTime {Time}.
Arguments HasBirthTime {Time}.
Arguments BirthTime {Time}.
Arguments HasChangeTime {Time}.
Arguments ChangeTime {Time}.

(** The platform a run executes on, over the states [W] of the world (the
    file system and the clock): the operating system and library calls whose
    result depends on the world, the helpers of the repository that are not in
    this file, and the order in which [range] visits a map. *)
Class Platform (W : Type) := {
  (** [gopkg.in/gookit/color.v1]: the renderers [red], [green], [yellow]. *)
  red : string → string;
  green : string → string;
  yellow : string → string;
  (** [os.Stat], [os.MkdirAll], [os.Rename]. *)
  os_Stat : W → string → stat_result;
  os_MkdirAll : string → W → W * option error;
  os_Rename : string → string → W → W * option error;
  (** [os.Create], the write of the JSON encoding of the record, [Flush] and
      [Close], as [WriteToFile] chains them: the world after them and the
      error [WriteToFile] returns. *)
  os_write_map_file : string → mapFile → W → W * option error;
  (** [os.ReadFile] followed by [json.Unmarshal] into a [mapFile]. *)
  os_read_map_file : W → string → error + mapFile;
  (** [time.Now().Format(time.RFC3339)]. *)
  time_Now_RFC3339 : W → string;
  (** [os.Open(file)] followed by [exif.Decode] and [json.Unmarshal]. *)
  os_Open_exif : W → string → error + opened_file;
  (** Package [time] and [times.Stat]. *)
  Time : Type;
  time_Now : W → Time;
  time_Format : Time → string → string;
  times_Stat : W → string → error + Timespec Time;
  (** [unicode.IsLetter(r) || unicode.IsDigit(r)] for a character outside
      ASCII, given by its UTF-8 encoding. *)
  unicode_letter_or_digit : string → bool;
  (** [strings.ToLower]. *)
  strings_ToLower : string → string;
  (** The helpers [getNewPath], [filenameWithoutExtension] and [exifDivision]
      of the repository, which this file calls and does not define.
      [getNewPath] reads the file system; its third argument is the map [m]
      of [DetectConflicts], [None] for [nil]. *)
  getNewPath : W → string → string → option (gmap string (list indexed_source)) → string;
  filenameWithoutExtension : string → string;
  exifDivision : list string → string;
  (** The order in which [for k, v := range m] visits the keys of [m]: Go
      leaves it unspecified; every key is visited once. *)
  range_order : gmap string (list indexed_source) → list string;
  range_order_keys : ∀ m, range_order m ≡ₚ (map_to_list m).*1;
}.

(** ** Conflict detection *)

Section Detect.
Context {W : Type} `{!Platform W}.

(** [op.conflicts[k] = append(op.conflicts[k], c)]. *)
Definition add_conflict (k : conflict) (c : Conflict)
    (cs : gmap conflict (list Conflict)) : gmap conflict (list Conflict) :=
  <[k := default [] (cs !! k) ++ [c]]> cs.

(** The state the two loops of [DetectConflicts] work on: [op.matches],
    [op.conflicts] and the local map [m]. *)
Record detect_state := {
  d_matches : list Change;
  d_conflicts : gmap conflict (list Conflict);
  d_m : gmap string (list indexed_source);
}.

(** [err == nil || !errors.Is(err, os.ErrNotExist)] for [os.Stat(target)]. *)
Definition target_exists (w : W) (target : string) : bool :=
  match os_Stat w target with
  | stat_ok => true
  | stat_not_exist => false
  | stat_other_error => true
  end.

(** The body of the first loop, for the match [ch] at index [i]. *)
Definition detect_match (w : W) (fix_ : bool) (st : detect_state)
    (i : nat) (ch : Change) : detect_state :=
  let source := filepath_Join (BaseDir ch) (Source ch) in
  let target := filepath_Join (BaseDir ch) (Target ch) in
  if String.eqb (Target ch) "." then
    (* an empty string for the new filename; the file is left unchanged *)
    {| d_matches :=
         if fix_ then alter (set_Target (Source ch)) i (d_matches st)
         else d_matches st;
       d_conflicts :=
         add_conflict emptyFilename (mkConflict [source] target) (d_conflicts st);
       d_m := d_m st |}
  else
    (* report if target file exists on the filesystem *)
    let '(st1, target1) :=
      if target_exists w target then
        let cs := add_conflict fileExists (mkConflict [source] target) (d_conflicts st) in
        if fix_ then
          let str := getNewPath w target (BaseDir ch) None in
          let fullPath := filepath_Join (BaseDir ch) str in
          ({| d_matches := alter (set_Target str) i (d_matches st);
              d_conflicts := cs; d_m := d_m st |}, fullPath)
        else
          ({| d_matches := d_matches st; d_conflicts := cs; d_m := d_m st |}, target)
      else (st, target) in
    (* for detecting duplicates after renaming paths *)
    {| d_matches := d_matches st1;
       d_conflicts := d_conflicts st1;
       d_m := <[target1 := default [] (d_m st1 !! target1) ++ [(source, i)]]> (d_m st1) |}.

(** [for i, ch := range op.matches]: the matches from index [i] on, as they
    were when the loop began. *)
Fixpoint detect_matches (w : W) (fix_ : bool) (i : nat) (rest : list Change)
    (st : detect_state) : detect_state :=
  match rest with
  | [] => st
  | ch :: rest' => detect_matches w fix_ (S i) rest' (detect_match w fix_ st i ch)
  end.

(** The fix of one later entry [item] of a group of duplicates of target [k]. *)
Definition fix_duplicate (w : W) (k : string) (st : detect_state)
    (item : indexed_source) : detect_state :=
  let baseDir := default "" (BaseDir <$> d_matches st !! item.2) in
  let str := getNewPath w k baseDir (Some (d_m st)) in
  let pt := filepath_Join baseDir str in
  {| d_matches := alter (set_Target str) item.2 (d_matches st);
     d_conflicts := d_conflicts st;
     d_m := match d_m st !! pt with
            | Some _ => d_m st
            | None => <[pt := []]> (d_m st)
            end |}.

(** The body of the second loop, for the key [k]. *)
Definition detect_duplicates (w : W) (fix_ : bool) (st : detect_state)
    (k : string) : detect_state :=
  let v := default [] (d_m st !! k) in
  if (1 <? length v)%nat then
    let st1 :=
      {| d_matches := d_matches st;
         d_conflicts :=
           add_conflict overwritingNewPath (mkConflict v.*1 k) (d_conflicts st);
         d_m := d_m st |} in
    if fix_ then foldl (fix_duplicate w k) st1 (tail v) else st1
  else st.

(** [DetectConflicts]: the matches and the conflicts it leaves in [op].  The
    keys the second loop adds to [m] hold empty slices, for which its body does
    nothing, so the loop is run over the keys present when it begins. *)
Definition DetectConflicts (op : Operation) (w : W) : Operation :=
  let st0 := {| d_matches := matches op; d_conflicts := ∅; d_m := ∅ |} in
  let st1 := detect_matches w (fixConflicts op) 0 (matches op) st0 in
  let st2 := foldl (detect_duplicates w (fixConflicts op)) st1 (range_order (d_m st1)) in
  set_conflicts (d_conflicts st2) (set_matches (d_matches st2) op).

(** ** Reporting *)

(** The rows [ReportConflicts] passes to [printTable]. *)
Definition ReportConflicts (op : Operation) : list (list string) :=
  let empty_rows :=
    match conflicts op !! emptyFilename with
    | Some slice =>
        (λ v, [strings_Join (source v) ""; ""; red "❌ [Empty filename]"]) <$> slice
    | None => []
    end in
  let exists_rows :=
    match conflicts op !! fileExists with
    | Some slice =>
        (λ v, [strings_Join (source v) ""; target v; red "❌ [Path already exists]"]) <$> slice
    | None => []
    end in
  let overwriting_rows :=
    match conflicts op !! overwritingNewPath with
    | Some slice =>
        slice ≫= (λ v,
          (λ s, [s; target v; red "❌ [Overwriting newly renamed path]"]) <$> source v)
    | None => []
    end in
  empty_rows ++ exists_rows ++ overwriting_rows.

(** The rows [PrintChanges] passes to [printTable]. *)
Definition PrintChanges (op : Operation) : list (list string) :=
  (λ v, [filepath_Join (BaseDir v) (Source v);
         filepath_Join (BaseDir v) (Target v);
         green "ok"]) <$> matches op.

(** ** Apply and Undo *)

(** What a run does that can be observed, in program order: lines and tables
    printed ([printTable] is called by [ReportConflicts] and by
    [PrintChanges]), and the calls that change the file system. *)
Inductive event :=
  | Println (line : string)
  | Fprintln_Stderr (line : string)
  | printTable_conflicts (data : list (list string))
  | printTable_changes (data : list (list string))
  | MkdirAll (dir : string)
  | Rename (oldpath newpath : string)
  | Create (path : string) (mf : mapFile).

(** Whether an event is a call that changes the file system. *)
Definition mutates (e : event) : bool :=
  match e with
  | MkdirAll _ | Rename _ _ | Create _ _ => true
  | _ => false
  end.

(** Whether an event is [ReportConflicts] printing its table. *)
Definition reports_conflicts (e : event) : bool :=
  match e with
  | printTable_conflicts _ => true
  | _ => false
  end.

(** The result of a method of [Operation]: the operation and the world as it
    leaves them, what happened, and the error returned. *)
Record outcome := {
  out_op : Operation;
  out_world : W;
  out_events : list event;
  out_err : option error;
}.

(** [WriteToFile]. *)
Definition WriteToFile (op : Operation) (w : W) : outcome :=
  let mf := {| Date := time_Now_RFC3339 w; Operations := matches op |} in
  let '(w', err) := os_write_map_file (outputFile op) mf w in
  {| out_op := op; out_world := w';
     out_events := [Create (outputFile op) mf]; out_err := err |}.

(** The loop of [Apply] over the matches still to process: the world it
    leaves, the calls made, and the error on which it stopped. *)
Fixpoint apply_matches (exec_ : bool) (rest : list Change) (w : W)
    : W * list event * option error :=
  match rest with
  | [] => (w, [], None)
  | ch :: rest' =>
      let source := filepath_Join (BaseDir ch) (Source ch) in
      let target := filepath_Join (BaseDir ch) (Target ch) in
      if exec_ then
        let execErr :=
          "An error occurred while renaming '" +:+ source +:+ "' to '" +:+ target +:+ "'" in
        (* if target contains a slash, create all missing directories *)
        let '(w1, ev1, err1) :=
          if strings_Contains (Target ch) "/" then
            let dir := filepath_Dir (Target ch) in
            let '(w1, err) := os_MkdirAll dir w in
            (w1, [MkdirAll dir], err)
          else (w, [], None) in
        match err1 with
        | Some _ => (w1, ev1, Some execErr)
        | None =>
            let '(w2, err2) := os_Rename source target w1 in
            match err2 with
            | Some _ => (w2, ev1 ++ [Rename source target], Some execErr)
            | None =>
                let '(w3, ev3, err3) := apply_matches exec_ rest' w2 in
                (w3, ev1 ++ Rename source target :: ev3, err3)
            end
        end
      else apply_matches exec_ rest' w
  end.

(** [Apply]. *)
Definition Apply (op : Operation) (w : W) : outcome :=
  if (length (matches op) =? 0)%nat then
    {| out_op := op; out_world := w;
       out_events := [Println "Failed to match any files"]; out_err := None |}
  else
    let op1 := DetectConflicts op w in
    if (0 <? size (conflicts op1))%nat && negb (fixConflicts op1) then
      {| out_op := op1; out_world := w;
         out_events :=
           [printTable_conflicts (ReportConflicts op1);
            Fprintln_Stderr "Conflict detected! Please resolve before proceeding"];
         out_err :=
           Some ("Or append the " +:+ yellow "-F" +:+ " flag to fix conflicts automatically") |}
    else
      let '(w1, ev, err) := apply_matches (exec op1) (matches op1) w in
      match err with
      | Some e => {| out_op := op1; out_world := w1; out_events := ev; out_err := Some e |}
      | None =>
          if exec op1 && (0 <? length (matches op1))%nat
             && negb (String.eqb (outputFile op1) "") then
            let r := WriteToFile op1 w1 in
            {| out_op := out_op r; out_world := out_world r;
               out_events := ev ++ out_events r; out_err := out_err r |}
          else if negb (exec op1) && (0 <? length (matches op1))%nat then
            {| out_op := op1; out_world := w1;
               out_events :=
                 ev ++ [printTable_changes (PrintChanges op1);
                        Println ("Append the " +:+ yellow "-x" +:+ " flag to apply the above changes")];
               out_err := None |}
          else {| out_op := op1; out_world := w1; out_events := ev; out_err := None |}
      end.

(** [ch.Source = v.Target; ch.Target = v.Source]. *)
Definition swap_change (v : Change) : Change :=
  {| BaseDir := BaseDir v; Source := Target v; Target := Source v; IsDir := IsDir v |}.

(** The comparison of [Undo]: [op.matches[i].BaseDir < op.matches[j].BaseDir]. *)
Definition undo_less (a b : Change) : bool := String.ltb (BaseDir a) (BaseDir b).

(** [Undo].  Its comparison is a strict ordering of the base directories. *)
Definition Undo (op : Operation) (w : W) : outcome :=
  if String.eqb (undoFile op) "" then
    {| out_op := op; out_world := w; out_events := [];
       out_err := Some "Please pass a previously created map file to continue" |}
  else
    match os_read_map_file w (undoFile op) with
    | inl err => {| out_op := op; out_world := w; out_events := []; out_err := Some err |}
    | inr mf =>
        let swapped := swap_change <$> Operations mf in
        (* sort parent directories before child directories *)
        let sorted := sort_SliceStable_ordered undo_less swapped in
        Apply (set_matches sorted op) w
    end.

(** ** Ordering *)

(** The comparison of [SortMatches]. *)
Definition sort_less (a b : Change) : bool :=
  if negb (IsDir a) then true
  else String.ltb (BaseDir b) (BaseDir a).

(** [SortMatches]: [None] where [sort.SliceStable] is not modelled. *)
Definition SortMatches (op : Operation) : option Operation :=
  (λ ms, set_matches ms op) <$> sort_SliceStable sort_less (matches op).

End Detect.

(** ** Template expansion and numbering *)

Section Templates.
Context {W : Type} `{!Platform W}.

(** Whether the character of width [w] that [s] begins with may stand in a
    name after a dollar sign: a letter, a digit or an underscore. *)
Definition name_character (w : nat) (s : string) : bool :=
  match s with
  | EmptyString => false
  | String c _ =>
      let n := nat_of_ascii c in
      if (n <? 128)%nat then
        is_digit c || Ascii.eqb c "_"
        || ((65 <=? n)%nat && (n <=? 90)%nat) || ((97 <=? n)%nat && (n <=? 122)%nat)
      else if (1 <? w)%nat then unicode_letter_or_digit (substring 0 w s)
      else false
  end.

(** The length of the longest run of name characters [s] begins with. *)
Fixpoint name_length (fuel : nat) (s : string) : nat :=
  match fuel with
  | O => O
  | S fuel' =>
      let w := utf8_width s in
      if name_character w s then (w + name_length fuel' (string_drop w s))%nat else O
  end.

(** [regexp]'s [extract], on the text after a dollar sign: the name read,
    plain or in braces, and the number of bytes it takes. *)
Definition regexp_extract (s : string) : option (string * nat) :=
  match s with
  | EmptyString => None
  | String c r =>
      let brace := Ascii.eqb c "{" in
      let body := if brace then r else s in
      let i := name_length (String.length body) body in
      if (i =? 0)%nat then None
      else if brace then
        match String.get i body with
        | Some c' => if Ascii.eqb c' "}" then Some (substring 0 i body, (i + 2)%nat) else None
        | None => None
        end
      else Some (substring 0 i body, i)
  end.

(** [Expand] for a pattern with no capture group: [$$] is a dollar sign,
    [$0] and [${0}] the text matched, any other name the empty text, and a
    dollar sign followed by no name stands for itself. *)
Fixpoint regexp_expand (matched : string) (skip : nat) (template : string) : string :=
  match template with
  | EmptyString => EmptyString
  | String c r =>
      match skip with
      | S k => regexp_expand matched k r
      | O =>
          if Ascii.eqb c "$" then
            match r with
            | String "$" _ => String "$" (regexp_expand matched 1 r)
            | _ =>
                match regexp_extract r with
                | Some (name, n) =>
                    (if String.eqb name "0" then matched else "")
                    +:+ regexp_expand matched n r
                | None => String "$" (regexp_expand matched 0 r)
                end
            end
          else String c (regexp_expand matched 0 r)
      end
  end.

(** [re.ReplaceAllString(src, repl)] for a pattern with no capture group. *)
Definition regexp_ReplaceAllString (m : matcher) (src repl : string) : string :=
  replace_scan m (λ matched, regexp_expand matched 0 repl) 0 src.

(** The patterns [filenameRegex], [extensionRegex] and [parentDirRegex]. *)
Definition filenameRegex : matcher := literal_matcher "{{f}}".
Definition extensionRegex : matcher := literal_matcher "{{ext}}".
Definition parentDirRegex : matcher := literal_matcher "{{p}}".

(** The first of the alternatives [alts] that, followed by [close], begins [s]. *)
Fixpoint alternative (alts : list string) (close : string) (s : string) : option string :=
  match alts with
  | [] => None
  | a :: alts' => if String.prefix (a +:+ close) s then Some a else alternative alts' close s
  end.

(** The pattern [exifRegex], with the field it captures. *)
Definition exifRegex (s : string) : option (nat * string) :=
  if String.prefix "{{exif." s then
    (λ field, (String.length "{{exif." + String.length field + 2, field)%nat)
    <$> alternative ["iso"; "et"; "fl"; "w"; "h"; "wh"; "make"; "model"; "lens"; "fnum"]
          "}}" (string_drop 7 s)
  else None.

(** The table [dateTokens]. *)
Definition dateTokens : list (string * string) :=
  [("YYYY", "2006"); ("YY", "06"); ("MMMM", "January"); ("MMM", "Jan");
   ("MM", "01"); ("M", "1"); ("DDDD", "Monday"); ("DDD", "Mon"); ("DD", "02");
   ("D", "2"); ("H", "15"); ("hh", "03"); ("h", "3"); ("mm", "04"); ("m", "4");
   ("ss", "05"); ("s", "5"); ("A", "PM"); ("a", "pm")].

(** [dateTokens[token]]. *)
Definition dateTokens_lookup (token : string) : string :=
  default "" (snd <$> find (λ kv, String.eqb kv.1 token) dateTokens).

(** The pattern [dateRegex] built by [init], with the clock and the token it
    captures.  The order in which [init] lists the tokens is the order of a
    [range] over a map; as the closing braces follow, at most one alternative
    matches and the order does not matter. *)
Definition dateRegex (s : string) : option (nat * (string * string)) :=
  if String.prefix "{{" s then
    let s1 := string_drop 2 s in
    match alternative ["mtime"; "ctime"; "btime"; "atime"; "now"] "." s1 with
    | Some clock =>
        let s2 := string_drop (String.length clock + 1) s1 in
        (λ token, ((String.length clock + String.length token + 5)%nat, (clock, token)))
        <$> alternative dateTokens.*1 "}}" s2
    | None => None
    end
  else None.

(** The test of a pattern that captures, without what it captures. *)
Definition plain {X} (m : string → option (nat * X)) : matcher := λ s, fst <$> m s.

(** [replaceDateVariables].  ([regexp.Compile] of a token does not fail.) *)
Definition replaceDateVariables (w : W) (file input : string) : string * option error :=
  match times_Stat w file with
  | inl err => ("", Some err)
  | inr t =>
      let submatches := find_scan dateRegex 0 input in
      (foldl (λ input submatch,
         let regex := token_pattern submatch.1 in
         let layout := dateTokens_lookup submatch.2.2 in
         let clock := submatch.2.1 in
         let timeStr :=
           if String.eqb clock "mtime" then time_Format (ModTime t) layout
           else if String.eqb clock "btime" then
             time_Format (if HasBirthTime t then BirthTime t else ModTime t) layout
           else if String.eqb clock "atime" then time_Format (AccessTime t) layout
           else if String.eqb clock "ctime" then
             time_Format (if HasChangeTime t then ChangeTime t else ModTime t) layout
           else if String.eqb clock "now" then time_Format (time_Now w) layout
           else "" in
         regexp_ReplaceAllString regex input timeStr) input submatches, None)
  end.

(** The first element of a slice, when it has one. *)
Definition first_Itoa (l : list Z) : string :=
  match l with
  | x :: _ => strconv_Itoa x
  | [] => ""
  end.

(** The body of the [switch] of [replaceExifVariables]: the text put in place
    of the token of [field]. *)
Definition exif_replacement (exifData : Exif) (field : string) : option string :=
  if String.eqb field "model" then
    Some (strings_ReplaceAll (Model exifData) "/" "_")
  else if String.eqb field "lens" then
    Some (strings_ReplaceAll (LensModel exifData) "/" "_")
  else if String.eqb field "make" then Some (Make exifData)
  else if String.eqb field "iso" then
    Some ("ISO" +:+ first_Itoa (ISOSpeedRatings exifData))
  else if String.eqb field "et" then
    Some (match ExposureTime exifData with
          | et :: _ => strings_ReplaceAll et "/" "_"
          | [] => ""
          end +:+ "s")
  else if String.eqb field "fnum" then Some ("f" +:+ exifDivision (FNumber exifData))
  else if String.eqb field "fl" then Some (exifDivision (FocalLength exifData) +:+ "mm")
  else if String.eqb field "wh" then
    Some (match ImageLength exifData, ImageWidth exifData with
          | h :: _, w :: _ => strconv_Itoa w +:+ "x" +:+ strconv_Itoa h
          | _, _ => ""
          end)
  else if String.eqb field "h" then Some (first_Itoa (ImageLength exifData))
  else if String.eqb field "w" then Some (first_Itoa (ImageWidth exifData))
  else None.

(** [replaceExifVariables].  Errors in decoding the metadata are ignored: the
    data is then [Exif_zero].  ([regexp.Compile] of a token does not fail.)
    The deferred [Close] sets the error returned. *)
Definition replaceExifVariables (w : W) (file input : string) : string * option error :=
  match os_Open_exif w file with
  | inl err => ("", Some err)
  | inr f =>
      let exifData := decoded f in
      let submatches := find_scan exifRegex 0 input in
      (foldl (λ input submatch,
         let regex := token_pattern submatch.1 in
         match exif_replacement exifData submatch.2 with
         | Some repl => regexp_ReplaceAllString regex input repl
         | None => input
         end) input submatches, close_error f)
  end.

(** [handleVariables]. *)
Definition handleVariables (op : Operation) (w : W) (str : string) (ch : Change)
    : string * option error :=
  let fileName := filepath_Base (Source ch) in
  let fileExt := filepath_Ext fileName in
  let parentDir :=
    if String.eqb (filepath_Base (BaseDir ch)) "."
    then filepath_Base (workingDir op)
    else filepath_Base (BaseDir ch) in
  let str :=
    if regexp_Match filenameRegex str
    then regexp_ReplaceAllString filenameRegex str (filenameWithoutExtension fileName)
    else str in
  let str :=
    if regexp_Match extensionRegex str
    then regexp_ReplaceAllString extensionRegex str fileExt
    else str in
  let str :=
    if regexp_Match parentDirRegex str
    then regexp_ReplaceAllString parentDirRegex str parentDir
    else str in
  let '(str, err) :=
    if regexp_Match (plain dateRegex) str
    then replaceDateVariables w (filepath_Join (BaseDir ch) (Source ch)) str
    else (str, None) in
  match err with
  | Some e => ("", Some e)
  | None =>
      if regexp_Match (plain exifRegex) str then
        let '(out, err) :=
          replaceExifVariables w (filepath_Join (BaseDir ch) (Source ch)) str in
        match err with
        | Some e => ("", Some e)
        | None => (out, None)
        end
      else (str, None)
  end.

(** [indexRegex.ReplaceAllString(str, r)] for a text [r] that holds no dollar
    sign, which is then put in place of every match as it is. *)
Definition indexRegex_ReplaceAllString (str r : string) : string :=
  replace_scan indexRegex (λ _, r) 0 str.

(** The numbering scheme of [Replace], for the match at index [i].  The text
    [r] is the output of [fmt.Sprintf] for an [int] and holds no dollar
    sign. *)
Definition number (startNumber_ : Z) (i : nat) (str : string) : string :=
  if regexp_Match indexRegex str then
    let b := default "" (regexp_Find indexRegex str) in
    let r := fmt_Sprintf b (int_add startNumber_ (Z.of_nat i)) in
    indexRegex_ReplaceAllString str r
  else str.

(** The first steps of the body of the loop of [Replace], for the match [v]:
    the search pattern replaced in the file name, and the variables of the
    result handled. *)
Definition Replace_expand (op : Operation) (w : W) (v : Change) : string * option error :=
  let fileName := filepath_Base (Source v) in
  let fileName := if ignoreExt op then filenameWithoutExtension fileName else fileName in
  let str :=
    if stringMode op then
      if ignoreCase op
      then ReplaceAllString (searchRegex op) fileName (replaceString op)
      else strings_ReplaceAll fileName (findString op) (replaceString op)
    else ReplaceAllString (searchRegex op) fileName (replaceString op) in
  (* handle variables *)
  handleVariables op w str v.

(** The body of the loop of [Replace] for the match [v] at index [i]: the
    match with its target, or the error of [handleVariables]. *)
Definition Replace_match (op : Operation) (w : W) (i : nat) (v : Change)
    : error + Change :=
  let dir := filepath_Dir (Source v) in
  let fileExt := filepath_Ext (filepath_Base (Source v)) in
  match Replace_expand op w v with
  | (_, Some err) => inl err
  | (str, None) =>
      (* if numbering scheme is present *)
      let str := number (startNumber op) i str in
      let str := if ignoreExt op then str +:+ fileExt else str in
      inr (set_Target (filepath_Join dir str) v)
  end.

(** [for i, v := range op.matches] of [Replace], from index [i] on; [ms] is
    [op.matches] as the loop has left it so far. *)
Fixpoint Replace_matches (op : Operation) (w : W) (i : nat) (rest ms : list Change)
    : list Change * option error :=
  match rest with
  | [] => (ms, None)
  | v :: rest' =>
      match Replace_match op w i v with
      | inl err => (ms, Some err)
      | inr v' => Replace_matches op w (S i) rest' (<[i := v']> ms)
      end
  end.

(** [Replace]. *)
Definition Replace (op : Operation) (w : W) : Operation * option error :=
  let '(ms, err) := Replace_matches op w 0 (matches op) (matches op) in
  (set_matches ms op, err).

(** Whether [FindMatches] keeps the path [v]. *)
Definition FindMatches_keeps (op : Operation) (v : Change) : bool :=
  let filename := filepath_Base (Source v) in
  if IsDir v && negb (includeDir op) then false
  else if onlyDir op && negb (IsDir v) then false
  else if negb (includeHidden op) && String.prefix "." filename then false
  else
    let f := if ignoreExt op then filenameWithoutExtension filename else filename in
    if stringMode op then
      if ignoreCase op
      then strings_Contains (strings_ToLower f) (strings_ToLower (findString op))
      else strings_Contains f (findString op)
    else MatchString (searchRegex op) f.

(** [FindMatches]. *)
Definition FindMatches (op : Operation) : Operation :=
  set_matches (matches op ++ filter (λ v, FindMatches_keeps op v = true) (paths op)) op.

(** [Run]: [None] where [SortMatches] is not modelled. *)
Definition Run (op : Operation) (w : W) : option outcome :=
  if negb (String.eqb (undoFile op) "") then Some (Undo op w)
  else
    let op1 := FindMatches op in
    op2 ← (if includeDir op1 then SortMatches op1 else Some op1);
    let '(op3, err) := Replace op2 w in
    match err with
    | Some e => Some {| out_op := op3; out_world := w; out_events := []; out_err := Some e |}
    | None => Some (Apply op3 w)
    end.

End Templates.

(** ** A small platform, for running the model

    A file system given by the entries it holds, each under its cleaned
    path: an undo record holds the record that is read back from it, a
    directory or a file of any other content holds nothing.  An entry lies
    under a directory when its path goes on from that of the directory after
    a separator, and moves with it.  Files carry no metadata; colours are
    off; the clock stands still. *)

Record flat_world := { files : gmap string (option mapFile) }.

(** The paths of the entries. *)
Definition entries (w : flat_world) : gset string := dom (files w).

(** Whether [path] is there; the current directory and the root always
    are. *)
Definition flat_present (w : flat_world) (path : string) : bool :=
  String.eqb path "." || String.eqb path "/" || bool_decide (is_Some (files w !! path)).

Definition flat_Stat (w : flat_world) (path : string) : stat_result :=
  if flat_present w path then stat_ok else stat_not_exist.

(** The directory [path] lies in is there. *)
Definition flat_parent_present (w : flat_world) (path : string) : bool :=
  flat_present w (filepath_Dir path).

(** [path] is [dir] or lies under it. *)
Definition under (dir path : string) : bool :=
  String.eqb path dir || String.prefix (dir +:+ "/") path.

(** An entry renamed takes the entries under it along, and a single entry
    in the place it takes gives way.  The entry renamed and the directory of
    its new path have to be there; an entry is not renamed to a path under
    it, nor to a directory that holds entries. *)
Definition flat_Rename (oldpath newpath : string) (w : flat_world)
    : flat_world * option error :=
  let failure reason :=
    (w, Some ("rename " +:+ oldpath +:+ " " +:+ newpath +:+ ": " +:+ reason)) in
  if negb (bool_decide (is_Some (files w !! oldpath)) && flat_parent_present w newpath)
  then failure "no such file or directory"
  else if String.eqb oldpath newpath then (w, None)
  else if String.prefix (oldpath +:+ "/") newpath then failure "invalid argument"
  else if (0 <? size (filter (λ kv, String.prefix (newpath +:+ "/") kv.1 = true) (files w)))%nat
  then failure "directory not empty"
  else
    let taken := filter (λ kv, under oldpath kv.1 = true) (files w) in
    let kept :=
      filter (λ kv, under oldpath kv.1 = false ∧ kv.1 ≠ newpath) (files w) in
    let moved :=
      (λ kv, (newpath +:+ string_drop (String.length oldpath) kv.1, kv.2))
      <$> map_to_list taken in
    ({| files := list_to_map moved ∪ kept |}, None).

(** The directory [dir] and those it lies in, up to the current directory
    or the root. *)
Fixpoint ancestors (fuel : nat) (dir : string) : list string :=
  match fuel with
  | O => []
  | S fuel' =>
      if String.eqb dir "." || String.eqb dir "/" then []
      else dir :: ancestors fuel' (filepath_Dir dir)
  end.

Definition flat_MkdirAll (dir : string) (w : flat_world) : flat_world * option error :=
  ({| files :=
        foldr (λ d m, if bool_decide (is_Some (m !! d)) then m else <[d := None]> m)
              (files w) (ancestors (S (String.length dir)) (filepath_Clean dir)) |},
   None).

(** [encoding/json] writes a string as valid UTF-8: a byte that begins no
    UTF-8 sequence is written as U+FFFD, and read back as such.  [skip]
    counts the bytes of the current sequence still to be passed over. *)
Fixpoint json_string (skip : nat) (s : string) : string :=
  match s with
  | EmptyString => EmptyString
  | String c r =>
      match skip with
      | S k => String c (json_string k r)
      | O =>
          if (nat_of_ascii c <? 128)%nat then String c (json_string 0 r)
          else if (utf8_width s =? 1)%nat then
            String "239" (String "191" (String "189" (json_string 0 r)))
          else String c (json_string (utf8_width s - 1) r)
      end
  end.

(** An undo record as [json.Unmarshal] reads it back from what
    [json.MarshalIndent] has written. *)
Definition json_mapFile (mf : mapFile) : mapFile :=
  {| Date := json_string 0 (Date mf);
     Operations :=
       (λ ch, {| BaseDir := json_string 0 (BaseDir ch);
                 Source := json_string 0 (Source ch);
                 Target := json_string 0 (Target ch);
                 IsDir := IsDir ch |}) <$> Operations mf |}.

(** The record written is an entry like any other. *)
Definition flat_write_map_file (path : string) (mf : mapFile) (w : flat_world)
    : flat_world * option error :=
  if flat_parent_present w (filepath_Clean path) then
    ({| files := <[filepath_Clean path := Some (json_mapFile mf)]> (files w) |}, None)
  else (w, Some ("open " +:+ path +:+ ": no such file or directory")).

Definition flat_read_map_file (w : flat_world) (path : string) : error + mapFile :=
  match files w !! filepath_Clean path with
  | Some (Some mf) => inr mf
  | Some None => inl "unexpected end of JSON input"
  | None => inl ("open " +:+ path +:+ ": no such file or directory")
  end.

Definition flat_Open_exif (w : flat_world) (file : string) : error + opened_file :=
  if flat_present w file then inr {| decoded := Exif_zero; close_error := None |}
  else inl ("open " +:+ file +:+ ": no such file or directory").

Definition flat_times_Stat (w : flat_world) (file : string) : error + Timespec unit :=
  if flat_present w file then
    inr {| ModTime := (); AccessTime := (); HasBirthTime := false; BirthTime := ();
           HasChangeTime := false; ChangeTime := () |}
  else inl ("stat " +:+ file +:+ ": no such file or directory").

(** Modelled from the spec: [filenameWithoutExtension] is not in the source
    file; it gives the filename without its extension. *)
Definition flat_filenameWithoutExtension (fileName : string) : string :=
  substring 0 (String.length fileName - String.length (filepath_Ext fileName)) fileName.

(** Modelled from the spec: [getNewPath] is not in the source file; it
    appends an incrementing numeric suffix before the extension until the path
    collides neither with the file system nor with a target already in [m]. *)
Fixpoint flat_getNewPath_from (fuel : nat) (num : Z) (w : flat_world)
    (target baseDir : string) (m : option (gmap string (list indexed_source))) : string :=
  let base := filepath_Base target in
  let newPath :=
    flat_filenameWithoutExtension base +:+ " (" +:+ strconv_Itoa num +:+ ")"
    +:+ filepath_Ext base in
  let fullPath := filepath_Join baseDir newPath in
  match fuel with
  | O => newPath
  | S fuel' =>
      if decide (fullPath ∈ entries w) then
        flat_getNewPath_from fuel' (num + 1) w target baseDir m
      else if bool_decide (is_Some (default ∅ m !! fullPath)) then
        flat_getNewPath_from fuel' (num + 1) w target baseDir m
      else newPath
  end.

Definition flat_getNewPath (w : flat_world) (target baseDir : string)
    (m : option (gmap string (list indexed_source))) : string :=
  flat_getNewPath_from (size (entries w) + size (default ∅ m)) 2 w target baseDir m.

(** Lower case for the letters of ASCII. *)
Fixpoint ascii_ToLower (s : string) : string :=
  match s with
  | EmptyString => EmptyString
  | String c r =>
      let n := nat_of_ascii c in
      String (if (65 <=? n)%nat && (n <=? 90)%nat then ascii_of_nat (n + 32) else c)
             (ascii_ToLower r)
  end.

#[global] Instance flat_platform : Platform flat_world := {|
  red := id; green := id; yellow := id;
  os_Stat := flat_Stat;
  os_MkdirAll := flat_MkdirAll;
  os_Rename := flat_Rename;
  os_write_map_file := flat_write_map_file;
  os_read_map_file := flat_read_map_file;
  time_Now_RFC3339 := λ _, "2021-01-01T00:00:00Z";
  os_Open_exif := flat_Open_exif;
  Time := unit;
  time_Now := λ _, ();
  time_Format := λ _ layout, layout;
  times_Stat := flat_times_Stat;
  unicode_letter_or_digit := λ _, false;
  strings_ToLower := ascii_ToLower;
  getNewPath := flat_getNewPath;
  filenameWithoutExtension := flat_filenameWithoutExtension;
  exifDivision := λ _, "";
  range_order := λ m, (map_to_list m).*1;
  range_order_keys := λ m, Permutation_refl _;
|}.

(** ** Operations for running the model *)

(** The compiled pattern [.*] of an empty find string, for a replacement
    that holds no dollar sign: every name matches, and the replacement takes
    the place of the whole name. *)
Definition match_everything : Regexp :=
  {| MatchString := λ _, true; ReplaceAllString := λ _ repl, repl |}.

(** The operation [NewOperation] builds for an empty find string and these
    flags, once its matches are [matches_]. *)
Definition operation (exec_ fixConflicts_ includeDir_ : bool) (startNumber_ : Z)
    (replaceString_ outputFile_ undoFile_ : string) (matches_ : list Change) : Operation :=
  {| paths := []; matches := matches_; conflicts := ∅;
     findString := ""; replaceString := replaceString_;
     startNumber := startNumber_; exec := exec_; fixConflicts := fixConflicts_;
     includeHidden := false; includeDir := includeDir_; onlyDir := false;
     ignoreCase := false; ignoreExt := false; searchRegex := match_everything;
     directories := []; recursive := false; undoFile := undoFile_;
     outputFile := outputFile_; workingDir := "/home/user"; stringMode := false |}.

(** A world with the entries [names], none of them an undo record. *)
Definition world_of (names : list string) : flat_world :=
  {| files := gset_to_gmap None (list_to_set names) |}.

(** ** The specification's vocabulary *)

(** A counter token: a percent sign, digits, [d]. *)
Definition counter_token (t : string) : bool :=
  match indexRegex t with
  | Some k => (k =? String.length t)%nat
  | None => false
  end.

(** A text cut at its counter tokens: pieces of text that hold no counter
    token, each followed by a token, and a last piece of text. *)
Definition cut_text : Type := list (string * string) * string.

Definition well_cut (c : cut_text) : Prop :=
  Forall (λ p, regexp_Match indexRegex p.1 = false ∧ counter_token p.2 = true) c.1
  ∧ regexp_Match indexRegex c.2 = false.

(** The text that was cut. *)
Definition uncut (c : cut_text) : string :=
  foldr (λ p rest, p.1 +:+ p.2 +:+ rest) c.2 c.1.

(** The text with [r] in the place of every token. *)
Definition filled (r : string) (c : cut_text) : string :=
  foldr (λ p rest, p.1 +:+ r +:+ rest) c.2 c.1.

(** What follows a piece of text that was cut: nothing, or a token. *)
Definition token_or_end (rest : string) : Prop :=
  rest = "" ∨ ∃ r, rest = String "%" r.

(** The decimal digits of [n], with zeros between the sign and the digits up
    to [width] characters. *)
Definition zero_padded (width : Z) (n : Z) : string :=
  if n <? 0 then "-" +:+ pad_left "0" (width - 1) (decimal (- n))
  else pad_left "0" width (decimal n).

(** No kind is recorded with an empty list of conflicts. *)
Definition no_empty_record (cs : gmap conflict (list Conflict)) : Prop :=
  ∀ k l, cs !! k = Some l → l ≠ [].

Section vocabulary.
Context {W : Type} `{!Platform W}.

(** The conflicts recorded under the kind [k]. *)
Definition recorded (k : conflict) (op : Operation) : list Conflict :=
  default [] (conflicts op !! k).

(** The conflict of a change on its own: its full source path and its full
    target path. *)
Definition conflict_of (ch : Change) : Conflict :=
  mkConflict [filepath_Join (BaseDir ch) (Source ch)]
             (filepath_Join (BaseDir ch) (Target ch)).

(** The target of the change is not the marker of the current directory, and
    [os.Stat] does not say that its full target path does not exist. *)
Definition target_found (w : W) (ch : Change) : Prop :=
  Target ch ≠ "."
  ∧ os_Stat w (filepath_Join (BaseDir ch) (Target ch)) ≠ stat_not_exist.

#[global] Instance target_found_dec w ch : Decision (target_found w ch).
Proof. unfold target_found. apply _. Defined.

(** The full source path and the full target path of a change. *)
Definition full_source (ch : Change) : string :=
  filepath_Join (BaseDir ch) (Source ch).

Definition full_target (ch : Change) : string :=
  filepath_Join (BaseDir ch) (Target ch).

(** The target of the change is not the marker of the current directory, and
    [os.Stat] says that its full target path does not exist. *)
Definition target_free (w : W) (ch : Change) : Prop :=
  Target ch ≠ "."
  ∧ os_Stat w (filepath_Join (BaseDir ch) (Target ch)) = stat_not_exist.

(** The full target path of the change, as it stands after the check
    against the file system: the path [getNewPath] gives when the path was
    found and conflicts are fixed. *)
Definition checked_target (w : W) (fix_ : bool) (ch : Change) : string :=
  let target := filepath_Join (BaseDir ch) (Target ch) in
  if target_exists w target && fix_
  then filepath_Join (BaseDir ch) (getNewPath w target (BaseDir ch) None)
  else target.

(** The change takes part in the search for duplicates of the path [k]: its
    target is not the marker of the current directory, and its checked
    target is [k]. *)
Definition competes (w : W) (fix_ : bool) (k : string) (ch : Change) : Prop :=
  Target ch ≠ "." ∧ checked_target w fix_ ch = k.

#[global] Instance competes_dec w fix_ k ch : Decision (competes w fix_ k ch).
Proof. unfold competes. apply _. Defined.

(** The full source paths of the changes of [ms] that compete for [k]. *)
Definition competitors (w : W) (fix_ : bool) (k : string) (ms : list Change)
    : list string :=
  (λ ch, filepath_Join (BaseDir ch) (Source ch)) <$> filter (competes w fix_ k) ms.

(** The entries of [m] under the key [k] that the first loop adds for the
    matches [rest], the first of which has the index [i]. *)
Fixpoint group_entries (w : W) (fix_ : bool) (k : string) (i : nat)
    (rest : list Change) : list indexed_source :=
  match rest with
  | [] => []
  | ch :: rest' =>
      (if decide (competes w fix_ k ch)
       then [(filepath_Join (BaseDir ch) (Source ch), i)] else [])
      ++ group_entries w fix_ k (S i) rest'
  end.

End vocabulary.

(** ** More of the vocabulary *)

(** What a change is about: its base directory, its source and whether it
    is a directory; all of it but the target. *)
Definition subject (ch : Change) : string * string * bool :=
  (BaseDir ch, Source ch, IsDir ch).

(** [op.paths = ps]. *)
Definition set_paths (ps : list Change) (op : Operation) : Operation :=
  {| paths := ps; matches := matches op; conflicts := conflicts op;
     findString := findString op; replaceString := replaceString op;
     startNumber := startNumber op; exec := exec op;
     fixConflicts := fixConflicts op; includeHidden := includeHidden op;
     includeDir := includeDir op; onlyDir := onlyDir op;
     ignoreCase := ignoreCase op; ignoreExt := ignoreExt op;
     searchRegex := searchRegex op; directories := directories op;
     recursive := recursive op; undoFile := undoFile op;
     outputFile := outputFile op; workingDir := workingDir op;
     stringMode := stringMode op |}.


(** The calls [Apply] makes for one change when it is executed: the
    directory of the target is made when the target holds a separator, and
    the full source path is renamed to the full target path. *)
Definition calls_of (ch : Change) : list event :=
  (if strings_Contains (Target ch) "/" then [MkdirAll (filepath_Dir (Target ch))] else [])
  ++ [Rename (filepath_Join (BaseDir ch) (Source ch))
             (filepath_Join (BaseDir ch) (Target ch))].

(** The error [Apply] returns when a call for the change fails. *)
Definition execErr_of (ch : Change) : error :=
  "An error occurred while renaming '" +:+ filepath_Join (BaseDir ch) (Source ch)
  +:+ "' to '" +:+ filepath_Join (BaseDir ch) (Target ch) +:+ "'".

(** [init]: the pattern [dateRegex] as it is built from the keys of
    [dateTokens] in the order [tokens] in which [range] visits them. *)
Definition init (tokens : list string) (s : string) : option (nat * (string * string)) :=
  if String.prefix "{{" s then
    let s1 := string_drop 2 s in
    match alternative ["mtime"; "ctime"; "btime"; "atime"; "now"] "." s1 with
    | Some clock =>
        let s2 := string_drop (String.length clock + 1) s1 in
        (λ token, ((String.length clock + String.length token + 5)%nat, (clock, token)))
        <$> alternative tokens "}}" s2
    | None => None
    end
  else None.

(** ** Construction: [NewOperation] and [setPaths] *)

(** An [os.DirEntry], by the two methods the program calls on it. *)
Module DirEntry.
Record t := { Name : string; IsDir : bool }.
End DirEntry.

(** A [*cli.Context], by the methods the program calls on it: the value of
    the flag of a given name as a string, as a boolean and as an [int], and
    the arguments that are no flags. *)
Record cli_Context := {
  c_String : string → string;
  c_Bool : string → bool;
  c_Int : string → Z;
  c_Args : list string;
}.

(** What the construction of an operation takes from outside this file. *)
Class Startup (W : Type) := {
  (** [regexp.Compile]: [None] for a malformed pattern. *)
  regexp_Compile : string → option Regexp;
  (** [os.ReadDir] and [filepath.Abs]. *)
  os_ReadDir : W → string → error + list DirEntry.t;
  filepath_Abs : W → string → error + string;
  (** The helper [walk] of the repository, which this file calls and does
      not define. *)
  walk : W → gmap string (list DirEntry.t) → bool → error + gmap string (list DirEntry.t);
  (** The order in which [for k, v := range paths] visits the keys: Go
      leaves it unspecified; every key is visited once. *)
  range_paths : gmap string (list DirEntry.t) → list string;
  range_paths_keys : ∀ m, range_paths m ≡ₚ (map_to_list m).*1;
  (** What stands for the [nil] of [*regexp.Regexp], which is what
      [searchRegex] holds until a pattern is compiled. *)
  nil_Regexp : Regexp;
}.

(** [op.searchRegex = re]. *)
Definition set_searchRegex (re : Regexp) (op : Operation) : Operation :=
  {| paths := paths op; matches := matches op; conflicts := conflicts op;
     findString := findString op; replaceString := replaceString op;
     startNumber := startNumber op; exec := exec op;
     fixConflicts := fixConflicts op; includeHidden := includeHidden op;
     includeDir := includeDir op; onlyDir := onlyDir op;
     ignoreCase := ignoreCase op; ignoreExt := ignoreExt op;
     searchRegex := re; directories := directories op;
     recursive := recursive op; undoFile := undoFile op;
     outputFile := outputFile op; workingDir := workingDir op;
     stringMode := stringMode op |}.

(** [op.workingDir = dir]. *)
Definition set_workingDir (dir : string) (op : Operation) : Operation :=
  {| paths := paths op; matches := matches op; conflicts := conflicts op;
     findString := findString op; replaceString := replaceString op;
     startNumber := startNumber op; exec := exec op;
     fixConflicts := fixConflicts op; includeHidden := includeHidden op;
     includeDir := includeDir op; onlyDir := onlyDir op;
     ignoreCase := ignoreCase op; ignoreExt := ignoreExt op;
     searchRegex := searchRegex op; directories := directories op;
     recursive := recursive op; undoFile := undoFile op;
     outputFile := outputFile op; workingDir := dir;
     stringMode := stringMode op |}.

Section Setup.
Context {W : Type} `{!Startup W}.

(** The [Change] that [setPaths] makes of the entry [f] of the directory [k]. *)
Definition setPaths_change (k : string) (f : DirEntry.t) : Change :=
  {| BaseDir := k; Source := filepath_Clean (DirEntry.Name f); Target := "";
     IsDir := DirEntry.IsDir f |}.

(** [setPaths]: the error it returns is always [nil]. *)
Definition setPaths (op : Operation) (listing : gmap string (list DirEntry.t))
    : Operation * option error :=
  let ps :=
    foldl (λ ps k,
             foldl (λ ps f, ps ++ [setPaths_change k f]) ps (default [] (listing !! k)))
          (paths op) (range_paths listing) in
  (set_paths ps op, None).

(** [for _, v := range op.directories { paths[v], err = os.ReadDir(v) ... }]. *)
Fixpoint read_directories (w : W) (dirs : list string)
    (listing : gmap string (list DirEntry.t)) : error + gmap string (list DirEntry.t) :=
  match dirs with
  | [] => inr listing
  | v :: dirs' =>
      match os_ReadDir w v with
      | inl err => inl err
      | inr entries => read_directories w dirs' (<[v := entries]> listing)
      end
  end.

(** [NewOperation]: the operation and the error it returns. *)
Definition NewOperation (c : cli_Context) (w : W) : option Operation * option error :=
  if String.eqb (c_String c "find") "" && String.eqb (c_String c "replace") ""
     && String.eqb (c_String c "undo") "" then
    (None,
     Some ("Invalid arguments: one of `-f`, `-r` or `-u` must be present and set to a non empty string value"
           +:+ String "010" "Use 'f2 --help' for more information"))
  else
    let op :=
      {| paths := []; matches := []; conflicts := ∅;
         findString := c_String c "find"; replaceString := c_String c "replace";
         startNumber := c_Int c "start-num"; exec := c_Bool c "exec";
         fixConflicts := c_Bool c "fix-conflicts"; includeHidden := c_Bool c "hidden";
         includeDir := if c_Bool c "only-dir" then true else c_Bool c "include-dir";
         onlyDir := c_Bool c "only-dir"; ignoreCase := c_Bool c "ignore-case";
         ignoreExt := c_Bool c "ignore-ext"; searchRegex := nil_Regexp;
         directories := c_Args c; recursive := c_Bool c "recursive";
         undoFile := c_String c "undo"; outputFile := c_String c "output-file";
         workingDir := ""; stringMode := c_Bool c "string-mode" |} in
    if negb (String.eqb (undoFile op) "") then (Some op, None)
    else
      let findPattern := c_String c "find" in
      (* match entire string if find pattern is empty *)
      let findPattern := if String.eqb findPattern "" then ".*" else findPattern in
      let findPattern := if ignoreCase op then "(?i)" +:+ findPattern else findPattern in
      match regexp_Compile findPattern with
      | None =>
          (None, Some ("Malformed regular expression for search pattern " +:+ findPattern))
      | Some re =>
          let op := set_searchRegex re op in
          match read_directories w (directories op) ∅ with
          | inl err => (None, Some err)
          | inr listing =>
              (* use current directory *)
              match (if (size listing =? 0)%nat then
                       match os_ReadDir w "." with
                       | inl err => inl err
                       | inr entries => inr (<["." := entries]> listing)
                       end
                     else inr listing) with
              | inl err => (None, Some err)
              | inr listing =>
                  match (if recursive op then walk w listing (includeHidden op)
                         else inr listing) with
                  | inl err => (None, Some err)
                  | inr listing =>
                      (* get the current working directory *)
                      match filepath_Abs w "." with
                      | inl err => (None, Some err)
                      | inr dir =>
                          let '(op, err) := setPaths (set_workingDir dir op) listing in
                          (Some op, err)
                      end
                  end
              end
          end
      end.

End Setup.

(** The directories an operation is about: those given as arguments, the
    current directory when none is given. *)
Definition directories_read (c : cli_Context) : list string :=
  match c_Args c with
  | [] => ["."]
  | dirs => dirs
  end.

(** A world that is a table of the entries of its directories, for running
    the construction: a directory that is not in the table cannot be read;
    the only pattern compiled is the one that matches everything; [walk]
    finds nothing below the directories listed. *)
Definition table_world : Type := list (string * list DirEntry.t).

Definition table_ReadDir (w : table_world) (dir : string) : error + list DirEntry.t :=
  match find (λ kv, String.eqb kv.1 dir) w with
  | Some kv => inr kv.2
  | None => inl ("open " +:+ dir +:+ ": no such file or directory")
  end.

#[global] Instance table_startup : Startup table_world := {|
  regexp_Compile := λ pattern, if String.eqb pattern ".*" then Some match_everything else None;
  os_ReadDir := table_ReadDir;
  filepath_Abs := λ _ _, inr "/home/user";
  walk := λ _ listing _, inr listing;
  range_paths := λ m, (map_to_list m).*1;
  range_paths_keys := λ m, Permutation_refl _;
  nil_Regexp := match_everything;
|}.

(** * Properties *)

(** ** Ordering: [SortMatches] *)

(** C4, at inputs on which the guarantee fails.  A file of directory [a]
    followed by a directory of directory [b]: the comparison of [SortMatches]
    says that the directory is less than the file, because its base directory
    is the greater one, and the directory is placed before the file.  Two
    files: the comparison says of each that it is less than the other, and
    they change places. *)
Lemma SortMatches_directory_before_file :
  matches <$> SortMatches
    (operation false false true 1 "" "" ""
       [mkChange "a" "x.txt" "" false; mkChange "b" "d" "" true])
  = Some [mkChange "b" "d" "" true; mkChange "a" "x.txt" "" false]
  ∧ matches <$> SortMatches
      (operation false false true 1 "" "" ""
         [mkChange "." "1.txt" "" false; mkChange "." "2.txt" "" false])
    = Some [mkChange "." "2.txt" "" false; mkChange "." "1.txt" "" false].
Proof. split; reflexivity. Qed.

(** The order the specification gives as an example is reached from every
    order in which the three matches may be found. *)
Lemma SortMatches_example :
  Forall (λ ms, insertionSort sort_less ms
                = [mkChange "/a/b" "f" "" false; mkChange "/a" "b" "" true;
                   mkChange "/" "a" "" true])
    (permutations
       [mkChange "/" "a" "" true; mkChange "/a" "b" "" true;
        mkChange "/a/b" "f" "" false]).
Proof. vm_compute. repeat constructor. Qed.

Section insertion_sort.
Context {A : Type} (less : A → A → bool).

Lemma insert_left_Permutation x before : insert_left less x before ≡ₚ x :: before.
Proof.
  induction before as [|y r IH]; simpl; [done|].
  destruct (less x y); [|done].
  rewrite IH. apply Permutation_swap.
Qed.

Lemma insertionSort_foldl_Permutation data acc :
  foldl (λ before x, insert_left less x before) acc data ≡ₚ acc ++ data.
Proof.
  revert acc. induction data as [|x data IH]; intros acc; simpl.
  - by rewrite app_nil_r.
  - rewrite IH, insert_left_Permutation.
    by rewrite (Permutation_middle acc data x).
Qed.

Lemma insertionSort_Permutation data : insertionSort less data ≡ₚ data.
Proof.
  unfold insertionSort. rewrite reverse_Permutation.
  by rewrite insertionSort_foldl_Permutation.
Qed.

(** An element that is less than every other one moves to the front. *)
Lemma insert_left_least x before :
  (∀ y, less x y = true) → insert_left less x before = before ++ [x].
Proof.
  intros Hx. induction before as [|y r IH]; simpl; [done|].
  by rewrite Hx, IH.
Qed.

(** Elements among which none is less than another keep their order. *)
Lemma insert_left_filter (P : A → Prop) `{∀ x, Decision (P x)} x before :
  (∀ y, P x → P y → less x y = false) →
  filter P (insert_left less x before) = filter P (x :: before).
Proof.
  intros Hstable. induction before as [|y r IH]; simpl; [done|].
  destruct (less x y) eqn:Hxy; [|done].
  rewrite !filter_cons. rewrite IH. rewrite filter_cons.
  destruct (decide (P x)) as [Px|]; destruct (decide (P y)) as [Py|]; try done.
  by rewrite (Hstable y Px Py) in Hxy.
Qed.

Lemma insertionSort_filter (P : A → Prop) `{∀ x, Decision (P x)} data :
  (∀ x y, P x → P y → less x y = false) →
  filter P (insertionSort less data) = filter P data.
Proof.
  intros Hstable. unfold insertionSort.
  assert (∀ acc, filter P (reverse (foldl (λ before x, insert_left less x before) acc data))
                 = filter P (reverse acc ++ data)) as Hacc.
  { induction data as [|x data IH]; intros acc; simpl.
    - by rewrite app_nil_r.
    - rewrite IH.
      replace (reverse acc ++ x :: data) with (reverse (x :: acc) ++ data)
        by (by rewrite reverse_cons, <- app_assoc).
      rewrite !filter_app, !filter_reverse. do 2 f_equal.
      apply insert_left_filter. eauto. }
  apply (Hacc []).
Qed.

(** With an asymmetric comparison, no element of the result is less than the
    one before it. *)
Lemma insert_left_Sorted x before :
  (∀ a b, less a b = true → less b a = false) →
  Sorted (λ a b, less a b = false) before →
  Sorted (λ a b, less a b = false) (insert_left less x before).
Proof.
  intros Hasym. induction before as [|y r IH]; simpl; intros Hs.
  - repeat constructor.
  - destruct (less x y) eqn:Hxy.
    + inversion Hs as [|?? Hr Hhd]; subst. constructor; [by apply IH|].
      destruct r as [|z r']; simpl.
      * constructor. by apply Hasym.
      * destruct (less x z); constructor.
        -- by inversion Hhd.
        -- by apply Hasym.
    + constructor; [done|]. by constructor.
Qed.

Lemma insertionSort_Sorted data :
  (∀ a b, less a b = true → less b a = false) →
  Sorted (λ a b, less b a = false) (insertionSort less data).
Proof.
  intros Hasym. unfold insertionSort.
  assert (∀ acc, Sorted (λ a b, less a b = false) acc →
                 Sorted (λ a b, less a b = false)
                   (foldl (λ before x, insert_left less x before) acc data)) as Hacc.
  { induction data as [|x data IH]; intros acc Hs; simpl; [done|].
    apply IH. by apply insert_left_Sorted. }
  apply (Sorted_reverse (λ a b, less a b = false)).
  apply Hacc. constructor.
Qed.

End insertion_sort.

(** Files only: [insertionSort] with the comparison of [SortMatches] reverses
    their order. *)
Lemma insertionSort_files (ms : list Change) :
  Forall (λ ch, IsDir ch = false) ms → insertionSort sort_less ms = reverse ms.
Proof.
  intros Hfiles. unfold insertionSort. f_equal.
  assert (∀ acc, foldl (λ before x, insert_left sort_less x before) acc ms = acc ++ ms)
    as Hacc; [|apply (Hacc [])].
  induction Hfiles as [|x l Hx _ IH]; intros acc; simpl.
  - by rewrite app_nil_r.
  - rewrite IH, insert_left_least.
    + by rewrite <- app_assoc.
    + intros y. unfold sort_less. by rewrite Hx.
Qed.

(** ** Image metadata: [replaceExifVariables] *)

(** C2, at an input on which the guarantee fails: on a file that carries no
    metadata the tokens of [iso] and [et] are replaced by ["ISO"] and ["s"],
    not by the empty text (as are those of [fl] and [fnum] by ["mm"] and
    ["f"] once [exifDivision] gives the empty text for an absent value);
    the tokens of the other fields are replaced by the empty text. *)
Lemma replaceExifVariables_absent_fields :
  replaceExifVariables (world_of ["a.jpg"]) "a.jpg"
    "{{exif.iso}}|{{exif.et}}|{{exif.fl}}|{{exif.fnum}}|{{exif.w}}|{{exif.h}}|{{exif.wh}}|{{exif.make}}|{{exif.model}}|{{exif.lens}}"
  = ("ISO|s|mm|f||||||", None).
Proof. vm_compute. reflexivity. Qed.

(** ** Numbering: [Replace] *)

Lemma string_app_cons c a b : String c a +:+ b = String c (a +:+ b).
Proof. reflexivity. Qed.

Lemma string_app_nil_l a : "" +:+ a = a.
Proof. reflexivity. Qed.

Lemma string_app_nil_r a : a +:+ "" = a.
Proof. induction a as [|c a IH]; [done|]. by rewrite string_app_cons, IH. Qed.

Lemma string_app_assoc a b c : (a +:+ b) +:+ c = a +:+ b +:+ c.
Proof. induction a as [|x a IH]; [done|]. by rewrite !string_app_cons, IH. Qed.

Lemma string_length_app a b :
  String.length (a +:+ b) = (String.length a + String.length b)%nat.
Proof. induction a as [|x a IH]; [done|]. rewrite string_app_cons. simpl. by rewrite IH. Qed.

Lemma string_repeat_length c n : String.length (string_repeat c n) = n.
Proof. induction n as [|n IH]; simpl; by rewrite ?IH. Qed.

(** Padding leaves a text that is long enough as it is, and makes any other
    as long as asked. *)
Lemma pad_left_long c width s :
  width ≤ Z.of_nat (String.length s) → pad_left c width s = s.
Proof.
  intros Hlen. unfold pad_left.
  by replace (Z.to_nat (width - Z.of_nat (String.length s))) with O by lia.
Qed.

Lemma pad_left_length c width s :
  width ≤ Z.of_nat (String.length (pad_left c width s)).
Proof.
  unfold pad_left. rewrite string_length_app, string_repeat_length. lia.
Qed.

(** The format [%03d]. *)
Lemma fmt_Sprintf_03d n : fmt_Sprintf "%03d" n = zero_padded 3 n.
Proof.
  change (fmt_Sprintf "%03d" n) with (fmt_integer true true 3 n).
  unfold fmt_integer, zero_padded. simpl andb. cbv iota.
  destruct (n <? 0) eqn:Hn.
  - apply Z.ltb_lt in Hn. rewrite pad_left_long.
    + by replace (Z.abs n) with (- n) by lia.
    + rewrite string_length_app. 
      pose proof (pad_left_length "0" (3 - 1) (decimal (Z.abs n))). simpl String.length.  lia.
  - apply Z.ltb_ge in Hn. rewrite pad_left_long.
    + by replace (Z.abs n) with n by lia.
    + apply pad_left_length.
Qed.


(** *** Scanning a text that was cut at its tokens *)

Lemma digits_then_d_app_None s rest :
  token_or_end rest → digits_then_d s = None → digits_then_d (s +:+ rest) = None.
Proof.
  intros Hrest. induction s as [|c s IH]; intros Hs.
  - rewrite string_app_nil_l. destruct Hrest as [->|[r ->]]; done.
  - rewrite string_app_cons. simpl in *.
    destruct (Ascii.eqb c "d"); [done|].
    destruct (is_digit c); [|done].
    destruct (digits_then_d s); [done|]. by rewrite IH.
Qed.

Lemma digits_then_d_app_Some s rest k :
  digits_then_d s = Some k → digits_then_d (s +:+ rest) = Some k.
Proof.
  revert k. induction s as [|c s IH]; intros k Hs; [done|].
  rewrite string_app_cons. simpl in *.
  destruct (Ascii.eqb c "d"); [done|].
  destruct (is_digit c); [|done].
  destruct (digits_then_d s) as [k'|]; [|done].
  by rewrite (IH k').
Qed.

Lemma indexRegex_app_None c s rest :
  token_or_end rest → indexRegex (String c s) = None →
  indexRegex (String c s +:+ rest) = None.
Proof.
  intros Hrest Hs. rewrite string_app_cons. unfold indexRegex in *.
  destruct (Ascii.eqb_spec c "%") as [->|Hc].
  - destruct (digits_then_d s) eqn:Hd; [done|].
    by rewrite digits_then_d_app_None.
  - destruct c as [[] [] [] [] [] [] [] []]; done.
Qed.

Lemma indexRegex_app_Some s rest k :
  indexRegex s = Some k → indexRegex (s +:+ rest) = Some k.
Proof.
  destruct s as [|c s]; [done|]. rewrite string_app_cons. unfold indexRegex.
  destruct (Ascii.eqb_spec c "%") as [->|Hc].
  - destruct (digits_then_d s) as [k'|] eqn:Hd; [|done].
    by rewrite (digits_then_d_app_Some _ _ k').
  - destruct c as [[] [] [] [] [] [] [] []]; done.
Qed.

Lemma counter_token_shape t :
  counter_token t = true →
  (∃ r, t = String "%" r) ∧ indexRegex t = Some (String.length t)
  ∧ (0 < String.length t)%nat.
Proof.
  unfold counter_token. destruct (indexRegex t) as [k|] eqn:Hk; [|done].
  intros ->%Nat.eqb_eq. split_and!; [|done|].
  - destruct t as [|c r]; [done|]. unfold indexRegex in Hk.
    destruct (Ascii.eqb_spec c "%") as [->|Hc]; [by eexists|].
    destruct c as [[] [] [] [] [] [] [] []]; done.
  - destruct t; [done|simpl; lia].
Qed.

Lemma regexp_Find_None m s : regexp_Match m s = false ↔ regexp_Find m s = None.
Proof.
  unfold regexp_Match. rewrite bool_decide_eq_false.
  destruct (regexp_Find m s); split; try done.
  intros []. by eexists.
Qed.

Lemma regexp_Match_cons_false m c s :
  regexp_Match m (String c s) = false →
  m (String c s) = None ∧ regexp_Match m s = false.
Proof.
  rewrite !regexp_Find_None. simpl.
  by destruct (m (String c s)).
Qed.

Section scan.
Context (r : string).

Lemma replace_scan_skip k t rest :
  String.length t = k →
  replace_scan indexRegex (λ _, r) k (t +:+ rest)
  = replace_scan indexRegex (λ _, r) 0 rest.
Proof.
  revert k. induction t as [|c t IH]; intros k <-; simpl.
  - rewrite string_app_nil_l. by destruct rest.
  - by apply IH.
Qed.

Lemma replace_scan_text lit rest :
  token_or_end rest → regexp_Match indexRegex lit = false →
  replace_scan indexRegex (λ _, r) 0 (lit +:+ rest)
  = lit +:+ replace_scan indexRegex (λ _, r) 0 rest.
Proof.
  intros Hrest. induction lit as [|c lit IH]; intros Hlit; [done|].
  apply regexp_Match_cons_false in Hlit as [Hc Hlit].
  pose proof (indexRegex_app_None c lit rest Hrest Hc) as Happ.
  rewrite string_app_cons in Happ |- *.
  cbn [replace_scan]. rewrite Happ, string_app_cons. f_equal. by apply IH.
Qed.

Lemma replace_scan_token t rest :
  counter_token t = true →
  replace_scan indexRegex (λ _, r) 0 (t +:+ rest)
  = r +:+ replace_scan indexRegex (λ _, r) 0 rest.
Proof.
  intros (_ & Ht & Hlen)%counter_token_shape.
  pose proof (indexRegex_app_Some t rest _ Ht) as Happ.
  destruct t as [|c t]; [simpl in Hlen; lia|].
  rewrite string_app_cons in Happ |- *.
  cbn [replace_scan]. rewrite Happ. simpl String.length. f_equal.
  by apply replace_scan_skip.
Qed.

Lemma replace_scan_last last :
  regexp_Match indexRegex last = false →
  replace_scan indexRegex (λ _, r) 0 last = last.
Proof.
  intros Hlast. rewrite <- (string_app_nil_r last) at 1.
  rewrite replace_scan_text; [by rewrite string_app_nil_r|by left|done].
Qed.

End scan.

Lemma well_cut_tail p ps last : well_cut (p :: ps, last) → well_cut (ps, last).
Proof. intros [Hps Hlast]. split; [|done]. by inversion Hps. Qed.

(** A text that was cut, after a piece of text, begins with a token or is
    empty. *)
Lemma uncut_after_text ps last :
  well_cut (ps, last) →
  match ps with
  | [] => True
  | p :: ps' => token_or_end (p.2 +:+ uncut (ps', last))
  end.
Proof.
  destruct ps as [|p ps']; [done|]. intros [Hps _].
  inversion Hps as [|?? [_ Hp] _]; subst.
  apply counter_token_shape in Hp as ([t ->] & _). right. by eexists.
Qed.

(** Every token of a text that was cut is replaced. *)
Lemma replace_scan_cut r c :
  well_cut c → replace_scan indexRegex (λ _, r) 0 (uncut c) = filled r c.
Proof.
  destruct c as [ps last]. induction ps as [|p ps IH]; intros Hc.
  - destruct Hc as [_ Hlast]. by apply replace_scan_last.
  - pose proof (uncut_after_text _ _ Hc) as Hrest.
    pose proof (well_cut_tail _ _ _ Hc) as Hc'.
    destruct Hc as [Hps _]. inversion Hps as [|?? [Hlit Htok] _]; subst.
    unfold uncut, filled in *. simpl in *.
    rewrite replace_scan_text by done.
    rewrite replace_scan_token by done.
    by rewrite IH.
Qed.

(** The first token of a text that was cut is the one [Find] gives. *)
Lemma regexp_Find_text lit rest :
  token_or_end rest → regexp_Match indexRegex lit = false →
  regexp_Find indexRegex (lit +:+ rest) = regexp_Find indexRegex rest.
Proof.
  intros Hrest. induction lit as [|c lit IH]; intros Hlit; [done|].
  apply regexp_Match_cons_false in Hlit as [Hc Hlit].
  pose proof (indexRegex_app_None c lit rest Hrest Hc) as Happ.
  rewrite string_app_cons in Happ |- *.
  cbn [regexp_Find]. rewrite Happ. by apply IH.
Qed.

Lemma substring_app t rest : substring 0 (String.length t) (t +:+ rest) = t.
Proof.
  induction t as [|c t IH]; simpl.
  - by destruct (_ +:+ _).
  - by rewrite IH.
Qed.

Lemma regexp_Find_here m s k :
  m s = Some k → regexp_Find m s = Some (substring 0 k s).
Proof. intros Hk. destruct s; simpl; by rewrite Hk. Qed.

Lemma regexp_Find_token t rest :
  counter_token t = true → regexp_Find indexRegex (t +:+ rest) = Some t.
Proof.
  intros (_ & Ht & _)%counter_token_shape.
  rewrite (regexp_Find_here _ _ _ (indexRegex_app_Some t rest _ Ht)).
  by rewrite substring_app.
Qed.

Lemma regexp_Find_cut p ps last :
  well_cut (p :: ps, last) → regexp_Find indexRegex (uncut (p :: ps, last)) = Some p.2.
Proof.
  intros Hc. pose proof (uncut_after_text _ _ Hc) as Hrest.
  destruct Hc as [Hps _]. inversion Hps as [|?? [Hlit Htok] _]; subst.
  unfold uncut. simpl.
  rewrite regexp_Find_text by done.
  by apply regexp_Find_token.
Qed.

(** The numbering scheme on a text that was cut at its tokens. *)
Lemma number_cut S i c :
  well_cut c →
  number S i (uncut c)
  = match c.1 with
    | [] => c.2
    | p :: _ => filled (fmt_Sprintf p.2 (int_add S (Z.of_nat i))) c
    end.
Proof.
  intros Hc. unfold number, indexRegex_ReplaceAllString.
  destruct c as [[|p ps] last].
  - destruct Hc as [_ Hlast]. simpl in *. unfold uncut. simpl. by rewrite Hlast.
  - pose proof (regexp_Find_cut _ _ _ Hc) as Hfind.
    unfold regexp_Match. rewrite Hfind.
    rewrite bool_decide_eq_true_2 by by eexists.
    simpl. by apply replace_scan_cut.
Qed.

Section Replace_loop.
Context {W : Type} `{!Platform W}.

(** The loop of [Replace] that ends without an error has given every match
    the target its body computes for the index of the match. *)
Lemma Replace_matches_lookup op w rest : ∀ i ms ms',
  Replace_matches op w i rest ms = (ms', None) →
  (i + length rest ≤ length ms)%nat →
  length ms' = length ms
  ∧ (∀ j v, rest !! j = Some v →
       ∃ v', Replace_match op w (i + j) v = inr v' ∧ ms' !! (i + j)%nat = Some v')
  ∧ (∀ j, (j < i)%nat → ms' !! j = ms !! j).
Proof.
  induction rest as [|v0 rest IH]; intros i ms ms' Hrun Hlen; simpl in *.
  - injection Hrun as <-. split_and!; [done| |done]. intros ??. by rewrite lookup_nil.
  - destruct (Replace_match op w i v0) as [err|v0'] eqn:Hv0; [done|].
    apply IH in Hrun as (Hl & Hrest & Hbefore); [|rewrite length_insert; lia].
    rewrite length_insert in Hl. split_and!; [done| |].
    + intros [|j] v Hv; simpl in Hv.
      * injection Hv as <-. rewrite Nat.add_0_r. exists v0'. split; [done|].
        rewrite Hbefore by lia. apply list_lookup_insert_eq. lia.
      * destruct (Hrest j v Hv) as (v' & Hm & Hl').
        exists v'. by replace (i + S j)%nat with (S i + j)%nat by lia.
    + intros j Hj. rewrite Hbefore by lia. apply list_lookup_insert_ne. lia.
Qed.

Lemma Replace_lookup op w op' i v :
  Replace op w = (op', None) → matches op !! i = Some v →
  ∃ v', Replace_match op w i v = inr v' ∧ matches op' !! i = Some v'.
Proof.
  unfold Replace. intros Hrun Hv.
  destruct (Replace_matches op w 0 (matches op) (matches op)) as [ms err] eqn:Hms.
  injection Hrun as <- ->.
  apply Replace_matches_lookup in Hms as (_ & Hrest & _); [|simpl; lia].
  destruct (Hrest i v Hv) as (v' & Hm & Hl). by exists v'.
Qed.

(** The target of a match whose name, after the search pattern is replaced
    and the variables are handled, is a text cut at its tokens. *)
Lemma Replace_match_cut op w i v c :
  Replace_expand op w v = (uncut c, None) → well_cut c →
  Replace_match op w i v
  = inr (set_Target
           (filepath_Join (filepath_Dir (Source v))
              (let str := match c.1 with
                          | [] => c.2
                          | p :: _ =>
                              filled (fmt_Sprintf p.2
                                        (int_add (startNumber op) (Z.of_nat i))) c
                          end in
               if ignoreExt op
               then str +:+ filepath_Ext (filepath_Base (Source v))
               else str)) v).
Proof.
  intros Hexp Hc. unfold Replace_match. rewrite Hexp.
  by rewrite number_cut.
Qed.


(** C6, as amended.  When the first counter token of the replacement of the
    match at index [i] (after the search pattern is replaced and the
    variables are expanded) is [%03d], [Replace] puts [startNumber + i] (the
    sum of two [int]s), zero-padded to width 3, in the place of every counter
    token of that replacement. *)
Theorem Replace_numbers_03d op (w : W) op' i v c lit ps :
  Replace op w = (op', None) →
  matches op !! i = Some v →
  Replace_expand op w v = (uncut c, None) →
  well_cut c →
  c.1 = (lit, "%03d") :: ps →
  matches op' !! i
  = Some (set_Target
            (filepath_Join (filepath_Dir (Source v))
               (let str :=
                  filled (zero_padded 3 (int_add (startNumber op) (Z.of_nat i))) c in
                if ignoreExt op
                then str +:+ filepath_Ext (filepath_Base (Source v))
                else str)) v).
Proof.
  intros Hrun Hv Hexp Hc Hp.
  destruct (Replace_lookup _ _ _ _ _ Hrun Hv) as (v' & Hm & ->).
  rewrite (Replace_match_cut _ _ _ _ _ Hexp Hc), Hp in Hm.
  apply (inj inr) in Hm. rewrite <- Hm. cbn [snd].
  by rewrite fmt_Sprintf_03d.
Qed.

End Replace_loop.


(** C6, as stated, fails when a token of another format comes first: the
    token [%03d] of ["%d-%03d"] is not filled with ["001"]. *)
Lemma Replace_numbers_03d_counterexample :
  matches (Replace (operation false false false 1 "%d-%03d" "" ""
                      [mkChange "." "a.txt" "" false]) (world_of ["a.txt"])).1
  = [mkChange "." "a.txt" "1-1" false].
Proof. reflexivity. Qed.

(** The witness of C6 as amended: three files, the replacement
    ["img_%03d"], numbers from 9. *)
Lemma Replace_numbers_03d_witness :
  matches (Replace (operation false false false 9 "img_%03d" "" ""
                      [mkChange "." "a" "" false; mkChange "." "b" "" false;
                       mkChange "." "c" "" false])
             (world_of ["a"; "b"; "c"])).1 !! 2%nat
  = Some (mkChange "." "c" "img_011" false).
Proof.
  apply (Replace_numbers_03d
           (operation false false false 9 "img_%03d" "" ""
              [mkChange "." "a" "" false; mkChange "." "b" "" false;
               mkChange "." "c" "" false])
           (world_of ["a"; "b"; "c"]) _ 2 (mkChange "." "c" "" false)
           ([("img_", "%03d")], "") "img_" []).
  - reflexivity.
  - reflexivity.
  - reflexivity.
  - split; [|reflexivity]. repeat constructor.
  - reflexivity.
Defined.

(** ** Conflict detection: [DetectConflicts] *)

Section Detect_proofs.
Context {W : Type} `{!Platform W}.

Implicit Types (st : detect_state) (cs : gmap conflict (list Conflict)).

Lemma lookup_add_conflict k c cs :
  add_conflict k c cs !! k = Some (default [] (cs !! k) ++ [c]).
Proof. unfold add_conflict. by rewrite lookup_insert_eq. Qed.

Lemma lookup_add_conflict_ne k k' c cs :
  k ≠ k' → add_conflict k c cs !! k' = cs !! k'.
Proof. intros. unfold add_conflict. by rewrite lookup_insert_ne. Qed.

Lemma no_empty_record_empty : no_empty_record ∅.
Proof. intros k l. by rewrite lookup_empty. Qed.

Lemma no_empty_record_add k c cs :
  no_empty_record cs → no_empty_record (add_conflict k c cs).
Proof.
  intros Hcs k' l. destruct (decide (k = k')) as [<-|Hk].
  - rewrite lookup_add_conflict. intros [= <-]. by destruct (default [] _).
  - rewrite lookup_add_conflict_ne by done. apply Hcs.
Qed.

Lemma target_exists_stat w path :
  target_exists w path = true ↔ os_Stat w path ≠ stat_not_exist.
Proof. unfold target_exists. by destruct (os_Stat w path). Qed.

(** *** The first loop *)

(** What the body of the first loop records for one match. *)
Lemma detect_match_conflicts w fix_ st i ch :
  d_conflicts (detect_match w fix_ st i ch)
  = if decide (Target ch = ".") then
      add_conflict emptyFilename (conflict_of ch) (d_conflicts st)
    else if decide (target_found w ch) then
      add_conflict fileExists (conflict_of ch) (d_conflicts st)
    else d_conflicts st.
Proof.
  unfold detect_match, target_found.
  destruct (String.eqb_spec (Target ch) ".") as [Hdot|Hdot].
  - by rewrite decide_True.
  - rewrite decide_False by done.
    destruct (target_exists w _) eqn:Hex.
    + apply target_exists_stat in Hex. rewrite decide_True by done.
      by destruct fix_.
    + rewrite decide_False; [done|].
      intros [_ Hs]. apply target_exists_stat in Hs. congruence.
Qed.

Lemma detect_matches_conflicts w fix_ rest : ∀ i st,
  let st' := detect_matches w fix_ i rest st in
  default [] (d_conflicts st' !! emptyFilename)
  = default [] (d_conflicts st !! emptyFilename)
    ++ (conflict_of <$> filter (λ ch, Target ch = ".") rest)
  ∧ default [] (d_conflicts st' !! fileExists)
    = default [] (d_conflicts st !! fileExists)
      ++ (conflict_of <$> filter (target_found w) rest)
  ∧ d_conflicts st' !! overwritingNewPath = d_conflicts st !! overwritingNewPath
  ∧ (no_empty_record (d_conflicts st) → no_empty_record (d_conflicts st')).
Proof.
  induction rest as [|ch rest IH]; intros i st; simpl.
  - by rewrite !app_nil_r.
  - destruct (IH (S i) (detect_match w fix_ st i ch)) as (He & Hx & Ho & Hn).
    rewrite He, Hx, Ho. rewrite detect_match_conflicts in *.
    rewrite !filter_cons.
    destruct (decide (Target ch = ".")) as [Hdot|Hdot].
    + rewrite lookup_add_conflict, !lookup_add_conflict_ne by done.
      rewrite decide_False by (by intros [? _]).
      split_and!; [simpl; by rewrite <- app_assoc|done|done|].
      intros. by apply Hn, no_empty_record_add.
    + destruct (decide (target_found w ch)).
      * rewrite lookup_add_conflict, !lookup_add_conflict_ne by done.
        split_and!; [done|simpl; by rewrite <- app_assoc|done|].
        intros. by apply Hn, no_empty_record_add.
      * done.
Qed.

(** *** The second loop *)

Lemma fix_duplicate_conflicts w k st item :
  d_conflicts (fix_duplicate w k st item) = d_conflicts st.
Proof. done. Qed.

Lemma foldl_fix_duplicate_conflicts w k items : ∀ st,
  d_conflicts (foldl (fix_duplicate w k) st items) = d_conflicts st.
Proof. induction items as [|item items IH]; intros st; simpl; [done|]. by rewrite IH. Qed.

Lemma detect_duplicates_conflicts w fix_ st k :
  d_conflicts (detect_duplicates w fix_ st k)
  = if (1 <? length (default [] (d_m st !! k)))%nat then
      add_conflict overwritingNewPath
        (mkConflict (default [] (d_m st !! k)).*1 k) (d_conflicts st)
    else d_conflicts st.
Proof.
  unfold detect_duplicates. destruct (1 <? _)%nat; [|done].
  destruct fix_; [|done]. by rewrite foldl_fix_duplicate_conflicts.
Qed.

Lemma foldl_detect_duplicates_other w fix_ ks k : ∀ st,
  k ≠ overwritingNewPath →
  d_conflicts (foldl (detect_duplicates w fix_) st ks) !! k = d_conflicts st !! k.
Proof.
  induction ks as [|k0 ks IH]; intros st Hk; simpl; [done|].
  rewrite IH by done. rewrite detect_duplicates_conflicts.
  destruct (1 <? _)%nat; [|done]. by rewrite lookup_add_conflict_ne.
Qed.

Lemma foldl_detect_duplicates_no_empty w fix_ ks : ∀ st,
  no_empty_record (d_conflicts st) →
  no_empty_record (d_conflicts (foldl (detect_duplicates w fix_) st ks)).
Proof.
  induction ks as [|k0 ks IH]; intros st Hst; simpl; [done|].
  apply IH. rewrite detect_duplicates_conflicts.
  destruct (1 <? _)%nat; [|done]. by apply no_empty_record_add.
Qed.

(** *** The conflicts with the file system *)

Lemma conflicts_DetectConflicts op w :
  conflicts (DetectConflicts op w)
  = d_conflicts
      (foldl (detect_duplicates w (fixConflicts op))
         (detect_matches w (fixConflicts op) 0 (matches op)
            {| d_matches := matches op; d_conflicts := ∅; d_m := ∅ |})
         (range_order
            (d_m (detect_matches w (fixConflicts op) 0 (matches op)
                    {| d_matches := matches op; d_conflicts := ∅; d_m := ∅ |})))).
Proof. done. Qed.

Lemma DetectConflicts_no_empty_record op w :
  no_empty_record (conflicts (DetectConflicts op w)).
Proof.
  rewrite conflicts_DetectConflicts.
  apply foldl_detect_duplicates_no_empty.
  apply detect_matches_conflicts, no_empty_record_empty.
Qed.

(** The conflicts recorded as [fileExists] are those of the matches whose
    target is found, in the order of the matches. *)
Lemma recorded_fileExists op w :
  recorded fileExists (DetectConflicts op w)
  = conflict_of <$> filter (target_found w) (matches op).
Proof.
  unfold recorded. rewrite conflicts_DetectConflicts.
  rewrite foldl_detect_duplicates_other by done.
  by destruct (detect_matches_conflicts w (fixConflicts op) (matches op) 0
    {| d_matches := matches op; d_conflicts := ∅; d_m := ∅ |}) as (_ & -> & _).
Qed.

Lemma recorded_emptyFilename op w :
  recorded emptyFilename (DetectConflicts op w)
  = conflict_of <$> filter (λ ch, Target ch = ".") (matches op).
Proof.
  unfold recorded. rewrite conflicts_DetectConflicts.
  rewrite foldl_detect_duplicates_other by done.
  by destruct (detect_matches_conflicts w (fixConflicts op) (matches op) 0
    {| d_matches := matches op; d_conflicts := ∅; d_m := ∅ |}) as (-> & _).
Qed.

(** C1, as amended.  [DetectConflicts] records a [fileExists] conflict for a
    change exactly when the target of the change is not ["."] and [os.Stat]
    of its full target path does not answer that the path does not exist,
    whether or not that path is the source of a change of the batch: the
    conflicts recorded are those of the changes of the batch for which this
    holds, one for each, in their order (and the kind is recorded only when
    there is one). *)
Theorem DetectConflicts_fileExists op (w : W) :
  conflicts (DetectConflicts op w) !! fileExists
  = match conflict_of <$> filter (target_found w) (matches op) with
    | [] => None
    | found => Some found
    end.
Proof.
  pose proof (recorded_fileExists op w) as Hrec. unfold recorded in Hrec.
  pose proof (DetectConflicts_no_empty_record op w fileExists) as Hne.
  destruct (conflicts (DetectConflicts op w) !! fileExists) as [l|]; simpl in Hrec.
  - rewrite <- Hrec. destruct l; [by destruct (Hne [])|done].
  - by rewrite <- Hrec.
Qed.

(** C9, as amended.  Whatever the batch, the matches before and after a
    change do not bear on how the change is classed.  A change whose target
    is not ["."] is recorded as a [fileExists] conflict when [os.Stat] of
    its full target path succeeds and when it fails with an error other than
    [os.ErrNotExist]; it is not when [os.Stat] answers that the path does
    not exist.  A change whose target is ["."] is never recorded as a
    [fileExists] conflict, whatever [os.Stat] answers for its full target
    path: it is recorded as an empty filename before the check is made. *)
Theorem DetectConflicts_stat_classification op (w : W) before ch after :
  recorded fileExists (DetectConflicts (set_matches (before ++ ch :: after) op) w)
  = recorded fileExists (DetectConflicts (set_matches before op) w)
    ++ match os_Stat w (filepath_Join (BaseDir ch) (Target ch)) with
       | stat_ok | stat_other_error =>
           if decide (Target ch = ".") then [] else [conflict_of ch]
       | stat_not_exist => []
       end
    ++ recorded fileExists (DetectConflicts (set_matches after op) w).
Proof.
  rewrite !recorded_fileExists. simpl.
  rewrite filter_app, filter_cons, fmap_app. f_equal.
  destruct (decide (target_found w ch)) as [[Hdot Hs]|Hnot]; simpl.
  - rewrite decide_False by done. by destruct (os_Stat w _).
  - destruct (os_Stat w _) eqn:Hs; [|done|];
      (destruct (decide (Target ch = ".")); [done|]);
      destruct Hnot; (split; [done|by rewrite Hs]).
Qed.

(** *** The search for duplicates *)

Lemma checked_target_spec w fix_ ch :
  checked_target w fix_ ch
  = if target_exists w (filepath_Join (BaseDir ch) (Target ch)) then
      if fix_
      then filepath_Join (BaseDir ch)
             (getNewPath w (filepath_Join (BaseDir ch) (Target ch)) (BaseDir ch) None)
      else filepath_Join (BaseDir ch) (Target ch)
    else filepath_Join (BaseDir ch) (Target ch).
Proof. unfold checked_target. by destruct (target_exists w _), fix_. Qed.

(** What the body of the first loop enters in [m] for one match. *)
Lemma detect_match_m w fix_ st i ch :
  d_m (detect_match w fix_ st i ch)
  = if decide (Target ch = ".") then d_m st
    else <[checked_target w fix_ ch :=
             default [] (d_m st !! checked_target w fix_ ch)
             ++ [(filepath_Join (BaseDir ch) (Source ch), i)]]> (d_m st).
Proof.
  unfold detect_match. rewrite checked_target_spec.
  destruct (String.eqb_spec (Target ch) ".") as [Hdot|Hdot].
  - by rewrite decide_True.
  - rewrite decide_False by done.
    by destruct (target_exists w _), fix_.
Qed.

Lemma detect_match_m_lookup w fix_ st i ch k :
  default [] (d_m (detect_match w fix_ st i ch) !! k)
  = default [] (d_m st !! k)
    ++ (if decide (competes w fix_ k ch)
        then [(filepath_Join (BaseDir ch) (Source ch), i)] else []).
Proof.
  rewrite detect_match_m. unfold competes.
  destruct (decide (Target ch = ".")) as [Hdot|Hdot].
  - rewrite decide_False by (by intros [? _]). by rewrite app_nil_r.
  - destruct (decide (checked_target w fix_ ch = k)) as [<-|Hk].
    + rewrite lookup_insert_eq. by rewrite decide_True.
    + rewrite lookup_insert_ne by done.
      rewrite decide_False by (by intros [_ ?]). by rewrite app_nil_r.
Qed.

Lemma detect_matches_m_lookup w fix_ rest k : ∀ i st,
  default [] (d_m (detect_matches w fix_ i rest st) !! k)
  = default [] (d_m st !! k) ++ group_entries w fix_ k i rest.
Proof.
  induction rest as [|ch rest IH]; intros i st; simpl.
  - by rewrite app_nil_r.
  - by rewrite IH, detect_match_m_lookup, <- app_assoc.
Qed.

Lemma group_entries_sources w fix_ k rest : ∀ i,
  (group_entries w fix_ k i rest).*1 = competitors w fix_ k rest.
Proof.
  unfold competitors.
  induction rest as [|ch rest IH]; intros i; simpl; [done|].
  rewrite fmap_app, IH, filter_cons.
  by destruct (decide (competes w fix_ k ch)).
Qed.

Lemma group_entries_index w fix_ k rest : ∀ i s j,
  (s, j) ∈ group_entries w fix_ k i rest →
  (i ≤ j)%nat ∧ ∃ ch, rest !! (j - i)%nat = Some ch ∧ competes w fix_ k ch.
Proof.
  induction rest as [|ch rest IH]; intros i s j; simpl.
  - by intros ?%elem_of_nil.
  - intros [Hin|Hin]%elem_of_app.
    + destruct (decide (competes w fix_ k ch)); [|by apply elem_of_nil in Hin].
      apply list_elem_of_singleton in Hin as [= -> ->].
      split; [done|]. exists ch. by rewrite Nat.sub_diag.
    + apply IH in Hin as (Hle & ch' & Hch' & Hc). split; [lia|].
      exists ch'. split; [|done].
      by replace (j - i)%nat with (S (j - S i)) by lia.
Qed.

(** The second loop adds to [m] only keys that hold no entry. *)
Lemma fix_duplicate_m_lookup w k st item k0 :
  default [] (d_m (fix_duplicate w k st item) !! k0) = default [] (d_m st !! k0).
Proof.
  unfold fix_duplicate. simpl.
  destruct (d_m st !! filepath_Join _ _) eqn:Hpt; [done|].
  destruct (decide (filepath_Join
    (default "" (BaseDir <$> d_matches st !! item.2))
    (getNewPath w k (default "" (BaseDir <$> d_matches st !! item.2)) (Some (d_m st)))
    = k0)) as [<-|Hk].
  - by rewrite lookup_insert_eq, Hpt.
  - by rewrite lookup_insert_ne.
Qed.

Lemma foldl_fix_duplicate_m_lookup w k items k0 : ∀ st,
  default [] (d_m (foldl (fix_duplicate w k) st items) !! k0)
  = default [] (d_m st !! k0).
Proof.
  induction items as [|item items IH]; intros st; simpl; [done|].
  by rewrite IH, fix_duplicate_m_lookup.
Qed.

Lemma detect_duplicates_m_lookup w fix_ st k k0 :
  default [] (d_m (detect_duplicates w fix_ st k) !! k0) = default [] (d_m st !! k0).
Proof.
  unfold detect_duplicates. destruct (1 <? _)%nat; [|done].
  destruct fix_; [|done]. by rewrite foldl_fix_duplicate_m_lookup.
Qed.

Lemma foldl_detect_duplicates_overwriting w fix_ ks : ∀ st,
  default [] (d_conflicts (foldl (detect_duplicates w fix_) st ks) !! overwritingNewPath)
  = default [] (d_conflicts st !! overwritingNewPath)
    ++ ((λ k, mkConflict (default [] (d_m st !! k)).*1 k)
        <$> filter (λ k, (2 ≤ length (default [] (d_m st !! k)))%nat) ks).
Proof.
  induction ks as [|k0 ks IH]; intros st; simpl.
  - by rewrite app_nil_r.
  - rewrite IH, detect_duplicates_conflicts, filter_cons.
    assert (∀ k, default [] (d_m (detect_duplicates w fix_ st k0) !! k)
                 = default [] (d_m st !! k)) as Hm
      by (intros; apply detect_duplicates_m_lookup).
    erewrite (list_filter_iff _ (λ k, (2 ≤ length (default [] (d_m st !! k)))%nat));
      [|intros k; by rewrite Hm].
    erewrite (list_fmap_ext _ (λ k, mkConflict (default [] (d_m st !! k)).*1 k));
      [|intros ? k _; by rewrite Hm].
    destruct (1 <? _)%nat eqn:Hlen.
    + apply Nat.ltb_lt in Hlen. rewrite decide_True by lia.
      rewrite lookup_add_conflict. simpl. by rewrite <- app_assoc.
    + apply Nat.ltb_ge in Hlen. by rewrite decide_False by lia.
Qed.

(** The conflicts recorded as [overwritingNewPath]: one for each key of [m]
    with two entries or more, in the order in which [range] visits [m]. *)
Lemma recorded_overwritingNewPath op w :
  let m := d_m (detect_matches w (fixConflicts op) 0 (matches op)
                  {| d_matches := matches op; d_conflicts := ∅; d_m := ∅ |}) in
  recorded overwritingNewPath (DetectConflicts op w)
  = (λ k, mkConflict (competitors w (fixConflicts op) k (matches op)) k)
    <$> filter (λ k, (2 ≤ length (competitors w (fixConflicts op) k (matches op)))%nat)
          (range_order m).
Proof.
  intros m. unfold recorded. rewrite conflicts_DetectConflicts.
  rewrite foldl_detect_duplicates_overwriting.
  destruct (detect_matches_conflicts w (fixConflicts op) (matches op) 0
    {| d_matches := matches op; d_conflicts := ∅; d_m := ∅ |}) as (_ & _ & -> & _).
  simpl. rewrite lookup_empty. simpl.
  assert (∀ k, (default [] (m !! k)).*1
               = competitors w (fixConflicts op) k (matches op)) as Hm.
  { intros k. unfold m. rewrite detect_matches_m_lookup. simpl.
    rewrite lookup_empty. simpl. apply group_entries_sources. }
  fold m.
  rewrite (list_filter_iff _ (λ k, (2 ≤ length (competitors w (fixConflicts op) k (matches op)))%nat)).
  2: { intros k. by rewrite <- (Hm k), length_fmap. }
  apply list_fmap_ext. intros _ k _. by rewrite Hm.
Qed.

Lemma range_order_elem_of (m : gmap string (list indexed_source)) k :
  k ∈ range_order m ↔ is_Some (m !! k).
Proof.
  rewrite (range_order_keys m), list_elem_of_fmap. split.
  - intros ([k' v] & -> & Hkv%elem_of_map_to_list). by eexists.
  - intros [v Hv]. exists (k, v). split; [done|]. by apply elem_of_map_to_list.
Qed.

Lemma range_order_NoDup (m : gmap string (list indexed_source)) :
  NoDup (range_order m).
Proof. rewrite (range_order_keys m). apply NoDup_fst_map_to_list. Qed.

(** *** The matches the loops leave *)

(** The body of the first loop writes to the match of its index only. *)
Lemma detect_match_matches_ne w fix_ st i ch j :
  i ≠ j → d_matches (detect_match w fix_ st i ch) !! j = d_matches st !! j.
Proof.
  intros Hij. unfold detect_match.
  destruct (String.eqb (Target ch) "."); simpl.
  - destruct fix_; [|done]. by apply list_lookup_alter_ne.
  - destruct (target_exists w _); [|done].
    destruct fix_; simpl; [|done]. by apply list_lookup_alter_ne.
Qed.

Lemma detect_matches_matches_before w fix_ rest j : ∀ i st,
  (j < i)%nat →
  d_matches (detect_matches w fix_ i rest st) !! j = d_matches st !! j.
Proof.
  induction rest as [|ch rest IH]; intros i st Hj; simpl; [done|].
  rewrite IH by lia. apply detect_match_matches_ne. lia.
Qed.

(** With the fix, the first loop gives a match whose target is ["."] its
    source for target. *)
Lemma detect_matches_matches_empty w rest : ∀ i st j ch x,
  rest !! j = Some ch → Target ch = "." →
  d_matches st !! (i + j)%nat = Some x →
  d_matches (detect_matches w true i rest st) !! (i + j)%nat
  = Some (set_Target (Source ch) x).
Proof.
  induction rest as [|ch0 rest IH]; intros i st j ch x Hch Hdot Hx; [done|].
  destruct j as [|j]; simpl in *.
  - injection Hch as ->. rewrite Nat.add_0_r in *.
    rewrite detect_matches_matches_before by lia.
    unfold detect_match. rewrite Hdot. simpl.
    rewrite list_lookup_alter, decide_True by done. by rewrite Hx.
  - replace (i + S j)%nat with (S i + j)%nat in * by lia.
    apply IH; [done..|].
    rewrite detect_match_matches_ne by lia. done.
Qed.

Lemma foldl_fix_duplicate_matches_other w k items j : ∀ st,
  j ∉ items.*2 →
  d_matches (foldl (fix_duplicate w k) st items) !! j = d_matches st !! j.
Proof.
  induction items as [|item items IH]; intros st Hj; simpl; [done|].
  rewrite fmap_cons, not_elem_of_cons in Hj. destruct Hj as [Hne Hj].
  rewrite IH by done. unfold fix_duplicate. simpl.
  by apply list_lookup_alter_ne.
Qed.

(** The second loop writes to matches entered in [m] only. *)
Lemma foldl_detect_duplicates_matches_other w fix_ ks j : ∀ st,
  (∀ k, j ∉ (default [] (d_m st !! k)).*2) →
  d_matches (foldl (detect_duplicates w fix_) st ks) !! j = d_matches st !! j.
Proof.
  induction ks as [|k0 ks IH]; intros st Hj; simpl; [done|].
  rewrite IH.
  - unfold detect_duplicates. destruct (1 <? _)%nat; [|done].
    destruct fix_; [|done].
    rewrite foldl_fix_duplicate_matches_other; [done|].
    intros Hin. apply (Hj k0).
    destruct (default [] (d_m st !! k0)) as [|item items]; [done|].
    simpl in *. by right.
  - intros k. by rewrite detect_duplicates_m_lookup.
Qed.

(** The changes whose target is ["."] do not compete. *)
Lemma competitors_filter w fix_ k ms :
  competitors w fix_ k (filter (λ ch, Target ch ≠ ".") ms) = competitors w fix_ k ms.
Proof.
  unfold competitors. f_equal. rewrite list_filter_filter.
  apply list_filter_iff. intros ch. unfold competes. tauto.
Qed.

Lemma elem_of_recorded_overwritingNewPath op w c :
  c ∈ recorded overwritingNewPath (DetectConflicts op w)
  ↔ ∃ k, c = mkConflict (competitors w (fixConflicts op) k (matches op)) k
         ∧ (2 ≤ length (competitors w (fixConflicts op) k (matches op)))%nat.
Proof.
  pose proof (recorded_overwritingNewPath op w) as Hrec. simpl in Hrec.
  set (m := d_m (detect_matches w (fixConflicts op) 0 (matches op) _)) in *.
  rewrite Hrec, list_elem_of_fmap. split.
  - intros (k & -> & [Hlen _]%list_elem_of_filter). by exists k.
  - intros (k & -> & Hlen). exists k. split; [done|].
    apply list_elem_of_filter. split; [done|].
    apply range_order_elem_of.
    rewrite <- group_entries_sources with (i := O), length_fmap in Hlen.
    unfold m. pose proof (detect_matches_m_lookup w (fixConflicts op) (matches op) k 0
      {| d_matches := matches op; d_conflicts := ∅; d_m := ∅ |}) as Hm.
    simpl in Hm. rewrite lookup_empty in Hm. simpl in Hm. rewrite <- Hm in Hlen.
    destruct (d_m _ !! k); [by eexists|simpl in Hlen; lia].
Qed.

Lemma NoDup_recorded_overwritingNewPath op w :
  NoDup (target <$> recorded overwritingNewPath (DetectConflicts op w)).
Proof.
  rewrite recorded_overwritingNewPath, <- list_fmap_compose. simpl.
  rewrite list_fmap_id. apply NoDup_filter, range_order_NoDup.
Qed.

(** C7, as amended.  A change whose target is ["."] is recorded as an empty
    filename and, with the fix, leaves [DetectConflicts] with its source for
    target; it does not take part in the search for duplicates: the
    [overwritingNewPath] conflicts recorded are those of the batch without
    such changes.  A conflict [overwritingNewPath] is recorded for a path
    exactly when two changes or more whose target is not ["."] have that path
    for checked target (the full target path, or the path [getNewPath] gave
    in its place); it lists the sources of those changes, and each such path
    is recorded once. *)
Theorem DetectConflicts_duplicates op (w : W) :
  (∀ c, c ∈ recorded overwritingNewPath (DetectConflicts op w)
        ↔ ∃ k, c = mkConflict (competitors w (fixConflicts op) k (matches op)) k
               ∧ (2 ≤ length (competitors w (fixConflicts op) k (matches op)))%nat)
  ∧ NoDup (target <$> recorded overwritingNewPath (DetectConflicts op w))
  ∧ recorded overwritingNewPath (DetectConflicts op w)
    ≡ₚ recorded overwritingNewPath
         (DetectConflicts (set_matches (filter (λ ch, Target ch ≠ ".") (matches op)) op) w)
  ∧ (∀ i ch, matches op !! i = Some ch → Target ch = "." →
       conflict_of ch ∈ recorded emptyFilename (DetectConflicts op w)
       ∧ (fixConflicts op = true →
          matches (DetectConflicts op w) !! i = Some (set_Target (Source ch) ch))).
Proof.
  split_and!.
  - apply elem_of_recorded_overwritingNewPath.
  - apply NoDup_recorded_overwritingNewPath.
  - apply NoDup_Permutation.
    + eapply NoDup_fmap_1, NoDup_recorded_overwritingNewPath.
    + eapply NoDup_fmap_1, NoDup_recorded_overwritingNewPath.
    + intros c. rewrite !elem_of_recorded_overwritingNewPath. simpl.
      by setoid_rewrite competitors_filter.
  - intros i ch Hi Hdot. split.
    + rewrite recorded_emptyFilename. apply list_elem_of_fmap.
      exists ch. split; [done|]. apply list_elem_of_filter. split; [done|].
      by apply list_elem_of_lookup_2 in Hi.
    + intros Hfix.
      set (st0 := {| d_matches := matches op; d_conflicts := ∅; d_m := ∅ |}).
      change (matches (DetectConflicts op w))
        with (d_matches (foldl (detect_duplicates w (fixConflicts op))
                (detect_matches w (fixConflicts op) 0 (matches op) st0)
                (range_order
                   (d_m (detect_matches w (fixConflicts op) 0 (matches op) st0))))).
      rewrite foldl_detect_duplicates_matches_other.
      * rewrite Hfix.
        by apply (detect_matches_matches_empty w (matches op) 0 st0 i ch ch).
      * intros k. rewrite detect_matches_m_lookup. simpl. rewrite lookup_empty. simpl.
        intros ([s j] & Hj & Hin)%list_elem_of_fmap. simpl in Hj. subst j.
        apply group_entries_index in Hin as (_ & ch' & Hch' & [Hdot' _]).
        rewrite Nat.sub_0_r, Hi in Hch'. congruence.
Qed.

End Detect_proofs.

(** C1, as stated, fails: the target [b.txt] of the first change exists and
    is the source of the second change of the batch; it is recorded as a
    [fileExists] conflict all the same. *)
Lemma DetectConflicts_fileExists_counterexample :
  conflicts
    (DetectConflicts
       (operation false false false 1 "" "" ""
          [mkChange "." "a.txt" "b.txt" false; mkChange "." "b.txt" "c.txt" false])
       (world_of ["a.txt"; "b.txt"])) !! fileExists
  = Some [mkConflict ["a.txt"] "b.txt"]
  ∧ filepath_Join "." "b.txt" = "b.txt".
Proof. split; reflexivity. Qed.

(** C9, as stated, fails: the target of the change is ["."], its full
    target path is its base directory [d], and [os.Stat] of that path
    succeeds; the change is not recorded as a [fileExists] conflict (it is
    recorded as an empty filename). *)
Lemma DetectConflicts_stat_classification_counterexample :
  let w := world_of ["d"; "d/a.txt"] in
  let op' :=
    DetectConflicts
      (operation false false false 1 "" "" "" [mkChange "d" "a.txt" "." false]) w in
  filepath_Join "d" "." = "d"
  ∧ os_Stat w "d" = stat_ok
  ∧ conflicts op' !! fileExists = None
  ∧ conflicts op' !! emptyFilename = Some [mkConflict ["d/a.txt"] "d"].
Proof. vm_compute. repeat split. Qed.

(** C7, as stated, fails: the first change has an empty name, and the fix
    gives it its source [a.txt] for target; the second change has that same
    path for target.  No [overwritingNewPath] conflict is recorded: the
    second change is recorded as a [fileExists] conflict. *)
Lemma DetectConflicts_duplicates_counterexample :
  let op' :=
    DetectConflicts
      (operation false true false 1 "" "" ""
         [mkChange "." "a.txt" "." false; mkChange "." "b.txt" "a.txt" false])
      (world_of ["a.txt"; "b.txt"]) in
  conflicts op' !! overwritingNewPath = None
  ∧ conflicts op' !! emptyFilename = Some [mkConflict ["a.txt"] "."]
  ∧ conflicts op' !! fileExists = Some [mkConflict ["b.txt"] "a.txt"]
  ∧ Target <$> matches op' !! 0%nat = Some "a.txt".
Proof. vm_compute. repeat split. Qed.

(** The witness of C7 as amended, on the batch of the counterexample: the
    change of empty name leaves with its source for target. *)
Lemma DetectConflicts_duplicates_witness :
  matches
    (DetectConflicts
       (operation false true false 1 "" "" ""
          [mkChange "." "a.txt" "." false; mkChange "." "b.txt" "a.txt" false])
       (world_of ["a.txt"; "b.txt"])) !! 0%nat
  = Some (mkChange "." "a.txt" "a.txt" false).
Proof.
  exact (proj2 (proj2 (proj2 (proj2
    (DetectConflicts_duplicates
       (operation false true false 1 "" "" ""
          [mkChange "." "a.txt" "." false; mkChange "." "b.txt" "a.txt" false])
       (world_of ["a.txt"; "b.txt"]))))
    0%nat (mkChange "." "a.txt" "." false) eq_refl eq_refl) eq_refl).
Defined.

(** *** A batch without conflict *)

Lemma list_filter_False {A} (P : A → Prop) `{∀ x, Decision (P x)} (l : list A) :
  Forall (λ x, ¬ P x) l → filter P l = [].
Proof.
  induction 1 as [|x l Hx _ IH]; [done|]. by rewrite filter_cons_False.
Qed.

Lemma length_filter_key_NoDup {A B} `{EqDecision B} (f : A → B) (l : list A) :
  NoDup (f <$> l) ↔ ∀ k, (length (filter (λ x, f x = k) l) ≤ 1)%nat.
Proof.
  induction l as [|x l IH]; simpl.
  - split; [intros _ k; simpl; lia|intros _; constructor].
  - rewrite NoDup_cons, IH. split.
    + intros [Hx Hl] k. rewrite filter_cons.
      destruct (decide (f x = k)) as [<-|]; [|apply Hl].
      simpl. replace (filter (λ y, f y = f x) l) with (@nil A); [simpl; lia|].
      symmetry. apply list_filter_False. apply Forall_forall.
      intros y Hy Hfy. apply Hx. apply list_elem_of_fmap. by exists y.
    + intros Hk. split.
      * intros (y & Hfy & Hy)%list_elem_of_fmap.
        specialize (Hk (f x)). rewrite filter_cons, decide_True in Hk by done.
        simpl in Hk.
        assert (y ∈ filter (λ y, f y = f x) l) as Hin
          by (apply list_elem_of_filter; split; [done|done]).
        destruct (filter _ l); [by apply elem_of_nil in Hin|simpl in Hk; lia].
      * intros k. specialize (Hk k). rewrite filter_cons in Hk.
        destruct (decide (f x = k)); simpl in Hk; lia.
Qed.

Section Clean.
Context {W : Type} `{!Platform W}.

Lemma target_free_not_found w ch :
  target_free w ch ↔ Target ch ≠ "." ∧ ¬ target_found w ch.
Proof.
  unfold target_free, target_found.
  destruct (os_Stat w _); intuition congruence.
Qed.

Lemma competitors_free w fix_ k ms :
  Forall (target_free w) ms →
  competitors w fix_ k ms = full_source <$> filter (λ ch, full_target ch = k) ms.
Proof.
  intros Hfree. unfold competitors. f_equal.
  induction Hfree as [|ch ms [Hdot Hstat] _ IH]; [done|].
  rewrite !filter_cons, IH.
  assert (competes w fix_ k ch ↔ full_target ch = k) as Hiff.
  { unfold competes, checked_target, target_exists, full_target.
    rewrite Hstat. simpl. tauto. }
  destruct (decide (full_target ch = k)).
  - by rewrite decide_True by (by apply Hiff).
  - by rewrite decide_False by (by rewrite Hiff).
Qed.

(** The first loop leaves the matches of a batch whose targets are free as
    they are. *)
Lemma detect_matches_free w fix_ rest : ∀ i st,
  Forall (target_free w) rest →
  d_matches (detect_matches w fix_ i rest st) = d_matches st.
Proof.
  induction rest as [|ch rest IH]; intros i st Hfree; simpl; [done|].
  inversion Hfree as [|?? [Hdot Hstat] Hrest]; subst.
  rewrite IH by done. unfold detect_match, target_exists.
  apply String.eqb_neq in Hdot. by rewrite Hdot, Hstat.
Qed.

(** The second loop leaves the state as it is when no key of [m] holds two
    entries. *)
Lemma foldl_detect_duplicates_none w fix_ ks : ∀ st,
  (∀ k, (length (default [] (d_m st !! k)) ≤ 1)%nat) →
  foldl (detect_duplicates w fix_) st ks = st.
Proof.
  induction ks as [|k0 ks IH]; intros st Hlen; simpl; [done|].
  assert (detect_duplicates w fix_ st k0 = st) as ->; [|by apply IH].
  unfold detect_duplicates. specialize (Hlen k0).
  by replace (1 <? _)%nat with false by (symmetry; apply Nat.ltb_ge; lia).
Qed.

Lemma conflicts_empty_recorded op :
  no_empty_record (conflicts op) →
  conflicts op = ∅ ↔ ∀ k, recorded k op = [].
Proof.
  intros Hne. unfold recorded. split.
  - intros -> k. by rewrite lookup_empty.
  - intros Hk. apply map_eq. intros k. rewrite lookup_empty.
    specialize (Hk k). destruct (conflicts op !! k) as [l|] eqn:Hl; [|done].
    simpl in Hk. subst l. by destruct (Hne k [] Hl).
Qed.

(** [DetectConflicts] records no conflict exactly when every target is free
    and no two changes have the same full target path; it then leaves the
    matches as they are. *)
Lemma DetectConflicts_clean op w :
  conflicts (DetectConflicts op w) = ∅
  ↔ Forall (target_free w) (matches op) ∧ NoDup (full_target <$> matches op).
Proof.
  rewrite (conflicts_empty_recorded _ (DetectConflicts_no_empty_record op w)).
  split.
  - intros Hk.
    assert (Forall (target_free w) (matches op)) as Hfree.
    { pose proof (Hk emptyFilename) as He. pose proof (Hk fileExists) as Hx.
      rewrite recorded_emptyFilename in He. rewrite recorded_fileExists in Hx.
      apply fmap_nil_inv in He, Hx.
      apply Forall_forall. intros ch Hch. apply target_free_not_found. split.
      - intros Hdot. by eapply (filter_nil_not_elem_of _ _ ch He).
      - intros Hf. by eapply (filter_nil_not_elem_of _ _ ch Hx). }
    split; [done|].
    apply length_filter_key_NoDup. intros k.
    destruct (decide (2 ≤ length (filter (λ ch, full_target ch = k) (matches op)))%nat)
      as [Hlen|]; [|lia].
    specialize (Hk overwritingNewPath).
    assert (mkConflict (competitors w (fixConflicts op) k (matches op)) k
            ∈ recorded overwritingNewPath (DetectConflicts op w)) as Hin.
    { apply elem_of_recorded_overwritingNewPath. exists k. split; [done|].
      by rewrite competitors_free, length_fmap. }
    rewrite Hk in Hin. by apply elem_of_nil in Hin.
  - intros [Hfree Hdup] [| |].
    + rewrite recorded_emptyFilename.
      rewrite list_filter_False; [done|].
      eapply Forall_impl; [done|]. intros ch Hch. unfold target_free in Hch. tauto.
    + rewrite recorded_fileExists.
      rewrite list_filter_False; [done|].
      eapply Forall_impl; [done|]. intros ch Hch.
      apply target_free_not_found in Hch. tauto.
    + destruct (recorded overwritingNewPath (DetectConflicts op w)) as [|c l] eqn:Hrec;
        [done|].
      assert (c ∈ recorded overwritingNewPath (DetectConflicts op w)) as Hin
        by (rewrite Hrec; left).
      apply elem_of_recorded_overwritingNewPath in Hin as (k & _ & Hlen).
      rewrite competitors_free, length_fmap in Hlen by done.
      pose proof (proj1 (length_filter_key_NoDup full_target (matches op)) Hdup k).
      lia.
Qed.

Lemma DetectConflicts_clean_matches op w :
  conflicts (DetectConflicts op w) = ∅ → matches (DetectConflicts op w) = matches op.
Proof.
  intros [Hfree Hdup]%DetectConflicts_clean.
  set (st0 := {| d_matches := matches op; d_conflicts := ∅; d_m := ∅ |}).
  change (matches (DetectConflicts op w))
    with (d_matches (foldl (detect_duplicates w (fixConflicts op))
            (detect_matches w (fixConflicts op) 0 (matches op) st0)
            (range_order (d_m (detect_matches w (fixConflicts op) 0 (matches op) st0))))).
  rewrite foldl_detect_duplicates_none.
  - by rewrite detect_matches_free.
  - intros k. rewrite detect_matches_m_lookup. simpl. rewrite lookup_empty. simpl.
    rewrite <- (length_fmap fst), group_entries_sources, competitors_free by done.
    rewrite length_fmap. by apply length_filter_key_NoDup.
Qed.

End Clean.

(** ** Applying the changes: [Apply] *)

Section Apply_proofs.
Context {W : Type} `{!Platform W}.

(** The loop of [Apply] makes calls to the file system only, and none when
    the operation is not executed. *)
Lemma apply_matches_events exec_ rest : ∀ w,
  Forall (λ e, mutates e = true ∧ reports_conflicts e = false)
    (apply_matches exec_ rest w).1.2.
Proof.
  induction rest as [|ch rest IH]; intros w; simpl; [done|].
  destruct exec_; [|apply IH].
  destruct (strings_Contains (Target ch) "/").
  - destruct (os_MkdirAll _ w) as [w1 [e|]]; simpl; [by repeat constructor|].
    destruct (os_Rename _ _ w1) as [w2 [e|]]; simpl; [by repeat constructor|].
    specialize (IH w2). destruct (apply_matches true rest w2) as [[w3 ev3] err3].
    simpl in *. by repeat constructor.
  - destruct (os_Rename _ _ w) as [w2 [e|]]; simpl; [by repeat constructor|].
    specialize (IH w2). destruct (apply_matches true rest w2) as [[w3 ev3] err3].
    simpl in *. by repeat constructor.
Qed.

(** The table of [ReportConflicts] has the rows of every conflict recorded:
    one for each empty filename, one for each path that exists, and one for
    each source of each path that several changes would overwrite. *)
Lemma ReportConflicts_rows op :
  ReportConflicts op
  = ((λ v, [strings_Join (source v) ""; ""; red "❌ [Empty filename]"])
     <$> recorded emptyFilename op)
    ++ ((λ v, [strings_Join (source v) ""; target v; red "❌ [Path already exists]"])
        <$> recorded fileExists op)
    ++ (recorded overwritingNewPath op
        ≫= λ v, (λ s, [s; target v; red "❌ [Overwriting newly renamed path]"])
                 <$> source v).
Proof.
  unfold ReportConflicts, recorded.
  by destruct (conflicts op !! emptyFilename), (conflicts op !! fileExists),
    (conflicts op !! overwritingNewPath).
Qed.

Lemma conflicts_detected (cs : gmap conflict (list Conflict)) :
  (0 <? size cs)%nat = true ↔ cs ≠ ∅.
Proof.
  rewrite Nat.ltb_lt, <- map_size_non_empty_iff. lia.
Qed.

Lemma matches_nonempty (ms : list Change) :
  ms ≠ [] → (length ms =? 0)%nat = false.
Proof. by destruct ms. Qed.

(** What [Apply] does when conflicts are detected and are not to be fixed. *)
Lemma Apply_refusal op w :
  matches op ≠ [] → conflicts (DetectConflicts op w) ≠ ∅ → fixConflicts op = false →
  Apply op w
  = {| out_op := DetectConflicts op w; out_world := w;
       out_events :=
         [printTable_conflicts (ReportConflicts (DetectConflicts op w));
          Fprintln_Stderr "Conflict detected! Please resolve before proceeding"];
       out_err :=
         Some ("Or append the " +:+ yellow "-F" +:+ " flag to fix conflicts automatically") |}.
Proof.
  intros Hms Hcs Hfix. unfold Apply.
  rewrite matches_nonempty by done.
  apply conflicts_detected in Hcs. rewrite Hcs.
  change (fixConflicts (DetectConflicts op w)) with (fixConflicts op).
  by rewrite Hfix.
Qed.

(** What [Apply] prints and calls when it goes on to the changes. *)
Lemma Apply_proceeds_events op w :
  matches op ≠ [] →
  (conflicts (DetectConflicts op w) = ∅ ∨ fixConflicts op = true) →
  Forall (λ e, reports_conflicts e = false) (out_events (Apply op w)).
Proof.
  intros Hms Hgo. unfold Apply.
  rewrite matches_nonempty by done.
  change (fixConflicts (DetectConflicts op w)) with (fixConflicts op).
  replace ((0 <? size (conflicts (DetectConflicts op w)))%nat && negb (fixConflicts op))
    with false.
  2: { destruct Hgo as [-> | ->]; [done|]. by rewrite andb_false_r. }
  pose proof (apply_matches_events (exec (DetectConflicts op w))
    (matches (DetectConflicts op w)) w) as Hev.
  destruct (apply_matches _ _ w) as [[w1 ev] [e|]]; simpl in *.
  - eapply Forall_impl; [done|]. by intros ? [_ ?].
  - destruct (exec _ && _ && _); [|destruct (negb _ && _)]; simpl.
    + unfold WriteToFile. destruct (os_write_map_file _ _ w1). simpl.
      apply Forall_app. split; [|by repeat constructor].
      eapply Forall_impl; [done|]. by intros ? [_ ?].
    + apply Forall_app. split; [|by repeat constructor].
      eapply Forall_impl; [done|]. by intros ? [_ ?].
    + eapply Forall_impl; [done|]. by intros ? [_ ?].
Qed.

(** C5.  For a non-empty list of matches on which [DetectConflicts] records
    a conflict, with the fix off, [Apply] returns an error, leaves the world
    as it was, and makes no call that changes the file system: no
    [os.MkdirAll], no [os.Rename], and no undo record is written. *)
Theorem Apply_refuses_without_mutation op (w : W) :
  matches op ≠ [] →
  conflicts (DetectConflicts op w) ≠ ∅ →
  fixConflicts op = false →
  out_err (Apply op w)
  = Some ("Or append the " +:+ yellow "-F" +:+ " flag to fix conflicts automatically")
  ∧ out_world (Apply op w) = w
  ∧ Forall (λ e, mutates e = false) (out_events (Apply op w)).
Proof.
  intros Hms Hcs Hfix. rewrite Apply_refusal by done. simpl.
  split_and!; [done..|]. by repeat constructor.
Qed.

(** C3, as amended.  When [Apply] detects a conflict, the conflicts detected
    are printed by [ReportConflicts] when the fix is off, and only then: the
    table then has the rows of every conflict recorded, of the three kinds;
    with the fix on, [Apply] prints no table of conflicts. *)
Theorem Apply_reports_conflicts_unless_fixing op (w : W) :
  matches op ≠ [] →
  conflicts (DetectConflicts op w) ≠ ∅ →
  (fixConflicts op = false →
   ∃ data,
     printTable_conflicts data ∈ out_events (Apply op w)
     ∧ data
       = ((λ v, [strings_Join (source v) ""; ""; red "❌ [Empty filename]"])
          <$> recorded emptyFilename (DetectConflicts op w))
         ++ ((λ v, [strings_Join (source v) ""; target v;
                    red "❌ [Path already exists]"])
             <$> recorded fileExists (DetectConflicts op w))
         ++ (recorded overwritingNewPath (DetectConflicts op w)
             ≫= λ v, (λ s, [s; target v; red "❌ [Overwriting newly renamed path]"])
                      <$> source v))
  ∧ (fixConflicts op = true →
     Forall (λ e, reports_conflicts e = false) (out_events (Apply op w))).
Proof.
  intros Hms Hcs. split; intros Hfix.
  - exists (ReportConflicts (DetectConflicts op w)).
    split; [|apply ReportConflicts_rows].
    rewrite Apply_refusal by done. simpl. by left.
  - apply Apply_proceeds_events; auto.
Qed.

End Apply_proofs.

(** The witness of C5: a change with an empty name, the fix off, executing. *)
Lemma Apply_refuses_without_mutation_witness :
  let op := operation true false false 1 "" "map.json" ""
              [mkChange "." "a.txt" "." false] in
  out_err (Apply op (world_of ["a.txt"]))
  = Some "Or append the -F flag to fix conflicts automatically"
  ∧ out_world (Apply op (world_of ["a.txt"])) = world_of ["a.txt"]
  ∧ Forall (λ e, mutates e = false) (out_events (Apply op (world_of ["a.txt"]))).
Proof.
  refine (Apply_refuses_without_mutation
            (operation true false false 1 "" "map.json" ""
               [mkChange "." "a.txt" "." false]) (world_of ["a.txt"]) _ _ _).
  - discriminate.
  - intros Hcs. apply (f_equal (λ cs, cs !! emptyFilename)) in Hcs. discriminate.
  - reflexivity.
Defined.

(** C3, as stated, fails: a conflict is detected and fixed, and [Apply]
    prints the changes only. *)
Lemma Apply_reports_conflicts_counterexample :
  let r := Apply (operation false true false 1 "" "" ""
                    [mkChange "." "a.txt" "." false]) (world_of ["a.txt"]) in
  conflicts (out_op r) !! emptyFilename = Some [mkConflict ["a.txt"] "."]
  ∧ out_events r
    = [printTable_changes [["a.txt"; "a.txt"; "ok"]];
       Println "Append the -x flag to apply the above changes"].
Proof. split; reflexivity. Qed.

(** The witness of C3 as amended: the same change, with the fix off. *)
Lemma Apply_reports_conflicts_unless_fixing_witness :
  printTable_conflicts [["a.txt"; ""; "❌ [Empty filename]"]]
  ∈ out_events
      (Apply (operation false false false 1 "" "" "" [mkChange "." "a.txt" "." false])
         (world_of ["a.txt"])).
Proof.
  destruct (Apply_reports_conflicts_unless_fixing
              (operation false false false 1 "" "" "" [mkChange "." "a.txt" "." false])
              (world_of ["a.txt"])) as [Hoff _].
  - discriminate.
  - intros Hcs. apply (f_equal (λ cs, cs !! emptyFilename)) in Hcs. discriminate.
  - destruct (Hoff eq_refl) as (data & Hin & ->). exact Hin.
Defined.

(** ** Undoing a batch: [Undo] *)

Lemma String_ltb_asym a b : String.ltb a b = true → String.ltb b a = false.
Proof.
  unfold String.ltb. rewrite (String.compare_antisym a b).
  by destruct (b ?= a)%string.
Qed.

Lemma String_ltb_irrefl a : String.ltb a a = false.
Proof.
  destruct (String.ltb a a) eqn:Hlt; [|done].
  pose proof (String_ltb_asym a a Hlt). congruence.
Qed.

(** The list [Undo] passes to [Apply]: the changes of the record with source
    and target swapped, sorted by base directory. *)
Lemma Undo_plan_sorted (log : list Change) :
  let plan := sort_SliceStable_ordered undo_less (swap_change <$> log) in
  plan ≡ₚ swap_change <$> log
  ∧ Sorted (λ a b, String.ltb (BaseDir b) (BaseDir a) = false) plan
  ∧ ∀ dir, filter (λ ch, BaseDir ch = dir) plan
           = swap_change <$> filter (λ ch, BaseDir ch = dir) log.
Proof.
  simpl. unfold sort_SliceStable_ordered. split_and!.
  - apply insertionSort_Permutation.
  - apply (insertionSort_Sorted undo_less).
    intros a b. apply String_ltb_asym.
  - intros dir. rewrite insertionSort_filter.
    + induction log as [|ch log IH]; [done|].
      rewrite fmap_cons, !filter_cons, IH. simpl.
      by destruct (decide (BaseDir ch = dir)).
    + intros x y Hx Hy. unfold undo_less. rewrite Hx, Hy. apply String_ltb_irrefl.
Qed.

(** C8, at two inputs on which the guarantee fails.

    An empty name, fixed.  The batch renames [b.txt] to [c.txt] and has a
    change of empty name for [a.txt], which the fix leaves with its source
    for target; it is executed without an error and the record is written
    with both changes.  [Undo] detects conflicts as any [Apply] does: the
    target [a.txt] of the first change of the record exists, the undo is
    refused and [c.txt] is not renamed back.

    A directory whose name comes before that of its parent.  The batch
    renames [a.txt] of the directory [(old)] to [b.txt] and then the
    directory [(old)] of the current directory to [old]; it is executed
    without an error.  [Undo] sorts the swapped changes by base directory as
    texts: ["(old)"] is less than ["."], the change of the file stays before
    that of the directory it lies in, and its rename fails, the directory
    [(old)] not being there yet; nothing is renamed back. *)
Lemma Undo_does_not_restore :
  (let op := operation true true false 1 "" "map.json" ""
               [mkChange "." "a.txt" "." false; mkChange "." "b.txt" "c.txt" false] in
   let record := [mkChange "." "a.txt" "a.txt" false; mkChange "." "b.txt" "c.txt" false] in
   let fwd := Apply op (world_of ["a.txt"; "b.txt"]) in
   let und := Undo (operation true false false 1 "" "" "map.json" []) (out_world fwd) in
   out_err fwd = None
   ∧ out_events fwd
     = [Rename "a.txt" "a.txt"; Rename "b.txt" "c.txt";
        Create "map.json" {| Date := "2021-01-01T00:00:00Z"; Operations := record |}]
   ∧ os_read_map_file (out_world fwd) "map.json"
     = inr {| Date := "2021-01-01T00:00:00Z"; Operations := record |}
   ∧ out_err und = Some "Or append the -F flag to fix conflicts automatically"
   ∧ out_events und
     = [printTable_conflicts [["a.txt"; "a.txt"; "❌ [Path already exists]"]];
        Fprintln_Stderr "Conflict detected! Please resolve before proceeding"]
   ∧ os_Stat (out_world und) "b.txt" = stat_not_exist
   ∧ os_Stat (out_world und) "c.txt" = stat_ok)
  ∧ (let op := operation true false true 1 "" "map.json" ""
                 [mkChange "(old)" "a.txt" "b.txt" false; mkChange "." "(old)" "old" true] in
     let fwd := Apply op (world_of ["(old)"; "(old)/a.txt"]) in
     let und := Undo (operation true false false 1 "" "" "map.json" []) (out_world fwd) in
     out_err fwd = None
     ∧ out_events fwd
       = [Rename "(old)/a.txt" "(old)/b.txt"; Rename "(old)" "old";
          Create "map.json"
            {| Date := "2021-01-01T00:00:00Z"; Operations := matches op |}]
     ∧ entries (out_world fwd) = list_to_set ["old"; "old/b.txt"; "map.json"]
     ∧ os_read_map_file (out_world fwd) "map.json"
       = inr {| Date := "2021-01-01T00:00:00Z"; Operations := matches op |}
     ∧ String.ltb "(old)" "." = true
     ∧ matches (out_op und)
       = [mkChange "(old)" "b.txt" "a.txt" false; mkChange "." "old" "(old)" true]
     ∧ out_err und
       = Some "An error occurred while renaming '(old)/b.txt' to '(old)/a.txt'"
     ∧ out_events und = [Rename "(old)/b.txt" "(old)/a.txt"]
     ∧ entries (out_world und) = list_to_set ["old"; "old/b.txt"; "map.json"]).
Proof. vm_compute. repeat split. Qed.

(** The example of the specification, the directories [/a] and [/a/b] and a
    file of [/a/b], is renamed back: the record is read, the changes are
    swapped, the parent directories come first, and the entries are those
    there were, with the record. *)
Lemma Undo_restores_example :
  let op := operation true false true 1 "" "map.json" ""
              [mkChange "/a/b" "f" "g" false; mkChange "/a" "b" "c" true;
               mkChange "/" "a" "d" true] in
  let fwd := Apply op (world_of ["/a"; "/a/b"; "/a/b/f"]) in
  let und := Undo (operation true false false 1 "" "" "map.json" []) (out_world fwd) in
  out_err fwd = None
  ∧ entries (out_world fwd) = list_to_set ["/d"; "/d/c"; "/d/c/g"; "map.json"]
  ∧ out_err und = None
  ∧ out_events und = [Rename "/d" "/a"; Rename "/a/c" "/a/b"; Rename "/a/b/g" "/a/b/f"]
  ∧ entries (out_world und) = list_to_set ["/a"; "/a/b"; "/a/b/f"; "map.json"].
Proof. vm_compute. repeat split. Qed.

(** ** Selection: [FindMatches] *)

Section FindMatches_proofs.
Context {W : Type} `{!Platform W}.

(** X1.  [FindMatches] keeps the matches the operation holds and appends
    paths of the operation to them, in the order of the paths; a directory
    is appended only when directories are included, a file only when the
    operation is not for directories only, and a path whose name begins with
    a dot only when hidden paths are included. *)
Theorem FindMatches_selection (op : Operation) :
  ∃ found,
    matches (FindMatches op) = matches op ++ found
    ∧ sublist found (paths op)
    ∧ Forall (λ v,
        (IsDir v = true → includeDir op = true)
        ∧ (onlyDir op = true → IsDir v = true)
        ∧ (includeHidden op = false →
           String.prefix "." (filepath_Base (Source v)) = false)) found.
Proof.
  exists (filter (λ v, FindMatches_keeps op v = true) (paths op)).
  split; [done|]. split; [apply sublist_filter|].
  apply Forall_forall. intros v [Hkeep _]%list_elem_of_filter.
  unfold FindMatches_keeps in Hkeep.
  destruct (IsDir v), (includeDir op), (onlyDir op), (includeHidden op);
    simpl in Hkeep; try done;
    destruct (String.prefix "." (filepath_Base (Source v))); simpl in Hkeep; done.
Qed.


End FindMatches_proofs.


(** ** Runs that change nothing *)

Section Run_proofs.
Context {W : Type} `{!Platform W}.

(** The loop of [Apply] of an operation that is not executed makes no call. *)
Lemma apply_matches_not_executed rest (w : W) :
  apply_matches false rest w = (w, [], None).
Proof. induction rest as [|ch rest IH]; simpl; [done|apply IH]. Qed.



(** X4.  A run that finds no match prints that it failed to match any file
    and returns no error; the world is as it was. *)
Theorem Run_without_matches op (w : W) :
  undoFile op = "" → matches op = [] →
  Forall (λ v, FindMatches_keeps op v = false) (paths op) →
  ∃ out, Run op w = Some out
         ∧ out_world out = w
         ∧ out_events out = [Println "Failed to match any files"]
         ∧ out_err out = None.
Proof.
  intros Hundo Hnone Hkeeps. unfold Run. rewrite Hundo. cbv zeta.
  cbn [String.eqb negb].
  assert (matches (FindMatches op) = []) as Hfound.
  { unfold FindMatches. simpl. rewrite Hnone. simpl.
    apply list_filter_False. eapply Forall_impl; [exact Hkeeps|].
    simpl. intros v ->. done. }
  assert (∃ op2, (if includeDir (FindMatches op) then SortMatches (FindMatches op)
                  else Some (FindMatches op)) = Some op2 ∧ matches op2 = [])
    as (op2 & -> & Hop2).
  { destruct (includeDir (FindMatches op)); [|by eexists].
    unfold SortMatches. rewrite Hfound. simpl. by eexists. }
  simpl. unfold Replace. rewrite Hop2. simpl.
  eexists. split; [done|]. unfold Apply. simpl. done.
Qed.

End Run_proofs.


Lemma Run_without_matches_witness :
  ∃ out, Run (set_paths [mkChange "." ".hidden" "" false]
                (operation true false false 1 "x" "" "" []))
             (world_of [".hidden"]) = Some out
         ∧ out_world out = world_of [".hidden"]
         ∧ out_events out = [Println "Failed to match any files"]
         ∧ out_err out = None.
Proof.
  apply (Run_without_matches
           (set_paths [mkChange "." ".hidden" "" false]
              (operation true false false 1 "x" "" "" []))
           (world_of [".hidden"])); [reflexivity..|].
  repeat constructor.
Defined.

(** ** Replacement: [Replace] and [handleVariables] *)

Section Replace_proofs.
Context {W : Type} `{!Platform W}.

Lemma subject_set_Target t v : subject (set_Target t v) = subject v.
Proof. done. Qed.

Lemma Replace_match_subject op (w : W) i v v' :
  Replace_match op w i v = inr v' → subject v' = subject v.
Proof.
  unfold Replace_match. destruct (Replace_expand op w v) as [str [err|]]; [done|].
  by intros [= <-].
Qed.

Lemma Replace_match_error op (w : W) i v e :
  Replace_match op w i v = inl e ↔ (Replace_expand op w v).2 = Some e.
Proof.
  unfold Replace_match. destruct (Replace_expand op w v) as [str [err|]]; simpl.
  - split; by intros [= ->].
  - done.
Qed.

Lemma Replace_matches_subject op (w : W) rest : ∀ i ms,
  (∀ j v, rest !! j = Some v →
     ∃ u, ms !! (i + j)%nat = Some u ∧ subject u = subject v) →
  subject <$> (Replace_matches op w i rest ms).1 = subject <$> ms.
Proof.
  induction rest as [|v rest IH]; intros i ms Hms; simpl; [done|].
  destruct (Replace_match op w i v) as [err|v'] eqn:Hv; simpl; [done|].
  destruct (Hms 0%nat v eq_refl) as (u & Hu & Hsub).
  rewrite Nat.add_0_r in Hu.
  rewrite IH.
  - rewrite list_fmap_insert. apply list_insert_id.
    rewrite list_lookup_fmap, Hu. simpl.
    by rewrite (Replace_match_subject _ _ _ _ _ Hv), Hsub.
  - intros j x Hx. destruct (Hms (S j) x Hx) as (y & Hy & Hxy).
    exists y. split; [|done].
    rewrite list_lookup_insert_ne by lia.
    by replace (S i + j)%nat with (i + S j)%nat by lia.
Qed.

(** X5.  [Replace] sets targets and nothing else: whether it ends with an
    error or without one, the matches it leaves are the matches it was
    given, one for one, with the base directory, the source and the
    directory mark each one had. *)
Theorem Replace_sets_targets_only op (w : W) :
  subject <$> matches (Replace op w).1 = subject <$> matches op.
Proof.
  unfold Replace.
  pose proof (Replace_matches_subject op w (matches op) 0 (matches op)) as Hsub.
  destruct (Replace_matches op w 0 (matches op) (matches op)) as [ms err].
  simpl in *. apply Hsub. intros j v Hv. by exists v.
Qed.

Lemma Replace_matches_stop op (w : W) rest : ∀ i ms ms' e,
  Replace_matches op w i rest ms = (ms', Some e) →
  (i + length rest ≤ length ms)%nat →
  ∃ k v, rest !! k = Some v
    ∧ Replace_match op w (i + k) v = inl e
    ∧ (∀ j u, (j < k)%nat → rest !! j = Some u →
         ∃ u', Replace_match op w (i + j) u = inr u' ∧ ms' !! (i + j)%nat = Some u')
    ∧ (∀ j, (j < i ∨ i + k ≤ j)%nat → ms' !! j = ms !! j).
Proof.
  induction rest as [|v rest IH]; intros i ms ms' e; simpl; [done|].
  destruct (Replace_match op w i v) as [err|v'] eqn:Hv.
  - intros [= <- <-] _. exists 0%nat, v. rewrite Nat.add_0_r.
    split; [done|]. split; [done|]. split; [intros j u Hj; lia|done].
  - intros Hrun Hlen.
    destruct (IH (S i) (<[i:=v']> ms) ms' e Hrun) as (k & x & Hx & Hex & Hbefore & Hother).
    { rewrite length_insert. lia. }
    exists (S k), x. split; [done|].
    split; [by replace (i + S k)%nat with (S i + k)%nat by lia|].
    split.
    + intros [|j] u Hj Hu.
      * simpl in Hu. injection Hu as <-. exists v'. rewrite Nat.add_0_r.
        split; [done|]. rewrite Hother by lia.
        apply list_lookup_insert_eq. lia.
      * replace (i + S j)%nat with (S i + j)%nat by lia.
        apply Hbefore; [lia|done].
    + intros j Hj. rewrite Hother by lia.
      apply list_lookup_insert_ne. lia.
Qed.

(** X6.  [Replace] stops at the first match whose variables cannot be
    handled and returns that error.  The matches before it have their new
    targets by then, and they keep them; that match and those after it are
    left as they were. *)
Theorem Replace_stops_at_first_error op (w : W) op' e :
  Replace op w = (op', Some e) →
  ∃ k v, matches op !! k = Some v
    ∧ (Replace_expand op w v).2 = Some e
    ∧ (∀ j u, (j < k)%nat → matches op !! j = Some u →
         ∃ u', Replace_match op w j u = inr u' ∧ matches op' !! j = Some u')
    ∧ (∀ j, (k ≤ j)%nat → matches op' !! j = matches op !! j).
Proof.
  unfold Replace.
  destruct (Replace_matches op w 0 (matches op) (matches op)) as [ms err] eqn:Hrun.
  intros [= <- ->].
  destruct (Replace_matches_stop _ _ _ _ _ _ _ Hrun) as (k & v & Hv & He & Hbefore & Hother);
    [simpl; lia|].
  exists k, v. split; [done|]. split; [by apply Replace_match_error in He|].
  split; [exact Hbefore|].
  intros j Hj. simpl. apply Hother. lia.
Qed.

End Replace_proofs.

Lemma Replace_stops_at_first_error_witness :
  let op := operation false false false 1 "{{mtime.YYYY}}" "" ""
              [mkChange "." "a.txt" "" false; mkChange "." "b.txt" "" false;
               mkChange "." "c.txt" "" false] in
  let w := world_of ["a.txt"; "c.txt"] in
  let e := "stat b.txt: no such file or directory" in
  (Replace op w).2 = Some e
  ∧ matches (Replace op w).1
    = [mkChange "." "a.txt" "2006" false; mkChange "." "b.txt" "" false;
       mkChange "." "c.txt" "" false]
  ∧ ∃ k v, matches op !! k = Some v
      ∧ (Replace_expand op w v).2 = Some e
      ∧ (∀ j u, (j < k)%nat → matches op !! j = Some u →
           ∃ u', Replace_match op w j u = inr u'
                 ∧ matches (Replace op w).1 !! j = Some u')
      ∧ (∀ j, (k ≤ j)%nat → matches (Replace op w).1 !! j = matches op !! j).
Proof.
  intros op w e. split; [reflexivity|]. split; [reflexivity|].
  apply (Replace_stops_at_first_error op w (Replace op w).1 e). reflexivity.
Defined.

(** *** Variables *)

Lemma strings_Contains_cons c s sub :
  strings_Contains (String c s) sub
  = String.prefix sub (String c s) || strings_Contains s sub.
Proof. done. Qed.

Lemma prefix_nil s : String.prefix "" s = true.
Proof. by destruct s. Qed.

Lemma prefix_cons a s1 b s2 :
  String.prefix (String a s1) (String b s2)
  = if ascii_dec a b then String.prefix s1 s2 else false.
Proof. done. Qed.

Lemma prefix_app a b : String.prefix a (a +:+ b) = true.
Proof.
  induction a as [|c a IH]; [apply prefix_nil|].
  rewrite string_app_cons, prefix_cons. by destruct (ascii_dec c c).
Qed.

Lemma prefix_prefix a b s :
  String.prefix (a +:+ b) s = true → String.prefix a s = true.
Proof.
  revert s. induction a as [|c a IH]; intros s; [intros _; apply prefix_nil|].
  destruct s as [|c' s]; [done|]. rewrite string_app_cons, !prefix_cons.
  destruct (ascii_dec c c'); [apply IH|done].
Qed.

(** A text that does not hold the character [c]. *)
Lemma without_cons c c' s :
  strings_Contains (String c' s) (String c "") = false
  ↔ c ≠ c' ∧ strings_Contains s (String c "") = false.
Proof.
  rewrite strings_Contains_cons, prefix_cons.
  destruct (ascii_dec c c') as [->|Hne].
  - rewrite prefix_nil. simpl. split; [done|]. by intros [? _].
  - simpl. tauto.
Qed.

Lemma without_app c a b :
  strings_Contains a (String c "") = false →
  strings_Contains b (String c "") = false →
  strings_Contains (a +:+ b) (String c "") = false.
Proof.
  intros Ha Hb. induction a as [|c' a IH]; [done|].
  apply without_cons in Ha as [Hne Ha].
  change (String c' a +:+ b) with (String c' (a +:+ b)).
  apply without_cons. auto.
Qed.

(** A text without an opening brace holds no pair of them. *)
Lemma without_brace_pair s :
  strings_Contains s "{" = false → strings_Contains s "{{" = false.
Proof.
  induction s as [|c s IH]; [done|].
  intros [Hne Hs]%without_cons.
  rewrite strings_Contains_cons, IH, prefix_cons by done.
  by destruct (ascii_dec "{" c).
Qed.

(** A pattern that only matches where a text [pre] begins matches nowhere
    in a text that does not hold [pre]. *)
Lemma regexp_Match_needs (m : matcher) pre s :
  (∀ t, is_Some (m t) → String.prefix pre t = true) →
  strings_Contains s pre = false → regexp_Match m s = false.
Proof.
  intros Hm. rewrite regexp_Find_None.
  induction s as [|c s IH]; intros Hs.
  - cbn [strings_Contains] in Hs. apply orb_false_elim in Hs as [Hhere _].
    simpl. destruct (m "") as [k|] eqn:Hk; [|done].
    rewrite Hm in Hhere by (by rewrite Hk). done.
  - rewrite strings_Contains_cons in Hs. apply orb_false_elim in Hs as [Hhere Hs].
    simpl. destruct (m (String c s)) as [k|] eqn:Hk.
    + rewrite Hm in Hhere by (by rewrite Hk). done.
    + by apply IH.
Qed.

Lemma literal_matcher_needs lit pre rest t :
  lit = pre +:+ rest → is_Some (literal_matcher lit t) → String.prefix pre t = true.
Proof.
  intros -> [k Hk]. unfold literal_matcher in Hk.
  destruct (String.prefix (pre +:+ rest) t) eqn:Hp; [|done].
  by apply prefix_prefix in Hp.
Qed.

Lemma dateRegex_needs t : is_Some (plain dateRegex t) → String.prefix "{{" t = true.
Proof.
  intros [k Hk]. unfold plain, dateRegex in Hk.
  by destruct (String.prefix "{{" t).
Qed.

Lemma exifRegex_needs t : is_Some (plain exifRegex t) → String.prefix "{{" t = true.
Proof.
  intros [k Hk]. unfold plain, exifRegex in Hk.
  destruct (String.prefix "{{exif." t) eqn:Hp; [|done].
  by apply (prefix_prefix "{{" "exif.") in Hp.
Qed.

Section handleVariables_proofs.
Context {W : Type} `{!Platform W}.

(** X7.  A text that holds no pair of opening braces holds no variable:
    [handleVariables] returns it as it is, without an error (and without
    a look at the file: its result is the same in every world). *)
Theorem handleVariables_without_variables op (w : W) str ch :
  strings_Contains str "{{" = false → handleVariables op w str ch = (str, None).
Proof.
  intros Hstr. unfold handleVariables.
  rewrite (regexp_Match_needs filenameRegex "{{" str)
    by (done || (intros t; by apply (literal_matcher_needs "{{f}}" "{{" "f}}"))).
  rewrite (regexp_Match_needs extensionRegex "{{" str)
    by (done || (intros t; by apply (literal_matcher_needs "{{ext}}" "{{" "ext}}"))).
  rewrite (regexp_Match_needs parentDirRegex "{{" str)
    by (done || (intros t; by apply (literal_matcher_needs "{{p}}" "{{" "p}}"))).
  rewrite (regexp_Match_needs (plain dateRegex) "{{" str)
    by (done || apply dateRegex_needs).
  rewrite (regexp_Match_needs (plain exifRegex) "{{" str)
    by (done || apply exifRegex_needs).
  done.
Qed.

End handleVariables_proofs.

Lemma handleVariables_without_variables_witness :
  handleVariables (operation false false false 1 "" "" "" []) (world_of [])
    "holiday_{2021}" (mkChange "." "a.txt" "" false)
  = ("holiday_{2021}", None).
Proof.
  apply (handleVariables_without_variables
           (operation false false false 1 "" "" "" []) (world_of [])).
  reflexivity.
Defined.

Section scan_any.
Context (m : matcher) (repl : string → string).

Lemma replace_scan_skip_any k t rest :
  String.length t = k →
  replace_scan m repl k (t +:+ rest) = replace_scan m repl 0 rest.
Proof.
  revert k. induction t as [|c t IH]; intros k <-; simpl.
  - rewrite string_app_nil_l. by destruct rest.
  - by apply IH.
Qed.

(** A match at the head of the text is replaced, and the scan goes on after
    it. *)
Lemma replace_scan_here t rest :
  t ≠ "" → m (t +:+ rest) = Some (String.length t) →
  replace_scan m repl 0 (t +:+ rest) = repl t +:+ replace_scan m repl 0 rest.
Proof.
  intros Ht Hm. destruct t as [|c t]; [done|].
  pose proof (substring_app (String c t) rest) as Hsub.
  rewrite string_app_cons in Hm, Hsub |- *.
  cbn [replace_scan]. rewrite Hm. cbn [String.length] in Hsub |- *.
  rewrite Hsub. f_equal. by apply replace_scan_skip_any.
Qed.

Context (first : ascii).
Hypothesis m_first : ∀ t, is_Some (m t) → String.prefix (String first "") t = true.

Lemma matcher_first_None c s : first ≠ c → m (String c s) = None.
Proof.
  intros Hne. destruct (m (String c s)) as [k|] eqn:Hk; [|done].
  assert (String.prefix (String first "") (String c s) = true) as Hp
    by (apply m_first; by rewrite Hk).
  rewrite prefix_cons in Hp. by destruct (ascii_dec first c).
Qed.

(** The scan passes over a text in which no match can begin. *)
Lemma replace_scan_before pre s :
  strings_Contains pre (String first "") = false →
  replace_scan m repl 0 (pre +:+ s) = pre +:+ replace_scan m repl 0 s.
Proof.
  induction pre as [|c pre IH]; [done|].
  intros [Hne Hpre]%without_cons. rewrite !string_app_cons.
  cbn [replace_scan]. rewrite matcher_first_None by done.
  f_equal. by apply IH.
Qed.

Lemma replace_scan_without s :
  strings_Contains s (String first "") = false → replace_scan m repl 0 s = s.
Proof.
  intros Hs. rewrite <- (string_app_nil_r s) at 1.
  rewrite replace_scan_before by done. by rewrite string_app_nil_r.
Qed.

Lemma regexp_Find_before pre s :
  strings_Contains pre (String first "") = false →
  regexp_Find m (pre +:+ s) = regexp_Find m s.
Proof.
  induction pre as [|c pre IH]; [done|].
  intros [Hne Hpre]%without_cons. rewrite !string_app_cons.
  cbn [regexp_Find]. rewrite matcher_first_None by done. by apply IH.
Qed.

Lemma regexp_Find_without s :
  strings_Contains s (String first "") = false → regexp_Find m s = None.
Proof.
  induction s as [|c s IH].
  - intros _. simpl. destruct (m "") as [k|] eqn:Hk; [|done].
    assert (String.prefix (String first "") "" = true) as Hp
      by (apply m_first; by rewrite Hk). done.
  - intros [Hne Hs]%without_cons. cbn [regexp_Find].
    rewrite matcher_first_None by done. by apply IH.
Qed.

End scan_any.

(** A template that holds no dollar sign stands for itself. *)
Lemma regexp_expand_plain `{!Platform W} matched template :
  strings_Contains template "$" = false → regexp_expand matched 0 template = template.
Proof.
  induction template as [|c r IH]; [done|].
  intros [Hne Hr]%without_cons. cbn [regexp_expand].
  destruct (Ascii.eqb_spec c "$") as [->|_]; [done|].
  f_equal. by apply IH.
Qed.

Lemma literal_matcher_first c lit t :
  is_Some (literal_matcher (String c lit) t) → String.prefix (String c "") t = true.
Proof. apply (literal_matcher_needs (String c lit) (String c "") lit). done. Qed.

Lemma literal_matcher_braces lit t :
  is_Some (literal_matcher ("{{" +:+ lit) t) → String.prefix "{{" t = true.
Proof. by apply (literal_matcher_needs _ "{{" lit). Qed.

Lemma literal_matcher_here lit rest :
  literal_matcher lit (lit +:+ rest) = Some (String.length lit).
Proof. unfold literal_matcher. by rewrite prefix_app. Qed.

Section simple_variables.
Context {W : Type} `{!Platform W}.

(** The one occurrence of the literal pattern [lit], between texts without
    an opening brace, replaced by a text without a dollar sign. *)
Lemma literal_ReplaceAllString c lit pre post value :
  c = "{"%char →
  strings_Contains pre "{" = false → strings_Contains post "{" = false →
  strings_Contains value "$" = false →
  regexp_Match (literal_matcher (String c lit)) (pre +:+ String c lit +:+ post) = true
  ∧ regexp_ReplaceAllString (literal_matcher (String c lit))
      (pre +:+ String c lit +:+ post) value
    = pre +:+ value +:+ post.
Proof.
  intros -> Hpre Hpost Hvalue. split.
  - unfold regexp_Match. apply bool_decide_eq_true.
    rewrite (regexp_Find_before _ "{") by (done || apply literal_matcher_first).
    rewrite (regexp_Find_here _ _ _ (literal_matcher_here _ _)). by eexists.
  - unfold regexp_ReplaceAllString.
    rewrite (replace_scan_before _ _ "{") by (done || apply literal_matcher_first).
    rewrite replace_scan_here by (done || apply literal_matcher_here).
    rewrite regexp_expand_plain by done.
    rewrite (replace_scan_without _ _ "{") by (done || apply literal_matcher_first).
    done.
Qed.

Lemma handleVariables_from_date (w : W) str ch :
  strings_Contains str "{" = false →
  (let '(str, err) :=
     if regexp_Match (plain dateRegex) str
     then replaceDateVariables w (filepath_Join (BaseDir ch) (Source ch)) str
     else (str, None) in
   match err with
   | Some e => ("", Some e)
   | None =>
       if regexp_Match (plain exifRegex) str then
         let '(out, err) :=
           replaceExifVariables w (filepath_Join (BaseDir ch) (Source ch)) str in
         match err with
         | Some e => ("", Some e)
         | None => (out, None)
         end
       else (str, None)
   end) = (str, None).
Proof.
  intros Hstr%without_brace_pair.
  rewrite (regexp_Match_needs (plain dateRegex) "{{" str)
    by (done || apply dateRegex_needs).
  rewrite (regexp_Match_needs (plain exifRegex) "{{" str)
    by (done || apply exifRegex_needs).
  done.
Qed.

(** X8.  One variable of the file name, of its extension or of the parent
    directory, between texts that hold no opening brace, is replaced by its
    value: the file name without its extension, the extension of the file
    name, the name of the base directory (of the working directory when the
    base directory is the current one).  The value holds no opening brace
    and no dollar sign. *)
Theorem handleVariables_simple_variable op (w : W) ch pre post token value :
  let fileName := filepath_Base (Source ch) in
  let parentDir :=
    if String.eqb (filepath_Base (BaseDir ch)) "."
    then filepath_Base (workingDir op)
    else filepath_Base (BaseDir ch) in
  (token, value) ∈ [("{{f}}", filenameWithoutExtension fileName);
                    ("{{ext}}", filepath_Ext fileName);
                    ("{{p}}", parentDir)] →
  strings_Contains pre "{" = false → strings_Contains post "{" = false →
  strings_Contains value "{" = false → strings_Contains value "$" = false →
  handleVariables op w (pre +:+ token +:+ post) ch = (pre +:+ value +:+ post, None).
Proof.
  intros fileName parentDir Hin Hpre Hpost Hbrace Hdollar.
  assert (strings_Contains (pre +:+ value +:+ post) "{" = false) as Hout
    by (by repeat apply without_app).
  assert (∀ m, (∀ t, is_Some (m t) → String.prefix "{{" t = true) →
               regexp_Match m (pre +:+ value +:+ post) = false) as Hnone.
  { intros m Hm. apply (regexp_Match_needs m "{{"); [done|].
    by apply without_brace_pair. }
  assert (∀ m tok,
            (∀ t, is_Some (m t) → String.prefix "{" t = true) →
            regexp_Find m (tok +:+ post) = regexp_Find m post →
            regexp_Match m (pre +:+ tok +:+ post) = false) as Hother.
  { intros m tok Hm Htok. apply regexp_Find_None.
    rewrite (regexp_Find_before m "{"), Htok by done.
    by apply (regexp_Find_without m "{"). }
  unfold handleVariables. fold fileName. fold parentDir.
  unfold filenameRegex, extensionRegex, parentDirRegex.
  apply elem_of_cons in Hin as [[= -> ->]|Hin];
    [|apply elem_of_cons in Hin as [[= -> ->]|Hin];
      [|apply elem_of_cons in Hin as [[= -> ->]|Hin];
        [|by apply elem_of_nil in Hin]]].
  - destruct (literal_ReplaceAllString "{" "{f}}" pre post
                (filenameWithoutExtension fileName)) as [-> ->]; try done.
    rewrite (Hnone (literal_matcher "{{ext}}") (literal_matcher_braces "ext}}")).
    rewrite (Hnone (literal_matcher "{{p}}") (literal_matcher_braces "p}}")).
    by apply handleVariables_from_date.
  - rewrite (Hother (literal_matcher "{{f}}") "{{ext}}");
      [|apply literal_matcher_first|done].
    destruct (literal_ReplaceAllString "{" "{ext}}" pre post
                (filepath_Ext fileName)) as [-> ->]; try done.
    rewrite (Hnone (literal_matcher "{{p}}") (literal_matcher_braces "p}}")).
    by apply handleVariables_from_date.
  - rewrite (Hother (literal_matcher "{{f}}") "{{p}}");
      [|apply literal_matcher_first|done].
    rewrite (Hother (literal_matcher "{{ext}}") "{{p}}");
      [|apply literal_matcher_first|done].
    destruct (literal_ReplaceAllString "{" "{p}}" pre post parentDir) as [-> ->];
      try done.
    by apply handleVariables_from_date.
Qed.

End simple_variables.

Lemma handleVariables_simple_variable_witness :
  handleVariables (operation false false false 1 "" "" "" []) (world_of [])
    ("in_" +:+ "{{p}}" +:+ "_dir") (mkChange "." "a.txt" "" false)
  = ("in_" +:+ "user" +:+ "_dir", None).
Proof.
  apply (handleVariables_simple_variable
           (operation false false false 1 "" "" "" []) (world_of [])
           (mkChange "." "a.txt" "" false) "in_" "_dir" "{{p}}" "user");
    try reflexivity.
  do 2 apply list_elem_of_further. apply list_elem_of_here.
Defined.

(** ** Conflict detection: what it keeps *)

Section Detect_keeps.
Context {W : Type} `{!Platform W}.

Lemma subject_alter t i (l : list Change) :
  subject <$> alter (set_Target t) i l = subject <$> l.
Proof.
  rewrite (list_fmap_alter subject (set_Target t) id) by (by apply Forall_true).
  apply list_alter_id. done.
Qed.

Lemma detect_match_subject (w : W) fix_ st i ch :
  subject <$> d_matches (detect_match w fix_ st i ch) = subject <$> d_matches st
  ∧ (fix_ = false → d_matches (detect_match w fix_ st i ch) = d_matches st).
Proof.
  unfold detect_match.
  destruct (String.eqb (Target ch) "."); simpl.
  - destruct fix_; simpl; [|done]. by rewrite subject_alter.
  - destruct (target_exists w _); simpl; [|done].
    destruct fix_; simpl; [|done]. by rewrite subject_alter.
Qed.

Lemma detect_matches_subject (w : W) fix_ rest : ∀ i st,
  subject <$> d_matches (detect_matches w fix_ i rest st) = subject <$> d_matches st
  ∧ (fix_ = false → d_matches (detect_matches w fix_ i rest st) = d_matches st).
Proof.
  induction rest as [|ch rest IH]; intros i st; simpl; [done|].
  destruct (IH (S i) (detect_match w fix_ st i ch)) as [-> Hoff].
  destruct (detect_match_subject w fix_ st i ch) as [-> Hoff'].
  split; [done|]. intros Hfix. by rewrite Hoff, Hoff'.
Qed.

Lemma foldl_fix_duplicate_subject (w : W) k items : ∀ st,
  subject <$> d_matches (foldl (fix_duplicate w k) st items) = subject <$> d_matches st.
Proof.
  induction items as [|item items IH]; intros st; simpl; [done|].
  rewrite IH. unfold fix_duplicate. simpl. apply subject_alter.
Qed.

Lemma detect_duplicates_subject (w : W) fix_ st k :
  subject <$> d_matches (detect_duplicates w fix_ st k) = subject <$> d_matches st
  ∧ (fix_ = false → d_matches (detect_duplicates w fix_ st k) = d_matches st).
Proof.
  unfold detect_duplicates.
  destruct (1 <? length (default [] (d_m st !! k)))%nat; [|done].
  destruct fix_; [|done]. split; [|done].
  by rewrite foldl_fix_duplicate_subject.
Qed.

Lemma foldl_detect_duplicates_subject (w : W) fix_ ks : ∀ st,
  subject <$> d_matches (foldl (detect_duplicates w fix_) st ks) = subject <$> d_matches st
  ∧ (fix_ = false → d_matches (foldl (detect_duplicates w fix_) st ks) = d_matches st).
Proof.
  induction ks as [|k ks IH]; intros st; simpl; [done|].
  destruct (IH (detect_duplicates w fix_ st k)) as [-> Hoff].
  destruct (detect_duplicates_subject w fix_ st k) as [-> Hoff'].
  split; [done|]. intros Hfix. by rewrite Hoff, Hoff'.
Qed.

Lemma DetectConflicts_matches_subject op (w : W) :
  subject <$> matches (DetectConflicts op w) = subject <$> matches op
  ∧ (fixConflicts op = false → matches (DetectConflicts op w) = matches op).
Proof.
  unfold DetectConflicts. cbv zeta. cbn [matches set_conflicts set_matches].
  set (st0 := {| d_matches := matches op; d_conflicts := ∅; d_m := ∅ |}).
  set (st1 := detect_matches w (fixConflicts op) 0 (matches op) st0).
  destruct (foldl_detect_duplicates_subject w (fixConflicts op)
              (range_order (d_m st1)) st1) as [-> Hoff].
  destruct (detect_matches_subject w (fixConflicts op) (matches op) 0 st0)
    as [Hsub Hoff'].
  fold st1 in Hsub, Hoff'. rewrite Hsub. split; [done|].
  intros Hfix. by rewrite Hoff, Hoff'.
Qed.

(** X9.  [DetectConflicts] changes targets and nothing else of the matches:
    they stay as many, each with its base directory, its source and its
    directory mark; and when conflicts are not to be fixed it changes no
    match at all. *)
Theorem DetectConflicts_changes_targets_only op (w : W) :
  subject <$> matches (DetectConflicts op w) = subject <$> matches op
  ∧ (fixConflicts op = false → matches (DetectConflicts op w) = matches op).
Proof. apply DetectConflicts_matches_subject. Qed.

(** X10.  [DetectConflicts] records no conflict exactly when no target is
    the marker of the current directory, [os.Stat] says of every full
    target path that it does not exist, and no two matches have the same
    full target path; it then leaves the matches as they are, whether
    conflicts are to be fixed or not. *)
Theorem DetectConflicts_records_nothing op (w : W) :
  (conflicts (DetectConflicts op w) = ∅
   ↔ Forall (target_free w) (matches op) ∧ NoDup (full_target <$> matches op))
  ∧ (conflicts (DetectConflicts op w) = ∅ →
     matches (DetectConflicts op w) = matches op).
Proof.
  split; [apply DetectConflicts_clean|apply DetectConflicts_clean_matches].
Qed.

(** X11.  The table of [ReportConflicts] for the conflicts that
    [DetectConflicts] has recorded is empty only when none is recorded: a
    refusal of [Apply] always shows at least one row. *)
Theorem ReportConflicts_shows_every_refusal op (w : W) :
  ReportConflicts (DetectConflicts op w) = []
  ↔ conflicts (DetectConflicts op w) = ∅.
Proof.
  rewrite ReportConflicts_rows.
  rewrite (conflicts_empty_recorded _ (DetectConflicts_no_empty_record op w)).
  split.
  - intros [Hempty Hrest]%app_eq_nil.
    apply app_eq_nil in Hrest as [Hexists Hover'].
    apply fmap_nil_inv in Hempty, Hexists.
    intros [| |]; [done|done|].
    destruct (recorded overwritingNewPath (DetectConflicts op w)) as [|c cs] eqn:Hrec;
      [done|].
    assert (c ∈ recorded overwritingNewPath (DetectConflicts op w)) as Hc
      by (rewrite Hrec; apply list_elem_of_here).
    apply elem_of_recorded_overwritingNewPath in Hc as (k & -> & Hlen).
    simpl in Hover'. apply app_eq_nil in Hover' as [Hsrc _].
    apply fmap_nil_inv in Hsrc. rewrite Hsrc in Hlen. simpl in Hlen. lia.
  - intros Hnone. by rewrite !Hnone.
Qed.

End Detect_keeps.

(** ** Execution: [Apply] *)

Section Apply_calls.
Context {W : Type} `{!Platform W}.

Lemma apply_matches_cons ch rest (w : W) :
  apply_matches true (ch :: rest) w
  = let source := filepath_Join (BaseDir ch) (Source ch) in
    let target := filepath_Join (BaseDir ch) (Target ch) in
    let '(w1, ev1, err1) :=
      if strings_Contains (Target ch) "/" then
        let '(w1, err) := os_MkdirAll (filepath_Dir (Target ch)) w in
        (w1, [MkdirAll (filepath_Dir (Target ch))], err)
      else (w, [], None) in
    match err1 with
    | Some _ => (w1, ev1, Some (execErr_of ch))
    | None =>
        let '(w2, err2) := os_Rename source target w1 in
        match err2 with
        | Some _ => (w2, ev1 ++ [Rename source target], Some (execErr_of ch))
        | None =>
            let '(w3, ev3, err3) := apply_matches true rest w2 in
            (w3, ev1 ++ Rename source target :: ev3, err3)
        end
    end.
Proof. done. Qed.

(** The loop of [Apply] that ends without an error has made the calls of
    every match, in the order of the matches. *)
Lemma apply_matches_calls ms : ∀ (w w' : W) ev,
  apply_matches true ms w = (w', ev, None) → ev = ms ≫= calls_of.
Proof.
  induction ms as [|ch ms IH]; intros w w' ev.
  - by intros [= _ <-].
  - rewrite apply_matches_cons. cbv zeta. unfold calls_of at 1. simpl.
    destruct (strings_Contains (Target ch) "/").
    + destruct (os_MkdirAll _ w) as [w1 [err|]]; [done|].
      destruct (os_Rename _ _ w1) as [w2 [err|]]; [done|].
      destruct (apply_matches true ms w2) as [[w3 ev3] err3] eqn:Hrest.
      intros [= _ <- ->]. simpl. by rewrite (IH _ _ _ Hrest).
    + destruct (os_Rename _ _ w) as [w2 [err|]]; [done|].
      destruct (apply_matches true ms w2) as [[w3 ev3] err3] eqn:Hrest.
      intros [= _ <- ->]. simpl. by rewrite (IH _ _ _ Hrest).
Qed.

(** The loop of [Apply] that ends with an error has made the calls of the
    matches before the one at which it stopped, and of the calls of that
    one those up to the call that failed. *)
Lemma apply_matches_failure ms : ∀ (w w' : W) ev e,
  apply_matches true ms w = (w', ev, Some e) →
  ∃ before ch after last,
    ms = before ++ ch :: after
    ∧ e = execErr_of ch
    ∧ ev = (before ≫= calls_of) ++ last
    ∧ last ≠ [] ∧ last `prefix_of` calls_of ch.
Proof.
  induction ms as [|ch ms IH]; intros w w' ev e; [done|].
  rewrite apply_matches_cons. cbv zeta.
  assert (∀ w1 (ev1 : list event),
    calls_of ch = ev1 ++ [Rename (filepath_Join (BaseDir ch) (Source ch))
                            (filepath_Join (BaseDir ch) (Target ch))] →
    (let '(w2, err2) := os_Rename (filepath_Join (BaseDir ch) (Source ch))
                          (filepath_Join (BaseDir ch) (Target ch)) w1 in
     match err2 with
     | Some _ =>
         (w2, ev1 ++ [Rename (filepath_Join (BaseDir ch) (Source ch))
                        (filepath_Join (BaseDir ch) (Target ch))],
          Some (execErr_of ch))
     | None =>
         let '(w3, ev3, err3) := apply_matches true ms w2 in
         (w3, ev1 ++ Rename (filepath_Join (BaseDir ch) (Source ch))
                       (filepath_Join (BaseDir ch) (Target ch)) :: ev3, err3)
     end) = (w', ev, Some e) →
    ∃ before ch0 after last,
      ch :: ms = before ++ ch0 :: after
      ∧ e = execErr_of ch0
      ∧ ev = (before ≫= calls_of) ++ last
      ∧ last ≠ [] ∧ last `prefix_of` calls_of ch0) as Hrename.
  { intros w1 ev1 Hcalls.
    destruct (os_Rename _ _ w1) as [w2 [err|]].
    - intros [= _ <- <-]. exists [], ch, ms, (calls_of ch).
      rewrite Hcalls. repeat split; try done. by destruct ev1.
    - destruct (apply_matches true ms w2) as [[w3 ev3] err3] eqn:Hrest.
      intros [= _ <- ->].
      destruct (IH _ _ _ _ Hrest) as (before & ch0 & after & last & -> & -> & -> & Hlast).
      exists (ch :: before), ch0, after, last.
      repeat split; try tauto. simpl. rewrite Hcalls.
      by rewrite <- !app_assoc. }
  destruct (strings_Contains (Target ch) "/") eqn:Hslash.
  - destruct (os_MkdirAll _ w) as [w1 [err|]].
    + intros [= _ <- <-].
      exists [], ch, ms, [MkdirAll (filepath_Dir (Target ch))].
      repeat split; try done.
      unfold calls_of. rewrite Hslash. by eexists.
    + apply Hrename. unfold calls_of. by rewrite Hslash.
  - apply (Hrename w []). unfold calls_of. by rewrite Hslash.
Qed.

Lemma DetectConflicts_length op (w : W) :
  length (matches (DetectConflicts op w)) = length (matches op).
Proof.
  destruct (DetectConflicts_matches_subject op w) as [Hsub _].
  apply (f_equal length) in Hsub. by rewrite !length_fmap in Hsub.
Qed.

(** [Apply] past the check of the conflicts. *)
Lemma Apply_proceeds op (w : W) :
  matches op ≠ [] →
  (conflicts (DetectConflicts op w) = ∅ ∨ fixConflicts op = true) →
  Apply op w
  = let op1 := DetectConflicts op w in
    match apply_matches (exec op) (matches op1) w with
    | (w1, ev, Some e) =>
        {| out_op := op1; out_world := w1; out_events := ev; out_err := Some e |}
    | (w1, ev, None) =>
        if exec op then
          if String.eqb (outputFile op) "" then
            {| out_op := op1; out_world := w1; out_events := ev; out_err := None |}
          else
            let r := WriteToFile op1 w1 in
            {| out_op := out_op r; out_world := out_world r;
               out_events := ev ++ out_events r; out_err := out_err r |}
        else
          {| out_op := op1; out_world := w1;
             out_events :=
               ev ++ [printTable_changes (PrintChanges op1);
                      Println ("Append the " +:+ yellow "-x"
                               +:+ " flag to apply the above changes")];
             out_err := None |}
    end.
Proof.
  intros Hms Hgo. unfold Apply. rewrite matches_nonempty by done.
  assert ((0 <? size (conflicts (DetectConflicts op w)))%nat
          && negb (fixConflicts (DetectConflicts op w)) = false) as ->.
  { destruct Hgo as [Hnone|Hfix].
    - rewrite Hnone. done.
    - change (fixConflicts (DetectConflicts op w)) with (fixConflicts op).
      rewrite Hfix. apply andb_false_r. }
  cbv zeta.
  change (exec (DetectConflicts op w)) with (exec op).
  change (outputFile (DetectConflicts op w)) with (outputFile op).
  destruct (apply_matches (exec op) (matches (DetectConflicts op w)) w)
    as [[w1 ev] [e|]]; [done|].
  assert ((0 <? length (matches (DetectConflicts op w)))%nat = true) as ->.
  { rewrite DetectConflicts_length. apply Nat.ltb_lt.
    destruct (matches op); [done|simpl; lia]. }
  destruct (exec op); simpl; [|done].
  by destruct (String.eqb (outputFile op) "").
Qed.

(** X12.  When [Apply] is executed and returns no error, it has made the
    calls of every match, in the order of the matches and with the targets
    as [DetectConflicts] left them: the directory of a target that holds a
    separator is made (the base directory is not put before it), then the
    full source path is renamed to the full target path.  When the
    operation names an output file, the undo record is written after the
    last call, and it holds those matches. *)
Theorem Apply_executed_calls op (w : W) :
  matches op ≠ [] → exec op = true → out_err (Apply op w) = None →
  let ms := matches (DetectConflicts op w) in
  out_events (Apply op w)
  = (ms ≫= calls_of)
    ++ (if String.eqb (outputFile op) "" then []
        else [Create (outputFile op)
                {| Date := time_Now_RFC3339 (apply_matches true ms w).1.1;
                   Operations := ms |}]).
Proof.
  intros Hms Hexec Herr ms.
  assert (conflicts (DetectConflicts op w) = ∅ ∨ fixConflicts op = true) as Hgo.
  { destruct (fixConflicts op) eqn:Hfix; [by right|left].
    destruct (decide (conflicts (DetectConflicts op w) = ∅)) as [|Hsome]; [done|].
    rewrite (Apply_refusal op w Hms Hsome Hfix) in Herr. done. }
  revert Herr. rewrite (Apply_proceeds op w Hms Hgo). cbv zeta. fold ms.
  rewrite Hexec.
  destruct (apply_matches true ms w) as [[w1 ev] [e|]] eqn:Hrun; [done|].
  apply apply_matches_calls in Hrun as ->.
  destruct (String.eqb (outputFile op) ""); simpl.
  - by rewrite app_nil_r.
  - unfold WriteToFile.
    destruct (os_write_map_file _ _ w1) as [w2 err]. simpl. done.
Qed.

(** X13.  An error of [Apply] past the check of the conflicts comes from a
    run that is executed, and is one of two.  Either a call for one match
    failed: the error names the full source and target paths of that match,
    the calls of the matches before it have been made (and are not taken
    back), of its own calls those up to the one that failed, none for the
    matches after it, and no undo record is written.  Or every call was
    made and writing the undo record failed. *)
Theorem Apply_errors op (w : W) e :
  matches op ≠ [] →
  (conflicts (DetectConflicts op w) = ∅ ∨ fixConflicts op = true) →
  out_err (Apply op w) = Some e →
  let ms := matches (DetectConflicts op w) in
  exec op = true
  ∧ ((∃ before ch after last,
        ms = before ++ ch :: after
        ∧ e = execErr_of ch
        ∧ out_events (Apply op w) = (before ≫= calls_of) ++ last
        ∧ last ≠ [] ∧ last `prefix_of` calls_of ch)
     ∨ (outputFile op ≠ ""
        ∧ ∃ mf, Operations mf = ms
                ∧ out_events (Apply op w)
                  = (ms ≫= calls_of) ++ [Create (outputFile op) mf])).
Proof.
  intros Hms Hgo. rewrite (Apply_proceeds op w Hms Hgo). cbv zeta.
  destruct (exec op) eqn:Hexec.
  - destruct (apply_matches true (matches (DetectConflicts op w)) w)
      as [[w1 ev] [e'|]] eqn:Hrun.
    + intros [= ->]. split; [done|]. left.
      by apply apply_matches_failure in Hrun.
    + apply apply_matches_calls in Hrun as ->.
      destruct (String.eqb_spec (outputFile op) "") as [|Hout]; [done|].
      unfold WriteToFile. destruct (os_write_map_file _ _ w1) as [w2 err].
      simpl. intros ->. split; [done|]. right. split; [done|].
      by eexists {| Date := _; Operations := _ |}.
  - rewrite apply_matches_not_executed. done.
Qed.

End Apply_calls.

Lemma Apply_executed_calls_witness :
  let op := operation true false false 1 "" "map.json" ""
              [mkChange "." "a.txt" "sub/b.txt" false; mkChange "d" "c.txt" "e.txt" false] in
  let w := world_of ["a.txt"; "d"; "d/c.txt"] in
  out_events (Apply op w)
  = [MkdirAll "sub"; Rename "a.txt" "sub/b.txt"; Rename "d/c.txt" "d/e.txt";
     Create "map.json"
       {| Date := "2021-01-01T00:00:00Z";
          Operations := [mkChange "." "a.txt" "sub/b.txt" false;
                         mkChange "d" "c.txt" "e.txt" false] |}].
Proof.
  intros op w.
  exact (Apply_executed_calls op w ltac:(discriminate) eq_refl eq_refl).
Defined.

Lemma Apply_errors_witness :
  let op := operation true false false 1 "" "map.json" ""
              [mkChange "." "a.txt" "b.txt" false; mkChange "." "c.txt" "d.txt" false;
               mkChange "." "e.txt" "f.txt" false] in
  let w := world_of ["a.txt"; "e.txt"] in
  let e := "An error occurred while renaming 'c.txt' to 'd.txt'" in
  out_events (Apply op w) = [Rename "a.txt" "b.txt"; Rename "c.txt" "d.txt"]
  ∧ exec op = true
  ∧ ((∃ before ch after last,
        matches (DetectConflicts op w) = before ++ ch :: after
        ∧ e = execErr_of ch
        ∧ out_events (Apply op w) = (before ≫= calls_of) ++ last
        ∧ last ≠ [] ∧ last `prefix_of` calls_of ch)
     ∨ (outputFile op ≠ ""
        ∧ ∃ mf, Operations mf = matches (DetectConflicts op w)
                ∧ out_events (Apply op w)
                  = (matches (DetectConflicts op w) ≫= calls_of)
                    ++ [Create (outputFile op) mf])).
Proof.
  intros op w e. split; [reflexivity|].
  apply (Apply_errors op w e); [discriminate|left; reflexivity|reflexivity].
Defined.

(** ** Ordering: [SortMatches] on files only, on directories only *)

Section insertion_sort_ext.
Context {A : Type} (less less' : A → A → bool).

Lemma insert_left_ext x before :
  (∀ y, y ∈ before → less x y = less' x y) →
  insert_left less x before = insert_left less' x before.
Proof.
  induction before as [|y r IH]; intros Hext; simpl; [done|].
  rewrite <- (Hext y) by apply list_elem_of_here.
  rewrite IH; [done|]. intros z Hz. apply Hext. by apply list_elem_of_further.
Qed.

Lemma insertionSort_ext data :
  (∀ x y, x ∈ data → y ∈ data → less x y = less' x y) →
  insertionSort less data = insertionSort less' data.
Proof.
  intros Hext. unfold insertionSort. f_equal.
  assert (∀ acc,
    (∀ x y, x ∈ acc ++ data → y ∈ acc ++ data → less x y = less' x y) →
    foldl (λ before x, insert_left less x before) acc data
    = foldl (λ before x, insert_left less' x before) acc data) as Hacc.
  { clear Hext. induction data as [|x data IH]; intros acc Hext; simpl; [done|].
    rewrite (insert_left_ext x acc).
    - apply IH. intros y z Hy Hz.
      rewrite (insert_left_Permutation less' x acc) in Hy, Hz.
      apply Hext; by rewrite <- Permutation_middle.
    - intros y Hy. apply Hext; apply elem_of_app; [right; left|by left]. }
  apply (Hacc []). done.
Qed.

End insertion_sort_ext.

Lemma sort_SliceStable_short {A} (less : A → A → bool) data sorted :
  sort_SliceStable less data = Some sorted → sorted = insertionSort less data.
Proof.
  unfold sort_SliceStable. destruct (length data <=? 20)%nat; [|done].
  by intros [= <-].
Qed.

(** X14.  Files only, twenty at most: [SortMatches] reverses their order.
    Its comparison says of every file that it comes before any other
    match, and the insertion sort moves each file in turn to the front. *)
Theorem SortMatches_reverses_files op :
  Forall (λ ch, IsDir ch = false) (matches op) →
  (length (matches op) ≤ 20)%nat →
  SortMatches op = Some (set_matches (reverse (matches op)) op).
Proof.
  intros Hfiles Hlen. unfold SortMatches, sort_SliceStable.
  apply Nat.leb_le in Hlen. rewrite Hlen. simpl.
  by rewrite insertionSort_files.
Qed.

(** X15.  Directories only: [SortMatches] rearranges them so that the base
    directory of none is less than that of the next one, and those of one
    base directory keep their order. *)
Theorem SortMatches_orders_directories op op' :
  Forall (λ ch, IsDir ch = true) (matches op) →
  SortMatches op = Some op' →
  matches op' ≡ₚ matches op
  ∧ Sorted (λ a b, String.ltb (BaseDir a) (BaseDir b) = false) (matches op')
  ∧ ∀ dir, filter (λ ch, BaseDir ch = dir) (matches op')
           = filter (λ ch, BaseDir ch = dir) (matches op).
Proof.
  intros Hdirs. unfold SortMatches.
  destruct (sort_SliceStable sort_less (matches op)) as [sorted|] eqn:Hsort; [|done].
  apply sort_SliceStable_short in Hsort as ->. intros [= <-]. simpl.
  split; [apply insertionSort_Permutation|].
  assert (insertionSort sort_less (matches op)
          = insertionSort (λ a b, String.ltb (BaseDir b) (BaseDir a)) (matches op))
    as Hless.
  { apply insertionSort_ext. intros x y Hx _. unfold sort_less.
    rewrite Forall_forall in Hdirs. by rewrite (Hdirs x Hx). }
  split.
  - rewrite Hless.
    apply (insertionSort_Sorted (λ a b, String.ltb (BaseDir b) (BaseDir a))).
    intros a b. apply String_ltb_asym.
  - intros dir. rewrite Hless.
    apply (insertionSort_filter (λ a b, String.ltb (BaseDir b) (BaseDir a))).
    intros x y -> ->. apply String_ltb_irrefl.
Qed.

Lemma SortMatches_reverses_files_witness :
  SortMatches (operation false false true 1 "" "" ""
                 [mkChange "." "a" "" false; mkChange "." "b" "" false;
                  mkChange "." "c" "" false])
  = Some (operation false false true 1 "" "" ""
            [mkChange "." "c" "" false; mkChange "." "b" "" false;
             mkChange "." "a" "" false]).
Proof.
  apply (SortMatches_reverses_files
           (operation false false true 1 "" "" ""
              [mkChange "." "a" "" false; mkChange "." "b" "" false;
               mkChange "." "c" "" false])).
  - repeat constructor.
  - simpl. lia.
Defined.

Lemma SortMatches_orders_directories_witness :
  let op := operation false false true 1 "" "" ""
              [mkChange "/a" "x" "" true; mkChange "/a/b" "y" "" true;
               mkChange "/a" "z" "" true] in
  let op' := operation false false true 1 "" "" ""
               [mkChange "/a/b" "y" "" true; mkChange "/a" "x" "" true;
                mkChange "/a" "z" "" true] in
  matches op' ≡ₚ matches op
  ∧ Sorted (λ a b, String.ltb (BaseDir a) (BaseDir b) = false) (matches op')
  ∧ ∀ dir, filter (λ ch, BaseDir ch = dir) (matches op')
           = filter (λ ch, BaseDir ch = dir) (matches op).
Proof.
  intros op op'. apply (SortMatches_orders_directories op op').
  - repeat constructor.
  - reflexivity.
Defined.

(** ** Undo without a record to undo *)

Section Undo_edges.
Context {W : Type} `{!Platform W}.

(** X16.  [Undo] with a record that holds no operation prints that it
    failed to match any file and returns no error; with no name of a record
    it returns its own error, and with a record that cannot be read the
    error of reading it.  In each case no call is made and the world is as
    it was. *)
Theorem Undo_without_operations op (w : W) :
  (undoFile op = "" →
   Undo op w
   = {| out_op := op; out_world := w; out_events := [];
        out_err := Some "Please pass a previously created map file to continue" |})
  ∧ (∀ e, undoFile op ≠ "" → os_read_map_file w (undoFile op) = inl e →
          Undo op w
          = {| out_op := op; out_world := w; out_events := []; out_err := Some e |})
  ∧ (∀ mf, undoFile op ≠ "" → os_read_map_file w (undoFile op) = inr mf →
           Operations mf = [] →
           Undo op w
           = {| out_op := set_matches [] op; out_world := w;
                out_events := [Println "Failed to match any files"];
                out_err := None |}).
Proof.
  unfold Undo. split; [|split].
  - by intros ->.
  - intros e Hname ->. by destruct (String.eqb_spec (undoFile op) "").
  - intros mf Hname -> ->. by destruct (String.eqb_spec (undoFile op) "").
Qed.

End Undo_edges.

(** ** The date pattern: [init] *)

(** The alternative found is one of those listed, and begins the text. *)
Lemma alternative_Some alts close s a :
  alternative alts close s = Some a →
  a ∈ alts ∧ String.prefix (a +:+ close) s = true.
Proof.
  induction alts as [|b alts IH]; simpl; [done|].
  destruct (String.prefix (b +:+ close) s) eqn:Hb.
  - intros [= <-]. split; [apply list_elem_of_here|done].
  - intros [? ?]%IH. split; [by apply list_elem_of_further|done].
Qed.

Lemma alternative_None alts close s :
  alternative alts close s = None
  ↔ ∀ a, a ∈ alts → String.prefix (a +:+ close) s = false.
Proof.
  induction alts as [|b alts IH]; simpl.
  - split; [|done]. by intros _ a Ha%elem_of_nil.
  - destruct (String.prefix (b +:+ close) s) eqn:Hb.
    + split; [done|]. intros Hall. by rewrite (Hall b) in Hb by apply list_elem_of_here.
    + rewrite IH. split.
      * intros Hall a [->|Ha]%elem_of_cons; [done|by apply Hall].
      * intros Hall a Ha. apply Hall. by apply list_elem_of_further.
Qed.

(** Two texts without a closing brace that both begin [s] when a pair of
    closing braces follows them are one text. *)
Lemma closing_unique a : ∀ b s,
  strings_Contains a "}" = false → strings_Contains b "}" = false →
  String.prefix (a +:+ "}}") s = true → String.prefix (b +:+ "}}") s = true →
  a = b.
Proof.
  induction a as [|c a IH]; intros b s Ha Hb.
  - destruct b as [|c' b]; [done|].
    apply without_cons in Hb as [Hne _].
    destruct s as [|c0 s]; [done|].
    rewrite string_app_nil_l, string_app_cons, !prefix_cons.
    destruct (ascii_dec "}" c0) as [<-|]; [|done].
    by destruct (ascii_dec c' "}") as [->|].
  - apply without_cons in Ha as [Hne Ha].
    destruct s as [|c0 s]; [done|].
    rewrite string_app_cons, prefix_cons.
    destruct (ascii_dec c c0) as [<-|]; [|done].
    destruct b as [|c' b].
    + rewrite string_app_nil_l, prefix_cons.
      by destruct (ascii_dec "}" c) as [<-|].
    + apply without_cons in Hb as [Hne' Hb].
      rewrite string_app_cons, prefix_cons.
      destruct (ascii_dec c' c) as [->|]; [|done].
      intros H1 H2. f_equal. by apply (IH b s).
Qed.

Lemma alternative_Permutation alts alts' s :
  alts ≡ₚ alts' → Forall (λ a, strings_Contains a "}" = false) alts →
  alternative alts "}}" s = alternative alts' "}}" s.
Proof.
  intros Hperm Hfree. rewrite Forall_forall in Hfree.
  destruct (alternative alts "}}" s) as [a|] eqn:Ha.
  - apply alternative_Some in Ha as [Ha Hpa].
    destruct (alternative alts' "}}" s) as [b|] eqn:Hb.
    + apply alternative_Some in Hb as [Hb Hpb]. f_equal.
      apply (closing_unique a b s); auto.
      apply Hfree. by rewrite Hperm.
    + rewrite alternative_None in Hb. rewrite Hb in Hpa; [done|].
      by rewrite <- Hperm.
  - symmetry. rewrite alternative_None in Ha |- *.
    intros a Ha'. apply Ha. by rewrite Hperm.
Qed.

(** X17.  The pattern [init] builds matches the same text and captures the
    same clock and token in whatever order [range] visits the keys of
    [dateTokens]: a pair of closing braces follows the token, and no key
    holds a closing brace, so at most one key can match. *)
Theorem init_order tokens s :
  tokens ≡ₚ dateTokens.*1 → init tokens s = dateRegex s.
Proof.
  intros Hperm. unfold init, dateRegex.
  destruct (String.prefix "{{" s); [|done].
  destruct (alternative _ "." _) as [clock|]; [|done].
  cbv zeta. f_equal. apply alternative_Permutation; [done|].
  rewrite Hperm. by repeat constructor.
Qed.

Lemma init_order_witness :
  init (reverse dateTokens.*1) "{{mtime.MMM}}-{{now.YY}}"
  = Some (13%nat, ("mtime", "MMM")).
Proof.
  etransitivity; [apply init_order|reflexivity].
  apply reverse_Permutation.
Defined.

(** ** Dates: [replaceDateVariables] *)

(** One date variable is one match of [dateRegex], and the pattern compiled
    from its text matches the whole of it. *)
Lemma date_variable_scan :
  Forall (λ clock,
    Forall (λ token,
      let variable := "{{" +:+ clock +:+ "." +:+ token +:+ "}}" in
      find_scan dateRegex 0 variable = [(variable, (clock, token))]
      ∧ token_pattern variable (variable +:+ "") = Some (String.length variable))
      dateTokens.*1)
    ["mtime"; "ctime"; "btime"; "atime"; "now"].
Proof. repeat constructor. Qed.

Section Date_proofs.
Context {W : Type} `{!Platform W}.

(** X18.  Where the file system keeps no birth time, the variable of the
    birth time stands for the modification time, and so does the variable of
    the change time where no change time is kept: alone in the text, the
    variable is replaced by the modification time in the layout of its
    token (a text without a dollar sign). *)
Theorem replaceDateVariables_falls_back (w : W) file t clock token :
  times_Stat w file = inr t →
  (clock = "btime" ∧ HasBirthTime t = false
   ∨ clock = "ctime" ∧ HasChangeTime t = false) →
  token ∈ dateTokens.*1 →
  strings_Contains (time_Format (ModTime t) (dateTokens_lookup token)) "$" = false →
  replaceDateVariables w file ("{{" +:+ clock +:+ "." +:+ token +:+ "}}")
  = (time_Format (ModTime t) (dateTokens_lookup token), None).
Proof.
  intros Hstat Hclock Htoken Hplain.
  assert (clock ∈ ["mtime"; "ctime"; "btime"; "atime"; "now"]) as Hin.
  { destruct Hclock as [[-> _]|[-> _]].
    - do 2 apply list_elem_of_further. apply list_elem_of_here.
    - apply list_elem_of_further, list_elem_of_here. }
  pose proof date_variable_scan as Hscan.
  rewrite Forall_forall in Hscan. specialize (Hscan clock Hin).
  rewrite Forall_forall in Hscan. destruct (Hscan token Htoken) as [Hfind Hwhole].
  unfold replaceDateVariables. rewrite Hstat, Hfind.
  cbn [foldl fst snd]. f_equal.
  set (variable := "{{" +:+ clock +:+ "." +:+ token +:+ "}}") in *.
  assert (variable ≠ "") as Hne by done.
  assert ((if String.eqb clock "mtime" then time_Format (ModTime t) (dateTokens_lookup token)
           else if String.eqb clock "btime" then
             time_Format (if HasBirthTime t then BirthTime t else ModTime t)
               (dateTokens_lookup token)
           else if String.eqb clock "atime" then
             time_Format (AccessTime t) (dateTokens_lookup token)
           else if String.eqb clock "ctime" then
             time_Format (if HasChangeTime t then ChangeTime t else ModTime t)
               (dateTokens_lookup token)
           else if String.eqb clock "now" then
             time_Format (time_Now w) (dateTokens_lookup token)
           else "") = time_Format (ModTime t) (dateTokens_lookup token)) as ->.
  { destruct Hclock as [[-> ->]|[-> ->]]; done. }
  unfold regexp_ReplaceAllString.
  rewrite <- (string_app_nil_r variable) at 2.
  rewrite replace_scan_here by done.
  rewrite regexp_expand_plain by done.
  apply string_app_nil_r.
Qed.

End Date_proofs.

Lemma replaceDateVariables_falls_back_witness :
  replaceDateVariables (world_of ["a.txt"]) "a.txt"
    ("{{" +:+ "btime" +:+ "." +:+ "YYYY" +:+ "}}")
  = ("2006", None).
Proof.
  etransitivity.
  - eapply (replaceDateVariables_falls_back (world_of ["a.txt"]) "a.txt" _ "btime" "YYYY");
      [reflexivity|left; split; reflexivity|apply list_elem_of_here|reflexivity].
  - reflexivity.
Defined.

(** ** Construction: [setPaths] and [NewOperation] *)

Section Setup_proofs.
Context {W : Type} `{!Startup W}.

Implicit Types (listing : gmap string (list DirEntry.t)).

Lemma setPaths_entries k (l : list DirEntry.t) ps :
  foldl (λ ps f, ps ++ [setPaths_change k f]) ps l = ps ++ (setPaths_change k <$> l).
Proof.
  revert ps. induction l as [|f l IH]; intros ps; simpl.
  - by rewrite app_nil_r.
  - by rewrite IH, <- app_assoc.
Qed.

Lemma setPaths_directories listing ks ps :
  foldl (λ ps k,
           foldl (λ ps f, ps ++ [setPaths_change k f]) ps (default [] (listing !! k)))
        ps ks
  = ps ++ (ks ≫= λ k, setPaths_change k <$> default [] (listing !! k)).
Proof.
  revert ps. induction ks as [|k ks IH]; intros ps; simpl.
  - by rewrite app_nil_r.
  - by rewrite IH, setPaths_entries, <- app_assoc.
Qed.

Lemma paths_setPaths op listing :
  paths (setPaths op listing).1
  = paths op
    ++ (range_paths listing ≫= λ k, setPaths_change k <$> default [] (listing !! k)).
Proof. unfold setPaths. simpl. apply setPaths_directories. Qed.

Lemma range_paths_elem_of listing k : k ∈ range_paths listing ↔ is_Some (listing !! k).
Proof.
  rewrite range_paths_keys, list_elem_of_fmap. split.
  - intros ([k' v] & -> & Hkv). apply elem_of_map_to_list in Hkv. by eexists.
  - intros [v Hv]. exists (k, v). split; [done|]. by apply elem_of_map_to_list.
Qed.

Lemma range_paths_NoDup listing : NoDup (range_paths listing).
Proof. rewrite range_paths_keys. apply NoDup_fst_map_to_list. Qed.

Lemma filter_BaseDir_changes k k' (l : list DirEntry.t) :
  filter (λ ch, BaseDir ch = k) (setPaths_change k' <$> l)
  = if decide (k' = k) then setPaths_change k' <$> l else [].
Proof.
  induction l as [|f l IH].
  - by destruct (decide (k' = k)).
  - rewrite fmap_cons, filter_cons, IH. cbn [setPaths_change BaseDir].
    by destruct (decide (k' = k)).
Qed.

Lemma filter_BaseDir_directories listing k ks :
  NoDup ks →
  filter (λ ch, BaseDir ch = k)
    (ks ≫= λ k, setPaths_change k <$> default [] (listing !! k))
  = if decide (k ∈ ks) then setPaths_change k <$> default [] (listing !! k) else [].
Proof.
  induction ks as [|k' ks IH]; intros Hnd.
  - destruct (decide (k ∈ [])) as [Hin|]; [|done]. by apply elem_of_nil in Hin.
  - apply NoDup_cons in Hnd as [Hk' Hnd].
    rewrite bind_cons, filter_app, filter_BaseDir_changes, IH by done.
    destruct (decide (k' = k)) as [->|Hne].
    + destruct (decide (k ∈ ks)) as [|_]; [done|]. rewrite app_nil_r.
      destruct (decide (k ∈ k :: ks)) as [|Hout]; [done|].
      destruct Hout. apply list_elem_of_here.
    + simpl. destruct (decide (k ∈ ks)) as [Hin|Hout].
      * destruct (decide (k ∈ k' :: ks)) as [|Hout]; [done|].
        destruct Hout. by apply list_elem_of_further.
      * destruct (decide (k ∈ k' :: ks)) as [[->|?]%elem_of_cons|]; done.
Qed.

Lemma bind_keys listing (l : list (string * list DirEntry.t)) :
  (∀ kv, kv ∈ l → listing !! kv.1 = Some kv.2) →
  l.*1 ≫= (λ k, setPaths_change k <$> default [] (listing !! k))
  = l ≫= (λ kv, setPaths_change kv.1 <$> kv.2).
Proof.
  induction l as [|kv l IH]; intros Hl; [done|].
  rewrite fmap_cons, !bind_cons, IH.
  - by rewrite (Hl kv) by apply list_elem_of_here.
  - intros kv' Hkv'. apply Hl. by apply list_elem_of_further.
Qed.

Lemma setPaths_added op listing :
  ∃ added,
    paths (setPaths op listing).1 = paths op ++ added
    ∧ added ≡ₚ map_to_list listing ≫= (λ kv, setPaths_change kv.1 <$> kv.2)
    ∧ ∀ k, filter (λ ch, BaseDir ch = k) added
           = setPaths_change k <$> default [] (listing !! k).
Proof.
  eexists. split; [apply paths_setPaths|]. split.
  - rewrite range_paths_keys. rewrite bind_keys; [done|].
    intros [k v] Hkv. by apply elem_of_map_to_list in Hkv.
  - intros k. rewrite filter_BaseDir_directories by apply range_paths_NoDup.
    destruct (decide (k ∈ range_paths listing)) as [|Hout]; [done|].
    rewrite range_paths_elem_of in Hout.
    destruct (listing !! k) eqn:Hk; [|done]. destruct Hout. by eexists.
Qed.


(** The directories read: each one named has been read, and is in the
    listing with its entries; nothing else is added to the listing. *)
Lemma read_directories_listing (w : W) dirs : ∀ listing listing',
  read_directories w dirs listing = inr listing' →
  (∀ d, d ∈ dirs →
        ∃ entries, os_ReadDir w d = inr entries ∧ listing' !! d = Some entries)
  ∧ (∀ d, d ∉ dirs → listing' !! d = listing !! d).
Proof.
  induction dirs as [|v dirs IH]; intros listing listing'; simpl.
  - intros [= <-]. split; [|done]. by intros d Hd%elem_of_nil.
  - destruct (os_ReadDir w v) as [err|entries] eqn:Hv; [done|].
    intros [Hin Hout]%IH. split.
    + intros d [Hd|Hd]%elem_of_cons; [subst d|by apply Hin].
      destruct (decide (v ∈ dirs)) as [Hd|Hd]; [by apply Hin|].
      exists entries. split; [done|]. rewrite Hout by done.
      apply lookup_insert_eq.
    + intros d [Hne Hd]%not_elem_of_cons. rewrite Hout by done.
      by apply lookup_insert_ne.
Qed.

(** X20.  When the flag of the undo file is set, [NewOperation] returns an
    operation for it at once: the operation holds the name of the undo file,
    no path and no match, and it is returned whatever the search pattern,
    the directories named and the world are; no pattern is compiled and no
    directory is read. *)
Theorem NewOperation_for_undo c (w : W) :
  c_String c "undo" ≠ "" →
  ∃ op, NewOperation c w = (Some op, None)
        ∧ undoFile op = c_String c "undo"
        ∧ paths op = [] ∧ matches op = []
        ∧ ∀ w', NewOperation c w' = (Some op, None).
Proof.
  intros Hundo. unfold NewOperation.
  apply String.eqb_neq in Hundo. rewrite Hundo, andb_false_r.
  cbv zeta. cbn [undoFile]. rewrite Hundo. simpl.
  eexists. repeat split.
Qed.

(** X21.  [NewOperation] returns an operation or an error, never both and
    never neither.  The operation it returns holds no match and no conflict
    yet, and when it is for directories only it includes directories, so
    that [FindMatches] does not pass over them. *)
Theorem NewOperation_result c (w : W) :
  match NewOperation c w with
  | (Some op, err) =>
      err = None ∧ matches op = [] ∧ conflicts op = ∅
      ∧ onlyDir op = c_Bool c "only-dir"
      ∧ includeDir op = c_Bool c "only-dir" || c_Bool c "include-dir"
  | (None, err) => is_Some err
  end.
Proof.
  unfold NewOperation.
  destruct (_ && _ && _); [by eexists|]. cbv zeta. cbn [undoFile].
  destruct (negb _); [by destruct (c_Bool c "only-dir")|].
  destruct (regexp_Compile _) as [re|]; [|by eexists].
  cbn [directories set_searchRegex recursive includeHidden].
  destruct (read_directories w (c_Args c) ∅) as [err|listing]; [by eexists|].
  destruct (if (size listing =? 0)%nat then _ else _) as [err|listing'];
    [by eexists|].
  destruct (if c_Bool c "recursive" then _ else _) as [err|listing''];
    [by eexists|].
  destruct (filepath_Abs w ".") as [err|dir]; [by eexists|].
  simpl. by destruct (c_Bool c "only-dir").
Qed.

(** X22.  Without the flag of the undo file and without recursion, the
    operation [NewOperation] returns holds the pattern compiled from the
    find string, from [.*] when the find string is empty, with [(?i)] before
    it when case is ignored; each directory named (the current directory
    when none is) has been read, and the paths of the operation are the
    changes of the entries of those directories: for each directory, one
    change for each entry, in the order of the entries; and the working
    directory is what [filepath.Abs] gives for the current directory. *)
Theorem NewOperation_lists_directories c (w : W) op :
  NewOperation c w = (Some op, None) →
  c_String c "undo" = "" → c_Bool c "recursive" = false →
  regexp_Compile
    ((if c_Bool c "ignore-case" then "(?i)" else "")
     +:+ (if String.eqb (c_String c "find") "" then ".*" else c_String c "find"))
  = Some (searchRegex op)
  ∧ filepath_Abs w "." = inr (workingDir op)
  ∧ (∀ ch, ch ∈ paths op → BaseDir ch ∈ directories_read c ∧ Target ch = "")
  ∧ (∀ d, d ∈ directories_read c →
          ∃ entries, os_ReadDir w d = inr entries
                     ∧ filter (λ ch, BaseDir ch = d) (paths op)
                       = setPaths_change d <$> entries).
Proof.
  intros Hnew Hundo Hrec. revert Hnew. unfold NewOperation.
  destruct (_ && _ && _); [done|]. cbv zeta. cbn [undoFile ignoreCase].
  rewrite Hundo. cbn [String.eqb negb].
  assert ((if c_Bool c "ignore-case"
           then "(?i)" +:+ (if String.eqb (c_String c "find") "" then ".*"
                            else c_String c "find")
           else if String.eqb (c_String c "find") "" then ".*" else c_String c "find")
          = (if c_Bool c "ignore-case" then "(?i)" else "")
            +:+ (if String.eqb (c_String c "find") "" then ".*" else c_String c "find"))
    as -> by (by destruct (c_Bool c "ignore-case")).
  destruct (regexp_Compile _) as [re|]; [|done].
  cbn [directories set_searchRegex recursive includeHidden]. rewrite Hrec.
  destruct (read_directories w (c_Args c) ∅) as [err|listing0] eqn:Hread; [done|].
  apply read_directories_listing in Hread as [Hin Hout].
  assert (∀ listing,
    (if (size listing0 =? 0)%nat then
       match os_ReadDir w "." with
       | inl err => inl err
       | inr entries => inr (<["." := entries]> listing0)
       end
     else inr listing0) = inr listing →
    (∀ d, d ∈ directories_read c →
          ∃ entries, os_ReadDir w d = inr entries ∧ listing !! d = Some entries)
    ∧ (∀ d, d ∉ directories_read c → listing !! d = None)) as Hlisting.
  { intros listing. unfold directories_read.
    destruct (c_Args c) as [|d0 dirs] eqn:Hargs.
    - assert (listing0 = ∅) as ->.
      { apply map_eq. intros d. rewrite Hout by apply not_elem_of_nil. done. }
      rewrite map_size_empty. simpl.
      destruct (os_ReadDir w ".") as [err|entries] eqn:Hdot; [done|].
      intros [= <-]. split.
      + intros d ->%list_elem_of_singleton. exists entries.
        split; [done|]. apply lookup_insert_eq.
      + intros d Hd. rewrite lookup_insert_ne; [done|].
        intros <-. apply Hd, list_elem_of_here.
    - destruct (Hin d0) as (entries & _ & Hd0); [apply list_elem_of_here|].
      assert (size listing0 ≠ 0%nat) as Hsize.
      { intros Hz%map_size_empty_iff. by rewrite Hz in Hd0. }
      apply Nat.eqb_neq in Hsize. rewrite Hsize. intros [= <-].
      split; [done|]. intros d Hd. by rewrite Hout. }
  destruct (if (size listing0 =? 0)%nat then _ else _) as [err|listing] eqn:Hdef;
    [done|].
  destruct (Hlisting listing eq_refl) as [Hread Hnot].
  destruct (filepath_Abs w ".") as [err|dir]; [done|].
  destruct (setPaths_added
              (set_workingDir dir
                 (set_searchRegex re
                    {| paths := []; matches := []; conflicts := ∅;
                       findString := c_String c "find";
                       replaceString := c_String c "replace";
                       startNumber := c_Int c "start-num"; exec := c_Bool c "exec";
                       fixConflicts := c_Bool c "fix-conflicts";
                       includeHidden := c_Bool c "hidden";
                       includeDir :=
                         if c_Bool c "only-dir" then true else c_Bool c "include-dir";
                       onlyDir := c_Bool c "only-dir";
                       ignoreCase := c_Bool c "ignore-case";
                       ignoreExt := c_Bool c "ignore-ext"; searchRegex := nil_Regexp;
                       directories := c_Args c; recursive := false;
                       undoFile := ""; outputFile := c_String c "output-file";
                       workingDir := ""; stringMode := c_Bool c "string-mode" |}))
              listing) as (added & Hpaths & Hperm & Hfilter).
  unfold setPaths in Hpaths |- *.
  cbn [fst paths set_paths set_workingDir set_searchRegex] in Hpaths.
  intros [= <-].
  cbn [paths set_paths set_workingDir set_searchRegex searchRegex workingDir].
  split; [done|]. split; [done|]. rewrite Hpaths, app_nil_l. split.
  - intros ch Hch. rewrite Hperm in Hch.
    apply list_elem_of_bind in Hch as ([k v] & Hch & Hkv).
    apply elem_of_map_to_list in Hkv. simpl in Hch.
    apply list_elem_of_fmap in Hch as (f & -> & _). split; [|done]. simpl.
    destruct (decide (k ∈ directories_read c)) as [|Hk]; [done|].
    by rewrite (Hnot k Hk) in Hkv.
  - intros d Hd. destruct (Hread d Hd) as (entries & Hentries & Hld).
    exists entries. split; [done|]. by rewrite Hfilter, Hld.
Qed.

End Setup_proofs.

Lemma NewOperation_for_undo_witness :
  ∃ op, NewOperation
          {| c_String := λ flag, if String.eqb flag "undo" then "map.json"
                                 else if String.eqb flag "find" then "(" else "";
             c_Bool := λ _, false; c_Int := λ _, 1; c_Args := ["missing"] |}
          ([] : table_world)
        = (Some op, None)
        ∧ undoFile op = "map.json"
        ∧ paths op = [] ∧ matches op = []
        ∧ ∀ w' : table_world,
            NewOperation
              {| c_String := λ flag, if String.eqb flag "undo" then "map.json"
                                     else if String.eqb flag "find" then "(" else "";
                 c_Bool := λ _, false; c_Int := λ _, 1; c_Args := ["missing"] |} w'
            = (Some op, None).
Proof.
  apply (NewOperation_for_undo
           {| c_String := λ flag, if String.eqb flag "undo" then "map.json"
                                  else if String.eqb flag "find" then "(" else "";
              c_Bool := λ _, false; c_Int := λ _, 1; c_Args := ["missing"] |}
           ([] : table_world)).
  discriminate.
Defined.

Lemma NewOperation_lists_directories_witness :
  let c := {| c_String := λ flag, if String.eqb flag "replace" then "x" else "";
              c_Bool := λ _, false; c_Int := λ _, 1; c_Args := [] |} in
  let w : table_world :=
    [(".", [{| DirEntry.Name := "a.txt"; DirEntry.IsDir := false |};
            {| DirEntry.Name := "d"; DirEntry.IsDir := true |}])] in
  ∃ op, NewOperation c w = (Some op, None)
        ∧ paths op = [mkChange "." "a.txt" "" false; mkChange "." "d" "" true]
        ∧ regexp_Compile ".*" = Some (searchRegex op)
        ∧ filepath_Abs w "." = inr (workingDir op)
        ∧ (∀ ch, ch ∈ paths op → BaseDir ch ∈ directories_read c ∧ Target ch = "")
        ∧ (∀ d, d ∈ directories_read c →
                ∃ entries, os_ReadDir w d = inr entries
                           ∧ filter (λ ch, BaseDir ch = d) (paths op)
                             = setPaths_change d <$> entries).
Proof.
  intros c w. eexists. split; [reflexivity|]. split; [reflexivity|].
  apply (NewOperation_lists_directories c w); reflexivity.
Defined.

(** ** More on [FindMatches] and [Undo] *)

Lemma strings_Contains_empty s : strings_Contains s "" = true.
Proof. destruct s; simpl; by rewrite ?prefix_nil. Qed.

Section More_proofs.
Context {W : Type} `{!Platform W}.

(** X23.  In string mode, with case not ignored, an empty find string is
    held by every name: [FindMatches] appends every path of the operation
    but the directories when directories are not included, the files when
    the operation is for directories only, and the paths whose name begins
    with a dot when hidden paths are not included. *)
Theorem FindMatches_empty_find op :
  stringMode op = true → ignoreCase op = false → findString op = "" →
  matches (FindMatches op)
  = matches op
    ++ filter (λ v, (IsDir v = true → includeDir op = true)
                    ∧ (onlyDir op = true → IsDir v = true)
                    ∧ (includeHidden op = false →
                       String.prefix "." (filepath_Base (Source v)) = false))
         (paths op).
Proof.
  intros Hmode Hcase Hfind. unfold FindMatches. simpl. f_equal.
  apply list_filter_iff. intros v. unfold FindMatches_keeps.
  rewrite Hmode, Hcase, Hfind, strings_Contains_empty.
  destruct (IsDir v), (includeDir op), (onlyDir op), (includeHidden op);
    simpl; try (destruct (String.prefix "." (filepath_Base (Source v))));
    simpl; intuition congruence.
Qed.

Lemma Apply_out_op_matches op (w : W) :
  fixConflicts op = false → matches (out_op (Apply op w)) = matches op.
Proof.
  intros Hfix.
  destruct (DetectConflicts_matches_subject op w) as [_ Hsame].
  specialize (Hsame Hfix). unfold Apply.
  destruct (length (matches op) =? 0)%nat; [done|].
  destruct (_ && negb _); [done|].
  destruct (apply_matches _ _ w) as [[w1 ev] [e|]]; [done|].
  destruct (_ && _ && _); [|by destruct (negb _ && _)].
  unfold WriteToFile. by destruct (os_write_map_file _ _ w1).
Qed.

(** X24.  The list of changes with which [Undo] enters [Apply], and which
    [Apply] keeps when conflicts are not to be fixed, is the list of the
    record with source and target of every change swapped, rearranged so
    that the base directory of none is less than that of the one before it;
    the changes of one base directory keep the order they have in the
    record. *)
Theorem Undo_plan op (w : W) mf :
  undoFile op ≠ "" → os_read_map_file w (undoFile op) = inr mf →
  fixConflicts op = false →
  let plan := matches (out_op (Undo op w)) in
  plan ≡ₚ swap_change <$> Operations mf
  ∧ Sorted (λ a b, String.ltb (BaseDir b) (BaseDir a) = false) plan
  ∧ ∀ dir, filter (λ ch, BaseDir ch = dir) plan
           = swap_change <$> filter (λ ch, BaseDir ch = dir) (Operations mf).
Proof.
  intros Hname Hread Hfix plan.
  assert (plan = sort_SliceStable_ordered undo_less (swap_change <$> Operations mf))
    as ->.
  { unfold plan, Undo. apply String.eqb_neq in Hname. rewrite Hname, Hread.
    by rewrite Apply_out_op_matches. }
  apply Undo_plan_sorted.
Qed.

End More_proofs.

Lemma FindMatches_empty_find_witness :
  let op :=
    set_paths [mkChange "." "a.txt" "" false; mkChange "." ".git" "" true;
               mkChange "." "d" "" true; mkChange "." "b.txt" "" false]
      {| paths := []; matches := []; conflicts := ∅;
         findString := ""; replaceString := "x"; startNumber := 1; exec := false;
         fixConflicts := false; includeHidden := false; includeDir := false;
         onlyDir := false; ignoreCase := false; ignoreExt := false;
         searchRegex := match_everything; directories := []; recursive := false;
         undoFile := ""; outputFile := ""; workingDir := "/home/user";
         stringMode := true |} in
  matches (FindMatches op)
  = [mkChange "." "a.txt" "" false; mkChange "." "b.txt" "" false].
Proof.
  intros op.
  exact (FindMatches_empty_find op eq_refl eq_refl eq_refl).
Defined.

Lemma Undo_plan_witness :
  let fwd :=
    Apply (operation true false true 1 "" "map.json" ""
             [mkChange "/a/b" "f" "g" false; mkChange "/a" "b" "c" true;
              mkChange "/" "a" "d" true])
          (world_of ["/a"; "/a/b"; "/a/b/f"]) in
  let plan :=
    matches (out_op (Undo (operation true false false 1 "" "" "map.json" [])
                       (out_world fwd))) in
  plan = [mkChange "/" "d" "a" true; mkChange "/a" "c" "b" true;
          mkChange "/a/b" "g" "f" false]
  ∧ plan ≡ₚ swap_change <$> [mkChange "/a/b" "f" "g" false; mkChange "/a" "b" "c" true;
                             mkChange "/" "a" "d" true]
  ∧ Sorted (λ a b, String.ltb (BaseDir b) (BaseDir a) = false) plan
  ∧ ∀ dir, filter (λ ch, BaseDir ch = dir) plan
           = swap_change <$> filter (λ ch, BaseDir ch = dir)
                               [mkChange "/a/b" "f" "g" false; mkChange "/a" "b" "c" true;
                                mkChange "/" "a" "d" true].
Proof.
  intros fwd plan. split; [reflexivity|].
  apply (Undo_plan (operation true false false 1 "" "" "map.json" []) (out_world fwd)
           {| Date := "2021-01-01T00:00:00Z";
              Operations := [mkChange "/a/b" "f" "g" false; mkChange "/a" "b" "c" true;
                             mkChange "/" "a" "d" true] |}).
  - discriminate.
  - reflexivity.
  - reflexivity.
Defined.
